(** * munged/hash.c: chained hash table over a pooled node allocator

    A shallow embedding of [src/munged/hash.c].

    - C pointers are integers ([Z]); [NULL] is [0].
    - [struct hash_node] cells live in a node heap [Z -> hash_node]; the
      [next] links of chains and of the free list are read from and written
      to that heap, exactly as the C code does through [p->next] and [*pp].
    - The process-wide allocator variables [hash_mem_list] and
      [hash_free_list], [errno], the results that the C library will hand
      out for [malloc]/[calloc], and a log of the calls made to the user's
      callbacks and to the C library are fields of one [world] record that
      is threaded through every function.
    - Memory that [malloc] hands out is not initialised: a new block holds
      whatever the node heap holds at its addresses.
    - [free] is recorded as a call.  The end of the lifetime of what is
      freed is not modelled, so the statements below speak of the calls of
      [free] and never of the contents of memory that has been freed.
    - [lsd_mutex_*] calls guard a sequential execution and are omitted.
    - Loops that follow [next] links take a [fuel] bound; running out of
      fuel is [None].
    - The addresses of the [struct hash] and of its bucket array are not
      part of the [hash] record; [hash_destroy], which frees both, takes
      them as two further arguments. *)

From Stdlib Require Import ZArith Lia String Ascii.
From stdpp Require Import base list sorting functions.
Import list_relations.list list_basics.list.

Local Open Scope Z_scope.

(** ** Machine integers and constants *)

Definition NULL : Z := 0.
Definition INT_MAX : Z := 2147483647.
Definition UINT_MODULUS : Z := 4294967296.

(** Conversion to [unsigned int]: reduction modulo 2^32. *)
Definition uint (z : Z) : Z := z mod UINT_MODULUS.

Definition HASH_DEF_SIZE : Z := 1213.
Definition HASH_NODE_ALLOC_NUM : Z := 1024.

(** [errno] values of <errno.h> (Linux numbering). *)
Definition ENOMEM : Z := 12.
Definition EEXIST : Z := 17.
Definition EINVAL : Z := 22.

(** Object sizes of the LP64 data model. *)
Definition sizeof_ptr : Z := 8.
Definition sizeof_node : Z := 24.

(** ** Data types *)

(** [struct hash_node]. *)
Record hash_node := mk_node {
  next : Z;   (* next node in list *)
  data : Z;   (* ptr to hashed item *)
  hkey : Z    (* ptr to hashed item's key *)
}.

(** The node heap: the [struct hash_node] stored at each address. *)
Abbreviation heap := (Z -> hash_node).

(** [struct hash].  The key and comparison callbacks are the functions
    they compute; the deletion callback, which is called for its effect
    only, is kept as a function pointer ([NULL] when absent) and its
    calls are logged. *)
Record hash := mk_hash {
  count : Z;              (* number of items in hash table *)
  size : Z;               (* num slots allocated in hash table *)
  table : list Z;         (* hash table array of node ptrs *)
  cmp_f : Z -> Z -> Z;    (* key comparison function *)
  del_f : Z;              (* item deletion function *)
  key_f : Z -> Z          (* key hash function *)
}.

(** [hash_t]: a pointer to a [struct hash], [None] for [NULL]. *)
Definition hash_t : Type := option hash.

(** Calls that leave the module. *)
Inductive event :=
| EvMalloc (bytes ret : Z)
| EvCalloc (nmemb bytes ret : Z)
| EvFree (ptr : Z)
| EvDel (fn item : Z)
| EvArg (item key arg : Z).

(** The state outside the table object. *)
Record world := mk_world {
  mem : heap;             (* contents of node cells *)
  blk_next : Z -> Z;      (* link word at the start of each raw block *)
  hash_mem_list : Z;      (* static variable *)
  hash_free_list : Z;     (* static variable *)
  errno : Z;
  libc : list Z;          (* what the coming malloc/calloc calls return *)
  trace : list event      (* calls made so far, oldest first *)
}.

Definition set_mem (m : heap) (w : world) : world :=
  mk_world m (blk_next w) (hash_mem_list w) (hash_free_list w)
           (errno w) (libc w) (trace w).
Definition set_blk_next (b v : Z) (w : world) : world :=
  mk_world (mem w) (<[b := v]> (blk_next w)) (hash_mem_list w)
           (hash_free_list w) (errno w) (libc w) (trace w).
Definition set_hash_mem_list (p : Z) (w : world) : world :=
  mk_world (mem w) (blk_next w) p (hash_free_list w)
           (errno w) (libc w) (trace w).
Definition set_hash_free_list (p : Z) (w : world) : world :=
  mk_world (mem w) (blk_next w) (hash_mem_list w) p
           (errno w) (libc w) (trace w).
Definition set_errno (e : Z) (w : world) : world :=
  mk_world (mem w) (blk_next w) (hash_mem_list w) (hash_free_list w)
           e (libc w) (trace w).
Definition set_libc (l : list Z) (w : world) : world :=
  mk_world (mem w) (blk_next w) (hash_mem_list w) (hash_free_list w)
           (errno w) l (trace w).
Definition log (e : event) (w : world) : world :=
  mk_world (mem w) (blk_next w) (hash_mem_list w) (hash_free_list w)
           (errno w) (libc w) (trace w ++ [e]).

Definition set_count (n : Z) (h : hash) : hash :=
  mk_hash n (size h) (table h) (cmp_f h) (del_f h) (key_f h).
Definition set_table (t : list Z) (h : hash) : hash :=
  mk_hash (count h) (size h) t (cmp_f h) (del_f h) (key_f h).

(** Field stores [p->next = v], [p->data = v], [p->hkey = v]. *)
Definition set_next (m : heap) (p v : Z) : heap :=
  <[p := mk_node v (data (m p)) (hkey (m p))]> m.
Definition set_data (m : heap) (p v : Z) : heap :=
  <[p := mk_node (next (m p)) v (hkey (m p))]> m.
Definition set_hkey (m : heap) (p v : Z) : heap :=
  <[p := mk_node (next (m p)) (data (m p)) v]> m.

(** ** The C library *)

(** [malloc]: the next address of [libc]; an exhausted list or a [NULL]
    entry is a failed allocation, which sets [errno] to [ENOMEM]. *)
Definition malloc (bytes : Z) (w : world) : Z * world :=
  match libc w with
  | [] => (NULL, set_errno ENOMEM (log (EvMalloc bytes NULL) w))
  | p :: rest =>
      let w := set_libc rest (log (EvMalloc bytes p) w) in
      (p, if p =? NULL then set_errno ENOMEM w else w)
  end.

Definition calloc (nmemb bytes : Z) (w : world) : Z * world :=
  match libc w with
  | [] => (NULL, set_errno ENOMEM (log (EvCalloc nmemb bytes NULL) w))
  | p :: rest =>
      let w := set_libc rest (log (EvCalloc nmemb bytes p) w) in
      (p, if p =? NULL then set_errno ENOMEM w else w)
  end.

(** [free]: the call is logged.  The node heap and the block links are
    left as they are, which says nothing about the freed memory: in C it
    must not be read again. *)
Definition free (p : Z) (w : world) : world := log (EvFree p) w.

(** ** Internal functions: the node allocator *)

(** [&base[i]] for [struct hash_node *base]. *)
Definition node_at (base i : Z) : Z := base + i * sizeof_node.

(** [for (i = 0; i < HASH_NODE_ALLOC_NUM - 1; i++)
       hash_free_list[i].next = &hash_free_list[i+1];]
    with [n] iterations left; returns the final [i]. *)
Fixpoint thread_loop (n : nat) (fl i : Z) (m : heap) : Z * heap :=
  match n with
  | O => (i, m)
  | S n' => thread_loop n' fl (i + 1)
              (set_next m (node_at fl i) (node_at fl (i + 1)))
  end.

Definition hash_node_alloc (w : world) : Z * world :=
  let '(p, w) :=
    if hash_free_list w =? NULL then
      let bytes := sizeof_ptr + HASH_NODE_ALLOC_NUM * sizeof_node in
      let '(p, w) := malloc bytes w in
      if p =? NULL then (p, w)
      else
        let w := set_blk_next p (hash_mem_list w) w in
        let w := set_hash_mem_list p w in
        let w := set_hash_free_list (p + sizeof_ptr) w in
        let '(i, m) :=
          thread_loop (Z.to_nat (HASH_NODE_ALLOC_NUM - 1))
                      (hash_free_list w) 0 (mem w) in
        let m := set_next m (node_at (hash_free_list w) i) NULL in
        (p, set_mem m w)
    else (NULL, w) in
  if hash_free_list w =? NULL then (p, set_errno ENOMEM w)
  else
    let p := hash_free_list w in
    let w := set_hash_free_list (next (mem w p)) w in
    (p, set_mem (<[p := mk_node 0 0 0]> (mem w)) w).

Definition hash_node_free (node : Z) (w : world) : world :=
  let w := set_mem (set_next (mem w) node (hash_free_list w)) w in
  set_hash_free_list node w.

(** ** Table functions *)

(** [sizeof (struct hash)] in a build without [WITH_PTHREADS]. *)
Definition sizeof_hash : Z := 40.

Definition hash_create (size : Z) (key_f : option (Z -> Z))
    (cmp_f : option (Z -> Z -> Z)) (del_f : Z) (w : world)
  : hash_t * world :=
  match cmp_f, key_f with
  | Some cmp_f, Some key_f =>
      let size := if size <=? 0 then HASH_DEF_SIZE else size in
      let '(hp, w) := malloc sizeof_hash w in
      if hp =? NULL then (None, w)
      else
        let '(tp, w) := calloc size sizeof_ptr w in
        if tp =? NULL then (None, free hp w)
        else
          (Some (mk_hash 0 size (replicate (Z.to_nat size) NULL)
                         cmp_f del_f key_f), w)
  | _, _ => (None, set_errno EINVAL w)
  end.

(** [if (h->del_f) h->del_f (item);] *)
Definition call_del_f (h : hash) (item : Z) (w : world) : world :=
  if del_f h =? NULL then w else log (EvDel (del_f h) item) w.

(** [for (p = h->table[i]; p != NULL; p = q)] of [hash_reset]. *)
Fixpoint reset_chain (fuel : nat) (h : hash) (p : Z) (w : world)
  : option world :=
  match fuel with
  | O => None
  | S fuel' =>
      if p =? NULL then Some w
      else
        let q := next (mem w p) in
        let w := call_del_f h (data (mem w p)) w in
        let w := hash_node_free p w in
        reset_chain fuel' h q w
  end.

(** [for (i = 0; i < h->size; i++)] of [hash_reset], [n] buckets left. *)
Fixpoint reset_buckets (fuel : nat) (n i : nat) (h : hash) (w : world)
  : option (hash * world) :=
  match n with
  | O => Some (h, w)
  | S n' =>
      match reset_chain fuel h (table h !!! i) w with
      | None => None
      | Some w =>
          reset_buckets fuel n' (S i) (set_table (<[i := NULL]> (table h)) h) w
      end
  end.

Definition hash_reset (fuel : nat) (h : hash_t) (w : world)
  : option (hash_t * world) :=
  match h with
  | None => Some (None, set_errno EINVAL w)
  | Some h =>
      match reset_buckets fuel (Z.to_nat (size h)) 0 h w with
      | None => None
      | Some (h, w) => Some (Some (set_count 0 h), w)
      end
  end.

Definition hash_is_empty (h : hash_t) (w : world) : Z * world :=
  match h with
  | None => (-1, set_errno EINVAL w)
  | Some h => let n := count h in (if n =? 0 then 1 else 0, w)
  end.

Definition hash_count (h : hash_t) (w : world) : Z * world :=
  match h with
  | None => (-1, set_errno EINVAL w)
  | Some h => let n := count h in (n, w)
  end.

(** [h->key_f (key) % h->size], computed in [unsigned int]. *)
Definition slot_of (h : hash) (key : Z) : nat :=
  Z.to_nat (uint (key_f h key) mod uint (size h)).

(** The [for] loop of [hash_find], from node [p]. *)
Fixpoint find_loop (fuel : nat) (h : hash) (key : Z) (m : heap) (p : Z)
  : option Z :=
  match fuel with
  | O => None
  | S fuel' =>
      if p =? NULL then Some NULL
      else
        let cmpval := cmp_f h (hkey (m p)) key in
        if cmpval <? 0 then find_loop fuel' h key m (next (m p))
        else if cmpval =? 0 then Some (data (m p))
        else Some NULL
  end.

Definition hash_find (fuel : nat) (h : hash_t) (key : Z) (w : world)
  : option (Z * world) :=
  match h with
  | None => Some (NULL, set_errno EINVAL w)
  | Some h =>
      if key =? NULL then Some (NULL, set_errno EINVAL w)
      else
        let w := set_errno 0 w in
        let slot := slot_of h key in
        match find_loop fuel h key (mem w) (table h !!! slot) with
        | None => None
        | Some item => Some (item, w)
        end
  end.

(** A [struct hash_node **]: the address of a table slot or of the
    [next] field of a node. *)
Inductive pptr :=
| SlotRef (i : nat)
| NextRef (p : Z).

(** [*pp] *)
Definition deref (h : hash) (m : heap) (pp : pptr) : Z :=
  match pp with
  | SlotRef i => table h !!! i
  | NextRef p => next (m p)
  end.

(** [*pp = v] *)
Definition assign (h : hash) (m : heap) (pp : pptr) (v : Z) : hash * heap :=
  match pp with
  | SlotRef i => (set_table (<[i := v]> (table h)) h, m)
  | NextRef p => (h, set_next m p v)
  end.

(** How the walk of [hash_insert] and [hash_remove] ends: at a node [p]
    with [cmpval == 0], or by leaving the loop with [pp] ([*pp] is [NULL]
    or a node with [cmpval > 0]). *)
Inductive walk_end :=
| Match (pp : pptr) (p : Z)
| Stop (pp : pptr).

(** [for (pp = ...; (p = *pp) != NULL; pp = &(p->next))] with the
    three-way test on [cmpval], as in [hash_insert] and [hash_remove]. *)
Fixpoint walk (fuel : nat) (h : hash) (key : Z) (m : heap) (pp : pptr)
  : option walk_end :=
  match fuel with
  | O => None
  | S fuel' =>
      let p := deref h m pp in
      if p =? NULL then Some (Stop pp)
      else
        let cmpval := cmp_f h (hkey (m p)) key in
        if cmpval <? 0 then walk fuel' h key m (NextRef p)
        else if cmpval =? 0 then Some (Match pp p)
        else Some (Stop pp)
  end.

(** [hash_insert] from the call of [hash_node_alloc] on, the loop having
    been left with [pp].  [count++] on an [int] at [INT_MAX] is undefined:
    the result is [None]. *)
Definition insert_at (h : hash) (pp : pptr) (key item : Z) (w : world)
  : option (Z * hash_t * world) :=
  let '(p, w) := hash_node_alloc w in
  if p =? NULL then Some (NULL, Some h, w)
  else
    let m := set_hkey (mem w) p key in
    let m := set_data m p item in
    let m := set_next m p (deref h m pp) in
    let '(h, m) := assign h m pp p in
    if count h =? INT_MAX then None
    else Some (item, Some (set_count (count h + 1) h), set_mem m w).

Definition hash_insert (fuel : nat) (h : hash_t) (key item : Z) (w : world)
  : option (Z * hash_t * world) :=
  match h with
  | None => Some (NULL, None, set_errno EINVAL w)
  | Some h =>
      if (key =? NULL) || (item =? NULL)
      then Some (NULL, Some h, set_errno EINVAL w)
      else
        let slot := slot_of h key in
        match walk fuel h key (mem w) (SlotRef slot) with
        | None => None
        | Some (Match _ _) => Some (NULL, Some h, set_errno EEXIST w)
        | Some (Stop pp) => insert_at h pp key item w
        end
  end.

(** [hash_remove] at the matching node [p = *pp]. *)
Definition remove_at (h : hash) (pp : pptr) (p : Z) (w : world)
  : Z * hash_t * world :=
  let item := data (mem w p) in
  let '(h, m) := assign h (mem w) pp (next (mem w p)) in
  let w := hash_node_free p (set_mem m w) in
  (item, Some (set_count (count h - 1) h), w).

Definition hash_remove (fuel : nat) (h : hash_t) (key : Z) (w : world)
  : option (Z * hash_t * world) :=
  match h with
  | None => Some (NULL, None, set_errno EINVAL w)
  | Some h =>
      if key =? NULL then Some (NULL, Some h, set_errno EINVAL w)
      else
        let w := set_errno 0 w in
        let slot := slot_of h key in
        match walk fuel h key (mem w) (SlotRef slot) with
        | None => None
        | Some (Stop _) => Some (NULL, Some h, w)
        | Some (Match pp p) => Some (remove_at h pp p w)
        end
  end.

(** [while ((p = *pp) != NULL)] of [hash_delete_if]. *)
Fixpoint delete_if_chain (fuel : nat) (arg_f : Z -> Z -> Z -> Z) (arg : Z)
    (pp : pptr) (h : hash) (w : world) (n : Z) : option (hash * world * Z) :=
  match fuel with
  | O => None
  | S fuel' =>
      let p := deref h (mem w) pp in
      if p =? NULL then Some (h, w, n)
      else
        let item := data (mem w p) in
        let w := log (EvArg item (hkey (mem w p)) arg) w in
        if arg_f item (hkey (mem w p)) arg >? 0 then
          let w := call_del_f h item w in
          let '(h, m) := assign h (mem w) pp (next (mem w p)) in
          let w := hash_node_free p (set_mem m w) in
          let h := set_count (count h - 1) h in
          delete_if_chain fuel' arg_f arg pp h w (n + 1)
        else
          delete_if_chain fuel' arg_f arg (NextRef p) h w n
  end.

(** [for (i = 0; i < h->size; i++)] of [hash_delete_if]. *)
Fixpoint delete_if_buckets (fuel : nat) (arg_f : Z -> Z -> Z -> Z) (arg : Z)
    (k i : nat) (h : hash) (w : world) (n : Z) : option (hash * world * Z) :=
  match k with
  | O => Some (h, w, n)
  | S k' =>
      match delete_if_chain fuel arg_f arg (SlotRef i) h w n with
      | None => None
      | Some (h, w, n) => delete_if_buckets fuel arg_f arg k' (S i) h w n
      end
  end.

Definition hash_delete_if (fuel : nat) (h : hash_t)
    (arg_f : option (Z -> Z -> Z -> Z)) (arg : Z) (w : world)
  : option (Z * hash_t * world) :=
  match h, arg_f with
  | Some h, Some arg_f =>
      match delete_if_buckets fuel arg_f arg (Z.to_nat (size h)) 0 h w 0 with
      | None => None
      | Some (h, w, n) => Some (n, Some h, w)
      end
  | _, _ => Some (-1, h, set_errno EINVAL w)
  end.

(** The inner [for] loop of [hash_for_each]. *)
Fixpoint for_each_chain (fuel : nat) (arg_f : Z -> Z -> Z -> Z) (arg : Z)
    (p : Z) (w : world) (n : Z) : option (world * Z) :=
  match fuel with
  | O => None
  | S fuel' =>
      if p =? NULL then Some (w, n)
      else
        let r := arg_f (data (mem w p)) (hkey (mem w p)) arg in
        let w' := log (EvArg (data (mem w p)) (hkey (mem w p)) arg) w in
        for_each_chain fuel' arg_f arg (next (mem w p)) w'
                       (if r >? 0 then n + 1 else n)
  end.

Fixpoint for_each_buckets (fuel : nat) (arg_f : Z -> Z -> Z -> Z) (arg : Z)
    (k i : nat) (h : hash) (w : world) (n : Z) : option (world * Z) :=
  match k with
  | O => Some (w, n)
  | S k' =>
      match for_each_chain fuel arg_f arg (table h !!! i) w n with
      | None => None
      | Some (w, n) => for_each_buckets fuel arg_f arg k' (S i) h w n
      end
  end.

Definition hash_for_each (fuel : nat) (h : hash_t)
    (arg_f : option (Z -> Z -> Z -> Z)) (arg : Z) (w : world)
  : option (Z * world) :=
  match h, arg_f with
  | Some h, Some arg_f =>
      match for_each_buckets fuel arg_f arg (Z.to_nat (size h)) 0 h w 0 with
      | None => None
      | Some (w, n) => Some (n, w)
      end
  | _, _ => Some (-1, set_errno EINVAL w)
  end.

(** ** Hash functions *)

Definition multiplier : Z := 31.

(** The body of the [for] loop of [hash_key_string], on the bytes that
    start at [p]; the end of the Rocq string stands for the terminating
    NUL, and an embedded NUL byte ends the walk as it does in C.  All
    arithmetic is [unsigned int]. *)
Fixpoint hash_key_string_loop (p : string) (hval : Z) : Z :=
  match p with
  | EmptyString => hval
  | String c p' =>
      if Ascii.eqb c zero then hval
      else hash_key_string_loop p'
             (uint (hval + uint (uint (multiplier * hval)
                                 + Z.of_nat (nat_of_ascii c))))
  end.

Definition hash_key_string (str : string) : Z :=
  hash_key_string_loop str 0.

(** The bytes of a C string: everything before the first NUL. *)
Fixpoint c_bytes (s : string) : list Z :=
  match s with
  | EmptyString => []
  | String c s' =>
      if Ascii.eqb c zero then [] else Z.of_nat (nat_of_ascii c) :: c_bytes s'
  end.

(** The fold the specification describes: [hval * 31 + byte], from zero,
    with unsigned wrap-around. *)
Definition spec_fold31 (s : string) : Z :=
  fold_left (fun hval b => uint (hval * 31 + b)) (c_bytes s) 0.

(** The fold the loop body computes: [hval += 31 * hval + byte], that is
    [hval * 32 + byte]. *)
Definition fold32 (s : string) : Z :=
  fold_left (fun hval b => uint (hval * 32 + b)) (c_bytes s) 0.

(** ** Abstraction: chains as lists of node addresses *)

(** [lseg m p l q]: following [next] from [p] visits exactly the nodes
    [l], in order, and then arrives at [q]. *)
Fixpoint lseg (m : heap) (p : Z) (l : list Z) (q : Z) : Prop :=
  match l with
  | [] => p = q
  | a :: l' => p = a /\ a <> NULL /\ lseg m (next (m a)) l' q
  end.

(** A [NULL]-terminated list. *)
Definition chain (m : heap) (p : Z) (l : list Z) : Prop := lseg m p l NULL.

(** The table [h] in the world [w] is made of the chains [chains], one per
    slot, and the free list of the allocator is [free]; no node occurs
    twice. *)
Record shape (h : hash) (w : world) (chains : list (list Z))
    (free : list Z) : Prop := mk_shape {
  shape_size : 0 < size h <= INT_MAX;
  shape_length : length (table h) = Z.to_nat (size h);
  shape_chains : Forall2 (chain (mem w)) (table h) chains;
  shape_free : chain (mem w) (hash_free_list w) free;
  shape_nodup : NoDup (mjoin chains ++ free)
}.

(** The slots of the raw block at [b], in address order. *)
Definition block_slots (b : Z) (from len : Z) : list Z :=
  node_at (b + sizeof_ptr) <$> seqZ from len.

Definition zero_node : hash_node := mk_node 0 0 0.

(** [malloc] fails in the world [w]. *)
Definition malloc_fails (w : world) : Prop :=
  match libc w with
  | [] => True
  | p :: _ => p = NULL
  end.

(** The address that the next [malloc] returns, if it succeeds, is the
    start of a block none of whose node slots is [NULL] or is among
    [live]. *)
Definition malloc_fresh (w : world) (live : list Z) : Prop :=
  match libc w with
  | [] => True
  | b :: _ =>
      b <> NULL ->
      forall i, 0 <= i < HASH_NODE_ALLOC_NUM ->
        node_at (b + sizeof_ptr) i <> NULL /\ node_at (b + sizeof_ptr) i ∉ live
  end.

(** ** Abstraction: the entries of a table *)

(** The key and the item stored in the node at [a]. *)
Definition entry (m : heap) (a : Z) : Z * Z := (hkey (m a), data (m a)).

(** The entries of the chains [chains], slot by slot, in link order. *)
Definition view (m : heap) (chains : list (list Z)) : list (list (Z * Z)) :=
  (fun l : list Z => entry m <$> l) <$> chains.

(** The search the specification describes, on the entries of one chain:
    a negative comparison moves on, zero returns the item of the node, a
    positive one stops. *)
Fixpoint find_spec (cmp : Z -> Z -> Z) (key : Z) (c : list (Z * Z)) : Z :=
  match c with
  | [] => NULL
  | (k, d) :: c' =>
      if cmp k key <? 0 then find_spec cmp key c'
      else if cmp k key =? 0 then d
      else NULL
  end.

(** The elements at the front of a chain that compare below the key, and
    the rest of the chain; [cv] is the comparison value of an element. *)
Fixpoint passed {A : Type} (cv : A -> Z) (l : list A) : list A :=
  match l with
  | [] => []
  | a :: l' => if cv a <? 0 then a :: passed cv l' else []
  end.

Fixpoint ahead {A : Type} (cv : A -> Z) (l : list A) : list A :=
  match l with
  | [] => []
  | a :: l' => if cv a <? 0 then ahead cv l' else l
  end.

(** [cmpval] of the node at [a] against [key]. *)
Definition node_cv (h : hash) (m : heap) (key : Z) (a : Z) : Z :=
  cmp_f h (hkey (m a)) key.

Definition entry_cv (cmp : Z -> Z -> Z) (key : Z) (e : Z * Z) : Z :=
  cmp e.1 key.

(** The chain of a slot after a successful insertion or removal. *)
Definition insert_spec (cmp : Z -> Z -> Z) (key item : Z) (c : list (Z * Z))
  : list (Z * Z) :=
  passed (entry_cv cmp key) c ++ (key, item) :: ahead (entry_cv cmp key) c.

Definition remove_spec (cmp : Z -> Z -> Z) (key : Z) (c : list (Z * Z))
  : list (Z * Z) :=
  passed (entry_cv cmp key) c ++ tail (ahead (entry_cv cmp key) c).

(** The [pp] reached from [pp] after passing the nodes [l]. *)
Fixpoint pp_after (pp : pptr) (l : list Z) : pptr :=
  match l with
  | [] => pp
  | a :: l' => pp_after (NextRef a) l'
  end.

(** [pp] does not point into one of the nodes [l]. *)
Definition pp_fresh (h : hash) (pp : pptr) (l : list Z) : Prop :=
  match pp with
  | SlotRef i => (i < length (table h))%nat
  | NextRef q => q ∉ l
  end.

(** ** The contract of the comparison callback *)

(** A three-way comparison that is a strict total order on keys, the same
    for all keys: reflexive on zero, antisymmetric in sign, transitive, and
    with equal keys interchangeable. *)
Record total_order (cmp : Z -> Z -> Z) : Prop := mk_total_order {
  cmp_refl : forall a, cmp a a = 0;
  cmp_flip : forall a b, cmp a b < 0 <-> 0 < cmp b a;
  cmp_trans : forall a b c, cmp a b < 0 -> cmp b c < 0 -> cmp a c < 0;
  cmp_trans_eq : forall a b c, cmp a b < 0 -> cmp b c = 0 -> cmp a c < 0
}.

(** Keys that compare equal hash to the same slot. *)
Definition key_f_respects_cmp (h : hash) : Prop :=
  forall a b, cmp_f h a b = 0 -> slot_of h a = slot_of h b.

(** ** The invariants of the table *)

(** The sum of the chain lengths is [count]. *)
Definition count_inv (h : hash) (v : list (list (Z * Z))) : Prop :=
  count h = Z.of_nat (length (mjoin v)).

(** No two entries of a chain compare equal. *)
Definition unique_inv (cmp : Z -> Z -> Z) (v : list (list (Z * Z))) : Prop :=
  forall c, c ∈ v ->
  forall (i j : nat) e1 e2, c !! i = Some e1 -> c !! j = Some e2 -> i <> j ->
    cmp e1.1 e2.1 <> 0.

(** Each chain is in ascending order of the comparison. *)
Definition ascending_inv (cmp : Z -> Z -> Z) (v : list (list (Z * Z))) : Prop :=
  forall c, c ∈ v ->
  forall (i j : nat) e1 e2, c !! i = Some e1 -> c !! j = Some e2 -> (i < j)%nat ->
    cmp e1.1 e2.1 <= 0.

Definition structural_inv (h : hash) (v : list (list (Z * Z))) : Prop :=
  count_inv h v /\ unique_inv (cmp_f h) v /\ ascending_inv (cmp_f h) v.

(** Strictly ascending chains: both of the above at once. *)
Definition sorted_chain (cmp : Z -> Z -> Z) (c : list (Z * Z)) : Prop :=
  StronglySorted (fun e1 e2 => cmp e1.1 e2.1 < 0) c.

(** Every entry sits in the slot of its key, with a key and an item that
    are not [NULL]. *)
Definition placed (h : hash) (v : list (list (Z * Z))) : Prop :=
  forall (i : nat) c e, v !! i = Some c -> e ∈ c ->
    slot_of h e.1 = i /\ e.1 <> NULL /\ e.2 <> NULL.

(** The table [h], made of the chains [chains] in the world [w], is well
    formed and satisfies the three structural invariants. *)
Definition table_ok (h : hash) (w : world) (chains : list (list Z))
    (free : list Z) : Prop :=
  shape h w chains free /\ structural_inv h (view (mem w) chains).

Definition hash_inv (h : hash) (w : world) : Prop :=
  exists chains free, table_ok h w chains free.

(** Enough fuel to walk any chain. *)
Definition enough (fuel : nat) (chains : list (list Z)) : Prop :=
  Forall (fun l => (length l < fuel)%nat) chains.

(** ** Bulk deletion on the entries *)

(** The predicate callback returns greater-than-zero on the entry. *)
Definition doomed (arg_f : Z -> Z -> Z -> Z) (arg : Z) (e : Z * Z) : Prop :=
  0 < arg_f e.2 e.1 arg.

Global Instance doomed_dec (arg_f : Z -> Z -> Z -> Z) (arg : Z) (e : Z * Z) :
  Decision (doomed arg_f arg e) := decide (0 < arg_f e.2 e.1 arg).

(** The call of the deletion callback [del] on [item], if there is one. *)
Definition del_events (del item : Z) : list event :=
  if del =? NULL then [] else [EvDel del item].

(** The callback calls of [hash_delete_if] on the entries [c]: the
    predicate on each entry, followed by the deletion callback when the
    entry goes. *)
Definition delete_if_events (del : Z) (arg_f : Z -> Z -> Z -> Z) (arg : Z)
    (c : list (Z * Z)) : list event :=
  c ≫= (fun e => EvArg e.2 e.1 arg
                  :: (if decide (doomed arg_f arg e) then del_events del e.2
                      else [])).

(** The callback calls of [hash_reset] on the entries [c]. *)
Definition reset_events (del : Z) (c : list (Z * Z)) : list event :=
  c ≫= (fun e => del_events del e.2).

(** The entry on which a logged call of the predicate callback was made,
    and the item on which a logged call of the deletion callback was
    made. *)
Definition arg_call (ev : event) : option (Z * Z) :=
  match ev with
  | EvArg item key _ => Some (key, item)
  | _ => None
  end.

Definition del_call (ev : event) : option Z :=
  match ev with
  | EvDel _ item => Some item
  | _ => None
  end.

(** ** A small table *)

(** Keys are compared and hashed by their address. *)
Definition cmp_ex (a b : Z) : Z := a - b.
Definition key_ex (k : Z) : Z := k.

(** Two entries in slot 1 of a table of four slots: key 1 with item 10 in
    the node at 104, then key 5 with item 50 in the node at 128.  The free
    list is empty and [malloc] will return 65536. *)
Definition mem_ex : heap :=
  <[104 := mk_node 128 10 1]> (<[128 := mk_node NULL 50 5]> (fun _ => zero_node)).
Definition h_ex : hash := mk_hash 2 4 [NULL; 104; NULL; NULL] cmp_ex 4242 key_ex.
Definition w_ex : world :=
  mk_world mem_ex (fun _ => 0) NULL NULL 0 [65536] [].
Definition chains_ex : list (list Z) := [[]; [104; 128]; []; []].

(** A comparison that takes the keys of one ten for equal, while [key_ex]
    hashes them apart: key 5 with item 50 alone in slot 1 of four. *)
Definition cmp_tens (a b : Z) : Z := a / 10 - b / 10.
Definition h_tens : hash :=
  mk_hash 1 4 [NULL; 128; NULL; NULL] cmp_tens 4242 key_ex.
Definition chains_tens : list (list Z) := [[]; [128]; []; []].

(** A world with nothing allocated, in which [malloc] will return 4096,
    8192 and 65536. *)
Definition w_init : world :=
  mk_world (fun _ => mk_node 7 7 7) (fun _ => 0) NULL NULL 0
           [4096; 8192; 65536] [].

(** ** The remaining functions *)

(** [hash_destroy]: the loop over the slots (its inner loop is, statement
    for statement, that of [hash_reset]; the slot is not cleared). *)
Fixpoint destroy_buckets (fuel : nat) (n i : nat) (h : hash) (w : world)
  : option world :=
  match n with
  | O => Some w
  | S n' =>
      match reset_chain fuel h (table h !!! i) w with
      | None => None
      | Some w => destroy_buckets fuel n' (S i) h w
      end
  end.

(** [hash_destroy (h)], where [hp] is the pointer [h] itself and [tp] the
    pointer [h->table]. *)
Definition hash_destroy (fuel : nat) (h : hash_t) (hp tp : Z) (w : world)
  : option world :=
  match h with
  | None => Some (set_errno EINVAL w)
  | Some h =>
      match destroy_buckets fuel (Z.to_nat (size h)) 0 h w with
      | None => None
      | Some w => Some (free hp (free tp w))
      end
  end.

(** [while (hash_mem_list != NULL)] of [hash_drop_memory]. *)
Fixpoint drop_loop (fuel : nat) (w : world) : option world :=
  match fuel with
  | O => None
  | S fuel' =>
      if hash_mem_list w =? NULL then Some w
      else
        let p := hash_mem_list w in
        let w := set_hash_mem_list (blk_next w p) w in
        let w := free p w in
        drop_loop fuel' w
  end.

Definition hash_drop_memory (fuel : nat) (w : world) : option world :=
  match drop_loop fuel w with
  | None => None
  | Some w => Some (set_hash_free_list NULL w)
  end.

(** ** Further abstractions *)

(** The raw blocks [bl] linked from [p] through their first word. *)
Fixpoint blist (bn : Z -> Z) (p : Z) (bl : list Z) : Prop :=
  match bl with
  | [] => p = NULL
  | b :: bl' => p = b /\ b <> NULL /\ blist bn (bn b) bl'
  end.

(** The world [w] with the calls [evs] added to its log. *)
Definition logged (evs : list event) (w : world) : world :=
  mk_world (mem w) (blk_next w) (hash_mem_list w) (hash_free_list w)
           (errno w) (libc w) (trace w ++ evs).

(** The callback calls of [hash_for_each] on the entries [c]. *)
Definition for_each_events (arg : Z) (c : list (Z * Z)) : list event :=
  (fun e => EvArg e.2 e.1 arg) <$> c.

(** [n] calls of [hash_node_alloc] in a row: the nodes returned. *)
Fixpoint alloc_n (n : nat) (w : world) : list Z * world :=
  match n with
  | O => ([], w)
  | S n' =>
      let '(p, w) := hash_node_alloc w in
      let '(ps, w) := alloc_n n' w in
      (p :: ps, w)
  end.

(** No byte of the string is NUL. *)
Fixpoint nul_free (s : string) : bool :=
  match s with
  | EmptyString => true
  | String c s' => negb (Ascii.eqb c zero) && nul_free s'
  end.

(** [hval * 32 + byte] over the bytes, without wrap-around. *)
Definition fold32_exact (bs : list Z) (hval : Z) : Z :=
  fold_left (fun hval b => hval * 32 + b) bs hval.

(** * Properties *)

(** ** hash_key_string *)

Lemma uint_step (hval b : Z) :
  uint (hval + uint (uint (multiplier * hval) + b)) = uint (hval * 32 + b).
Proof.
  unfold uint, multiplier, UINT_MODULUS.
  rewrite Zplus_mod_idemp_l, Zplus_mod_idemp_r.
  f_equal. lia.
Qed.

Lemma hash_key_string_loop_fold (s : string) (hval : Z) :
  hash_key_string_loop s hval
  = fold_left (fun hval b => uint (hval * 32 + b)) (c_bytes s) hval.
Proof.
  revert hval. induction s as [|c s IH]; intros hval; simpl; [reflexivity|].
  destruct (Ascii.eqb c zero); simpl; [reflexivity|].
  rewrite IH, uint_step. reflexivity.
Qed.

Lemma hash_key_string_fold32 (s : string) : hash_key_string s = fold32 s.
Proof. apply hash_key_string_loop_fold. Qed.

Example hash_key_string_empty : hash_key_string "" = 0.
Proof. reflexivity. Qed.

Example hash_key_string_a : hash_key_string "a" = 97.
Proof. reflexivity. Qed.

(** C1.  On the string "ab" the loop of [hash_key_string] yields
    32*97 + 98 = 3202, whereas the fold [hval * 31 + byte] that the
    specification describes yields 31*97 + 98 = 3105: the [+=] of the
    loop body adds [hval] once more to [multiplier * hval]. *)
Theorem hash_key_string_ab_diverges :
  hash_key_string "ab" = 3202 /\ spec_fold31 "ab" = 3105
  /\ hash_key_string "ab" <> spec_fold31 "ab".
Proof. vm_compute. repeat split; congruence. Qed.

(** ** List segments in the node heap *)

Lemma lseg_app (m : heap) (l1 l2 : list Z) (p q : Z) :
  lseg m p (l1 ++ l2) q <-> exists r, lseg m p l1 r /\ lseg m r l2 q.
Proof.
  revert p. induction l1 as [|a l1 IH]; intros p; simpl.
  - split; [intros H; exists p; auto | intros (r & -> & H); exact H].
  - rewrite IH. split.
    + intros (-> & Ha & r & H1 & H2). exists r. auto.
    + intros (r & (-> & Ha & H1) & H2). eauto.
Qed.

(** A segment only depends on the [next] fields of its own nodes. *)
Lemma lseg_frame (m m' : heap) (l : list Z) (p q : Z) :
  (forall a, a ∈ l -> next (m' a) = next (m a)) ->
  lseg m p l q -> lseg m' p l q.
Proof.
  revert p. induction l as [|a l IH]; intros p Hsame; simpl; [auto|].
  intros (-> & Ha & H). repeat split; [exact Ha|].
  rewrite Hsame by left. apply IH; [|exact H].
  intros b Hb. apply Hsame. right. exact Hb.
Qed.

Lemma lseg_not_null (m : heap) (l : list Z) (p q : Z) :
  lseg m p l q -> NULL ∉ l.
Proof.
  revert p. induction l as [|a l IH]; intros p; simpl.
  - intros _ H. inversion H.
  - intros (-> & Ha & H). apply not_elem_of_cons. split; [congruence|eauto].
Qed.

Lemma chain_null (m : heap) (l : list Z) : chain m NULL l -> l = [].
Proof. destruct l as [|a l]; [reflexivity|]. intros (<- & Ha & _). congruence. Qed.

Lemma chain_inj (m : heap) (p : Z) (l l' : list Z) :
  chain m p l -> chain m p l' -> l = l'.
Proof.
  unfold chain. revert p l'. induction l as [|a l IH]; intros p l' H H'.
  - simpl in H. subst p. symmetry. eapply chain_null, H'.
  - destruct H as (-> & Ha & H). destruct l' as [|a' l'].
    + simpl in H'. congruence.
    + destruct H' as (<- & _ & H'). f_equal. eapply IH; eassumption.
Qed.

Lemma chain_cons (m : heap) (p a : Z) (l : list Z) :
  chain m p (a :: l) <-> p = a /\ a <> NULL /\ chain m (next (m a)) l.
Proof. reflexivity. Qed.

Lemma set_next_next (m : heap) (p v : Z) : next (set_next m p v p) = v.
Proof. unfold set_next. rewrite fn_lookup_insert. reflexivity. Qed.

Lemma set_next_other (m : heap) (p v a : Z) :
  a <> p -> set_next m p v a = m a.
Proof. intros H. unfold set_next. apply fn_lookup_insert_ne. congruence. Qed.

Lemma set_next_data (m : heap) (p v a : Z) :
  data (set_next m p v a) = data (m a).
Proof.
  unfold set_next. destruct (decide (p = a)) as [->|H].
  - rewrite fn_lookup_insert. reflexivity.
  - rewrite fn_lookup_insert_ne by exact H. reflexivity.
Qed.

Lemma set_next_hkey (m : heap) (p v a : Z) :
  hkey (set_next m p v a) = hkey (m a).
Proof.
  unfold set_next. destruct (decide (p = a)) as [->|H].
  - rewrite fn_lookup_insert. reflexivity.
  - rewrite fn_lookup_insert_ne by exact H. reflexivity.
Qed.

(** ** The node allocator *)

Lemma node_at_inj (fl i j : Z) : node_at fl i = node_at fl j -> i = j.
Proof. unfold node_at, sizeof_node. lia. Qed.

Lemma thread_loop_spec (n : nat) (fl i : Z) (m : heap) :
  fst (thread_loop n fl i m) = i + Z.of_nat n
  /\ (forall j, i <= j < i + Z.of_nat n ->
        next (snd (thread_loop n fl i m) (node_at fl j)) = node_at fl (j + 1))
  /\ (forall a, (forall j, i <= j < i + Z.of_nat n -> a <> node_at fl j) ->
        snd (thread_loop n fl i m) a = m a)
  /\ (forall a, data (snd (thread_loop n fl i m) a) = data (m a)
             /\ hkey (snd (thread_loop n fl i m) a) = hkey (m a)).
Proof.
  revert i m. induction n as [|n IH]; intros i m.
  - simpl. repeat split; intros; lia.
  - cbn [thread_loop].
    destruct (IH (i + 1) (set_next m (node_at fl i) (node_at fl (i + 1))))
      as (Hi & Hnext & Hframe & Hpay).
    split; [lia|]. split; [|split].
    + intros j Hj. destruct (decide (j = i)) as [->|Hne].
      * rewrite Hframe.
        -- apply set_next_next.
        -- intros j' Hj' Heq. apply node_at_inj in Heq. lia.
      * apply Hnext. lia.
    + intros a Ha. rewrite Hframe.
      * apply set_next_other. apply Ha. lia.
      * intros j Hj. apply Ha. lia.
    + intros a. destruct (Hpay a) as [-> ->].
      rewrite set_next_data, set_next_hkey. auto.
Qed.

Lemma lseg_threaded (m : heap) (fl : Z) (n : nat) (i : Z) :
  (forall j, i <= j < i + Z.of_nat n ->
     node_at fl j <> NULL /\ next (m (node_at fl j)) = node_at fl (j + 1)) ->
  lseg m (node_at fl i) (node_at fl <$> seqZ i (Z.of_nat n))
       (node_at fl (i + Z.of_nat n)).
Proof.
  revert i. induction n as [|n IH]; intros i H.
  - rewrite seqZ_nil by lia. simpl. f_equal. lia.
  - rewrite seqZ_cons by lia. rewrite fmap_cons. simpl.
    destruct (H i) as [Hnn Hnext]; [lia|].
    split; [reflexivity|]. split; [exact Hnn|].
    rewrite Hnext. replace (Z.pred (Z.of_nat (S n))) with (Z.of_nat n) by lia.
    replace (i + Z.of_nat (S n)) with (Z.succ i + Z.of_nat n) by lia.
    replace (i + 1) with (Z.succ i) by lia.
    apply IH. intros j Hj. apply H. lia.
Qed.

Lemma node_at_0 (fl : Z) : node_at fl 0 = fl.
Proof. unfold node_at. lia. Qed.

Lemma NoDup_block_slots (b from len : Z) : NoDup (block_slots b from len).
Proof.
  unfold block_slots. apply NoDup_fmap_2; [|apply NoDup_seqZ].
  intros i j. apply node_at_inj.
Qed.

Lemma elem_of_block_slots (b from len a : Z) :
  a ∈ block_slots b from len <->
  exists i, a = node_at (b + sizeof_ptr) i /\ from <= i < from + len.
Proof.
  unfold block_slots. rewrite list_elem_of_fmap.
  split; intros (i & -> & Hi); exists i; (split; [reflexivity|]);
    apply elem_of_seqZ; exact Hi.
Qed.

(** Taking a node from a non-empty free list. *)
Lemma hash_node_alloc_pop (w : world) :
  hash_free_list w <> NULL ->
  hash_node_alloc w =
    (hash_free_list w,
     set_mem (<[hash_free_list w := zero_node]> (mem w))
       (set_hash_free_list (next (mem w (hash_free_list w))) w)).
Proof.
  intros H. apply Z.eqb_neq in H. unfold hash_node_alloc.
  rewrite H. cbn iota beta. rewrite H. reflexivity.
Qed.

(** An empty free list and no memory. *)
Lemma hash_node_alloc_fail (w : world) :
  hash_free_list w = NULL -> malloc_fails w ->
  exists w', hash_node_alloc w = (NULL, w')
    /\ errno w' = ENOMEM /\ mem w' = mem w /\ blk_next w' = blk_next w
    /\ hash_free_list w' = NULL /\ hash_mem_list w' = hash_mem_list w.
Proof.
  intros Hfl Hfail. unfold hash_node_alloc, malloc, malloc_fails in *.
  rewrite Hfl. change (NULL =? NULL) with true. cbv iota.
  destruct (libc w) as [|b rest] eqn:Hl.
  - change (NULL =? NULL) with true. cbv iota beta.
    cbn [hash_free_list set_errno log]. rewrite Hfl.
    change (NULL =? NULL) with true. cbv iota.
    eexists. split; [reflexivity|]. cbn. auto.
  - subst b. change (NULL =? NULL) with true. cbv iota beta.
    cbn [hash_free_list set_errno set_libc log]. rewrite Hfl.
    change (NULL =? NULL) with true. cbv iota.
    eexists. split; [reflexivity|]. cbn. auto.
Qed.

(** An empty free list and a new block at [b]. *)
Lemma hash_node_alloc_refill (w : world) (b : Z) (rest : list Z) :
  hash_free_list w = NULL -> libc w = b :: rest -> b <> NULL ->
  (forall i, 0 <= i < HASH_NODE_ALLOC_NUM ->
     node_at (b + sizeof_ptr) i <> NULL) ->
  exists w', hash_node_alloc w = (b + sizeof_ptr, w')
    /\ mem w' (b + sizeof_ptr) = zero_node
    /\ chain (mem w') (hash_free_list w')
             (block_slots b 1 (HASH_NODE_ALLOC_NUM - 1))
    /\ (forall a, a ∉ block_slots b 0 HASH_NODE_ALLOC_NUM ->
          mem w' a = mem w a)
    /\ hash_mem_list w' = b /\ blk_next w' b = hash_mem_list w
    /\ trace w' = trace w ++
         [EvMalloc (sizeof_ptr + HASH_NODE_ALLOC_NUM * sizeof_node) b]
    /\ libc w' = rest /\ errno w' = errno w.
Proof.
  intros Hfl Hl Hb Hnn. unfold hash_node_alloc, malloc.
  rewrite Hfl, Hl. cbn [Z.eqb NULL].
  apply Z.eqb_neq in Hb. rewrite Hb.
  cbn [hash_free_list set_hash_free_list set_hash_mem_list set_blk_next
       set_libc log mem set_mem hash_mem_list blk_next].
  set (fl := b + sizeof_ptr).
  pose proof (thread_loop_spec (Z.to_nat (HASH_NODE_ALLOC_NUM - 1)) fl 0 (mem w))
    as (Hi & Hnext & Hframe & Hpay).
  destruct (thread_loop (Z.to_nat (HASH_NODE_ALLOC_NUM - 1)) fl 0 (mem w))
    as [i m1] eqn:Hloop.
  cbn [fst snd] in *.
  cbn [hash_free_list set_hash_free_list set_hash_mem_list set_blk_next
       set_libc log mem set_mem hash_mem_list blk_next].
  assert (Hfl0 : fl <> NULL).
  { rewrite <- (node_at_0 fl). apply Hnn. unfold HASH_NODE_ALLOC_NUM. lia. }
  apply Z.eqb_neq in Hfl0. rewrite Hfl0.
  unfold HASH_NODE_ALLOC_NUM in *.
  change (Z.of_nat (Z.to_nat (1024 - 1))) with 1023 in *.
  replace i with 1023 in * by lia. clear Hi.
  set (m2 := set_next m1 (node_at fl 1023) NULL).
  eexists. split; [reflexivity|].
  cbn [mem set_mem hash_free_list set_hash_free_list hash_mem_list blk_next
       trace libc errno].
  assert (Hm2 : forall j, 0 <= j < 1023 ->
            next (m2 (node_at fl j)) = node_at fl (j + 1)).
  { intros j Hj. unfold m2. rewrite set_next_other.
    - apply Hnext. lia.
    - intros Heq. apply node_at_inj in Heq. lia. }
  split; [apply fn_lookup_insert|].
  split; [|split; [|split; [reflexivity|split; [apply fn_lookup_insert|auto]]]].
  - unfold chain, block_slots. fold fl. change (1024 - 1) with (1022 + 1).
    rewrite seqZ_app by lia. rewrite fmap_app. apply lseg_app.
    exists (node_at fl 1023). split.
    + replace (next (m2 fl)) with (node_at fl 1)
        by (rewrite <- (node_at_0 fl) at 2; rewrite Hm2 by lia; reflexivity).
      change 1022 with (Z.of_nat 1022). change 1023 with (1 + Z.of_nat 1022).
      apply lseg_threaded. intros j Hj. split; [apply Hnn; lia|].
      rewrite fn_lookup_insert_ne.
      * apply Hm2. lia.
      * rewrite <- (node_at_0 fl) at 1. intros Heq. apply node_at_inj in Heq. lia.
    + change (1 + 1022) with 1023. rewrite seqZ_cons by lia.
      rewrite seqZ_nil by lia. simpl.
      split; [reflexivity|]. split; [apply Hnn; lia|].
      rewrite fn_lookup_insert_ne.
      * unfold m2. apply set_next_next.
      * rewrite <- (node_at_0 fl) at 1. intros Heq. apply node_at_inj in Heq. lia.
  - intros a Ha.
    assert (Hout : forall j, 0 <= j < 1024 -> a <> node_at fl j).
    { intros j Hj ->. apply Ha. apply elem_of_block_slots. exists j. split; [reflexivity|lia]. }
    rewrite fn_lookup_insert_ne.
    + unfold m2. rewrite set_next_other by (apply Hout; lia).
      apply Hframe. intros j Hj. apply Hout. lia.
    + rewrite <- (node_at_0 fl). intros Heq. symmetry in Heq. revert Heq. apply Hout. lia.
Qed.

Lemma block_slots_cons (b : Z) :
  block_slots b 0 HASH_NODE_ALLOC_NUM
  = (b + sizeof_ptr) :: block_slots b 1 (HASH_NODE_ALLOC_NUM - 1).
Proof.
  unfold block_slots, HASH_NODE_ALLOC_NUM. rewrite (seqZ_cons 0) by lia.
  rewrite fmap_cons, node_at_0. reflexivity.
Qed.

(** What [hash_node_alloc] does to a well-formed free list [free], when
    the nodes of [live] are in use elsewhere. *)
Lemma hash_node_alloc_spec (w w' : world) (free live : list Z) (p : Z) :
  chain (mem w) (hash_free_list w) free -> NoDup free ->
  (forall a, a ∈ free -> a ∉ live) -> malloc_fresh w live ->
  hash_node_alloc w = (p, w') ->
  (p = NULL /\ free = [] /\ malloc_fails w /\ errno w' = ENOMEM
   /\ mem w' = mem w /\ hash_free_list w' = NULL)
  \/ (p <> NULL /\ mem w' p = zero_node
      /\ exists free', chain (mem w') (hash_free_list w') free'
           /\ NoDup (p :: free')
           /\ (forall a, a ∈ p :: free' -> a ∉ live)
           /\ (forall a, a ∉ p :: free' -> mem w' a = mem w a)
           /\ (free <> [] -> free = p :: free')
           /\ errno w' = errno w).
Proof.
  intros Hfree Hnd Hdisj Hfresh Halloc. destruct free as [|a free0].
  - unfold chain in Hfree. simpl in Hfree.
    destruct (libc w) as [|b rest] eqn:Hl.
    + left. destruct (hash_node_alloc_fail w Hfree) as (w1 & E & H1 & H2 & _ & H3 & _).
      { unfold malloc_fails. rewrite Hl. exact I. }
      rewrite E in Halloc. injection Halloc as <- <-.
      repeat split; auto. unfold malloc_fails. rewrite Hl. exact I.
    + destruct (decide (b = NULL)) as [Hb|Hb].
      * left. destruct (hash_node_alloc_fail w Hfree) as (w1 & E & H1 & H2 & _ & H3 & _).
        { unfold malloc_fails. rewrite Hl. exact Hb. }
        rewrite E in Halloc. injection Halloc as <- <-.
        repeat split; auto. unfold malloc_fails. rewrite Hl. exact Hb.
      * right. unfold malloc_fresh in Hfresh. rewrite Hl in Hfresh.
        specialize (Hfresh Hb).
        destruct (hash_node_alloc_refill w b rest Hfree Hl Hb)
          as (w1 & E & Hz & Hch & Hfr & _ & _ & _ & _ & Herr).
        { intros i Hi. apply Hfresh. exact Hi. }
        rewrite E in Halloc. injection Halloc as <- <-.
        split.
        { rewrite <- (node_at_0 (b + sizeof_ptr)). apply Hfresh.
          unfold HASH_NODE_ALLOC_NUM. lia. }
        split; [exact Hz|].
        exists (block_slots b 1 (HASH_NODE_ALLOC_NUM - 1)).
        rewrite <- block_slots_cons.
        split; [exact Hch|]. split; [apply NoDup_block_slots|].
        split; [|split; [exact Hfr|split; [congruence|exact Herr]]].
        intros x Hx. apply elem_of_block_slots in Hx as (i & -> & Hi).
        apply Hfresh. lia.
  - right. destruct Hfree as (Hfl & Ha & Hfree).
    rewrite hash_node_alloc_pop in Halloc by congruence.
    injection Halloc as <- <-. rewrite Hfl.
    split; [exact Ha|]. cbn [mem set_mem]. split; [apply fn_lookup_insert|].
    exists free0. cbn [hash_free_list set_hash_free_list set_mem errno].
    apply list.NoDup_cons in Hnd as [Hnin Hnd0].
    split.
    { eapply lseg_frame; [|exact Hfree].
      intros x Hx. rewrite fn_lookup_insert_ne; [reflexivity|].
      intros ->. contradiction. }
    split; [apply list.NoDup_cons; auto|].
    split; [exact Hdisj|].
    split; [|auto].
    intros x Hx. apply fn_lookup_insert_ne. intros ->. apply Hx. left.
Qed.

(** Giving a node back. *)
Lemma hash_node_free_spec (w : world) (node : Z) (free : list Z) :
  node <> NULL -> node ∉ free ->
  chain (mem w) (hash_free_list w) free ->
  chain (mem (hash_node_free node w)) (hash_free_list (hash_node_free node w))
        (node :: free).
Proof.
  intros Hn Hnin Hfree. unfold hash_node_free.
  cbn [mem set_mem hash_free_list set_hash_free_list].
  split; [reflexivity|]. split; [exact Hn|].
  rewrite set_next_next. eapply lseg_frame; [|exact Hfree].
  intros a Ha. rewrite set_next_other; [reflexivity|].
  intros ->. contradiction.
Qed.

Lemma hash_node_free_mem (w : world) (node a : Z) :
  data (mem (hash_node_free node w) a) = data (mem w a)
  /\ hkey (mem (hash_node_free node w) a) = hkey (mem w a)
  /\ (a <> node -> mem (hash_node_free node w) a = mem w a).
Proof.
  unfold hash_node_free. cbn [mem set_mem set_hash_free_list].
  rewrite set_next_data, set_next_hkey. repeat split.
  apply set_next_other.
Qed.

(** Nodes are reused last-in-first-out. *)
Lemma hash_node_alloc_after_free (w : world) (node : Z) :
  node <> NULL ->
  fst (hash_node_alloc (hash_node_free node w)) = node
  /\ hash_free_list (snd (hash_node_alloc (hash_node_free node w)))
     = hash_free_list w
  /\ mem (snd (hash_node_alloc (hash_node_free node w))) node = zero_node.
Proof.
  intros Hn. rewrite hash_node_alloc_pop by exact Hn.
  unfold hash_node_free. cbn. rewrite set_next_next.
  split; [reflexivity|]. split; [reflexivity|]. apply fn_lookup_insert.
Qed.

(** ** Walking a chain: the part passed and the part ahead *)

Section Split.
Context {A : Type} (cv : A -> Z).

Lemma passed_ahead (l : list A) : passed cv l ++ ahead cv l = l.
Proof.
  induction l as [|a l IH]; simpl; [reflexivity|].
  destruct (cv a <? 0); simpl; [rewrite IH|]; reflexivity.
Qed.

Lemma Forall_passed (l : list A) : Forall (fun a => cv a < 0) (passed cv l).
Proof.
  induction l as [|a l IH]; simpl; [constructor|].
  destruct (Z.ltb_spec (cv a) 0); constructor; assumption.
Qed.

Lemma ahead_head (a : A) (l t : list A) : ahead cv l = a :: t -> 0 <= cv a.
Proof.
  induction l as [|b l IH]; simpl; [discriminate|].
  destruct (Z.ltb_spec (cv b) 0); [exact IH|].
  intros E. injection E as <- <-. assumption.
Qed.

Lemma passed_fmap {B : Type} (f : B -> A) (l : list B) :
  passed cv (f <$> l) = f <$> passed (fun b => cv (f b)) l.
Proof.
  induction l as [|b l IH]; csimpl; [reflexivity|].
  destruct (cv (f b) <? 0); csimpl; [rewrite IH|]; reflexivity.
Qed.

Lemma ahead_fmap {B : Type} (f : B -> A) (l : list B) :
  ahead cv (f <$> l) = f <$> ahead (fun b => cv (f b)) l.
Proof.
  induction l as [|b l IH]; csimpl; [reflexivity|].
  destruct (cv (f b) <? 0); csimpl; [rewrite IH|]; reflexivity.
Qed.

End Split.

(** ** The search of the specification on a sorted chain *)

Section Chains.
Context (cmp : Z -> Z -> Z) (Hcmp : total_order cmp).

Lemma find_spec_ahead (key : Z) (c : list (Z * Z)) :
  find_spec cmp key c =
  match ahead (entry_cv cmp key) c with
  | [] => NULL
  | (k, d) :: _ => if cmp k key =? 0 then d else NULL
  end.
Proof.
  induction c as [|[k d] c IH]; simpl; [reflexivity|].
  unfold entry_cv at 1. simpl. destruct (cmp k key <? 0); [exact IH|reflexivity].
Qed.

Lemma find_spec_sound (key : Z) (c : list (Z * Z)) :
  find_spec cmp key c <> NULL ->
  exists k, (k, find_spec cmp key c) ∈ c /\ cmp k key = 0.
Proof.
  induction c as [|[k d] c IH]; simpl; [congruence|].
  destruct (cmp k key <? 0).
  - intros H. destruct (IH H) as (k' & Hin & Hk'). exists k'. split; [right|]; assumption.
  - destruct (Z.eqb_spec (cmp k key) 0) as [E|E]; [|congruence].
    intros _. exists k. split; [left|exact E].
Qed.



(** *** Strict sortedness is uniqueness plus ascending order *)

Lemma StronglySorted_lookup {B : Type} (R : B -> B -> Prop) (l : list B) :
  StronglySorted R l <->
  forall (i j : nat) a b, l !! i = Some a -> l !! j = Some b -> (i < j)%nat -> R a b.
Proof.
  induction l as [|x l IH].
  - split; [intros _ i j a b H; inversion H | constructor].
  - split.
    + intros Hs. apply StronglySorted_inv in Hs as [Hs Hall].
      rewrite Forall_forall in Hall. rewrite IH in Hs.
      intros [|i] [|j] a b Ha Hb Hij; simpl in *; try lia.
      * injection Ha as <-. apply Hall. eapply list_elem_of_lookup_2. exact Hb.
      * apply (Hs i j); auto. lia.
    + intros H. constructor.
      * apply IH. intros i j a b Ha Hb Hij. apply (H (S i) (S j)); auto. lia.
      * apply Forall_forall. intros b Hb.
        apply list_elem_of_lookup in Hb as [j Hj].
        apply (H O (S j)); auto. lia.
Qed.

Lemma sorted_unique_ascending (v : list (list (Z * Z))) :
  Forall (sorted_chain cmp) v <-> unique_inv cmp v /\ ascending_inv cmp v.
Proof.
  rewrite Forall_forall. unfold unique_inv, ascending_inv, sorted_chain.
  split.
  - intros H. split; intros c Hc i j e1 e2 H1 H2 Hij;
      specialize (H c Hc); rewrite StronglySorted_lookup in H.
    + destruct (Nat.lt_total i j) as [Hlt|[->|Hlt]]; [|congruence|].
      * pose proof (H i j _ _ H1 H2 Hlt). lia.
      * pose proof (H j i _ _ H2 H1 Hlt) as Hji.
        apply (cmp_flip cmp Hcmp) in Hji. lia.
    + pose proof (H i j _ _ H1 H2 Hij). lia.
  - intros [Hu Ha] c Hc. apply StronglySorted_lookup.
    intros i j e1 e2 H1 H2 Hij.
    pose proof (Hu c Hc i j e1 e2 H1 H2 ltac:(lia)).
    pose proof (Ha c Hc i j e1 e2 H1 H2 Hij). lia.
Qed.

Lemma sorted_chain_insert (key item : Z) (c : list (Z * Z)) :
  sorted_chain cmp c ->
  (forall e t, ahead (entry_cv cmp key) c = e :: t -> 0 < cmp e.1 key) ->
  sorted_chain cmp (insert_spec cmp key item c).
Proof.
  intros Hs Hgt. unfold insert_spec, sorted_chain in *.
  rewrite <- (passed_ahead (entry_cv cmp key) c) in Hs.
  apply StronglySorted_app in Hs as (Hpa & Hp & Ha).
  apply StronglySorted_app. split; [|split; [exact Hp|]].
  - intros x y Hx Hy. apply elem_of_cons in Hy as [->|Hy].
    + simpl. pose proof (Forall_passed (entry_cv cmp key) c) as Hf.
      rewrite Forall_forall in Hf. apply (Hf x Hx).
    + apply Hpa; assumption.
  - constructor; [exact Ha|]. simpl.
    destruct (ahead (entry_cv cmp key) c) as [|e t] eqn:E; [constructor|].
    pose proof (Hgt e t eq_refl) as He. apply (cmp_flip cmp Hcmp) in He.
    apply StronglySorted_inv in Ha as [_ Hall]. constructor; [exact He|].
    eapply Forall_impl; [exact Hall|]. simpl. intros y Hy.
    eapply (cmp_trans cmp Hcmp); eassumption.
Qed.

Lemma sorted_chain_remove (key : Z) (c : list (Z * Z)) :
  sorted_chain cmp c -> sorted_chain cmp (remove_spec cmp key c).
Proof.
  intros Hs. unfold remove_spec, sorted_chain in *.
  rewrite <- (passed_ahead (entry_cv cmp key) c) in Hs.
  apply StronglySorted_app in Hs as (Hpa & Hp & Ha).
  apply StronglySorted_app.
  destruct (ahead (entry_cv cmp key) c) as [|e t]; simpl.
  - split; [|split; [exact Hp|constructor]].
    intros x y _ Hy. inversion Hy.
  - apply StronglySorted_inv in Ha as [Ha _].
    split; [|split; [exact Hp|exact Ha]].
    intros x y Hx Hy. apply Hpa; [exact Hx|right; exact Hy].
Qed.

Lemma sorted_chain_filter (P : Z * Z -> Prop) `{!forall e, Decision (P e)}
    (c : list (Z * Z)) :
  sorted_chain cmp c -> sorted_chain cmp (filter P c).
Proof.
  unfold sorted_chain. induction c as [|e c IH]; intros Hs; [constructor|].
  apply StronglySorted_inv in Hs as [Hs Hall].
  rewrite filter_cons. destruct (decide (P e)); [|auto].
  constructor; [auto|].
  rewrite Forall_forall in *. intros y Hy.
  apply list_elem_of_filter in Hy as [_ Hy]. auto.
Qed.




End Chains.

(** ** hash_find *)

Lemma find_loop_spec (h : hash) (key : Z) (m : heap) (l : list Z) :
  forall (fuel : nat) (p : Z),
  chain m p l -> (length l < fuel)%nat ->
  find_loop fuel h key m p = Some (find_spec (cmp_f h) key (entry m <$> l)).
Proof.
  unfold chain. induction l as [|a l IH]; intros fuel p Hch Hfuel;
    (destruct fuel as [|fuel]; [simpl in Hfuel; lia|]); simpl in Hch.
  - subst p. reflexivity.
  - destruct Hch as (-> & Ha & Hch). cbn [find_loop].
    apply Z.eqb_neq in Ha. rewrite Ha. csimpl. unfold entry at 1.
    destruct (cmp_f h (hkey (m a)) key <? 0).
    + apply IH; [exact Hch|simpl in Hfuel; lia].
    + destruct (cmp_f h (hkey (m a)) key =? 0); reflexivity.
Qed.

Lemma uint_int (z : Z) : 0 < z <= INT_MAX -> uint z = z.
Proof. unfold uint, UINT_MODULUS, INT_MAX. intros H. apply Z.mod_small. lia. Qed.

Lemma slot_of_lt (h : hash) (key : Z) :
  0 < size h <= INT_MAX -> (slot_of h key < Z.to_nat (size h))%nat.
Proof.
  intros H. unfold slot_of. rewrite (uint_int (size h) H).
  pose proof (Z.mod_pos_bound (uint (key_f h key)) (size h)). lia.
Qed.

Lemma shape_lookup (h : hash) (w : world) (chains : list (list Z))
    (free : list Z) (i : nat) :
  shape h w chains free -> (i < Z.to_nat (size h))%nat ->
  exists l, chains !! i = Some l /\ chain (mem w) (table h !!! i) l.
Proof.
  intros [Hsz Hlen Hch _ _] Hi. rewrite <- Hlen in Hi.
  destruct (lookup_lt_is_Some_2 _ _ Hi) as [p Hp].
  destruct (Forall2_lookup_l _ _ _ _ _ Hch Hp) as (l & Hl & Hc).
  exists l. split; [exact Hl|].
  rewrite (list_lookup_total_correct _ _ _ Hp). exact Hc.
Qed.

Lemma view_lookup (m : heap) (chains : list (list Z)) (i : nat) (l : list Z) :
  chains !! i = Some l -> view m chains !! i = Some (entry m <$> l).
Proof. intros H. unfold view. rewrite list_lookup_fmap, H. reflexivity. Qed.

Lemma view_lookup_total (m : heap) (chains : list (list Z)) (i : nat)
    (l : list Z) :
  chains !! i = Some l -> view m chains !!! i = entry m <$> l.
Proof. intros H. apply list_lookup_total_correct, view_lookup, H. Qed.

Lemma enough_lookup (fuel : nat) (chains : list (list Z)) (i : nat)
    (l : list Z) :
  enough fuel chains -> chains !! i = Some l -> (length l < fuel)%nat.
Proof. intros H Hl. exact (Forall_lookup_1 _ _ _ _ H Hl). Qed.

Lemma structural_sorted (h : hash) (v : list (list (Z * Z))) :
  total_order (cmp_f h) -> structural_inv h v ->
  Forall (sorted_chain (cmp_f h)) v.
Proof.
  intros Hcmp (_ & Hu & Ha). apply sorted_unique_ascending; auto.
Qed.

Lemma placed_same_slot (h : hash) (v : list (list (Z * Z))) (key : Z)
    (e : Z * Z) :
  key_f_respects_cmp h -> placed h v ->
  e ∈ mjoin v -> cmp_f h e.1 key = 0 -> e ∈ v !!! slot_of h key.
Proof.
  intros Hresp Hpl He Hk. apply list_elem_of_join in He as (c & Hec & Hc).
  apply list_elem_of_lookup in Hc as [i Hi].
  destruct (Hpl i c e Hi Hec) as (Hslot & _).
  rewrite <- (Hresp _ _ Hk), Hslot.
  rewrite (list_lookup_total_correct _ _ _ Hi). exact Hec.
Qed.

Lemma slot_of_bucket (h : hash) (key : Z) :
  0 < size h <= INT_MAX ->
  slot_of h key = Z.to_nat (uint (key_f h key) mod size h)
  /\ 0 <= uint (key_f h key) mod size h < size h.
Proof.
  intros Hsz. unfold slot_of. rewrite (uint_int _ Hsz).
  split; [reflexivity|]. apply Z.mod_pos_bound. lia.
Qed.


(** ** The walk of hash_insert and hash_remove *)

Lemma walk_spec (h : hash) (key : Z) (m : heap) (l : list Z) :
  forall (fuel : nat) (pp : pptr),
  chain m (deref h m pp) l -> (length l < fuel)%nat ->
  walk fuel h key m pp =
    Some (let pp' := pp_after pp (passed (node_cv h m key) l) in
          match ahead (node_cv h m key) l with
          | [] => Stop pp'
          | p :: _ => if node_cv h m key p =? 0 then Match pp' p else Stop pp'
          end).
Proof.
  unfold chain. induction l as [|a l IH]; intros fuel pp Hch Hfuel;
    (destruct fuel as [|fuel]; [simpl in Hfuel; lia|]); simpl in Hch;
    cbn [walk].
  - rewrite Hch. reflexivity.
  - destruct Hch as (-> & Ha & Hch). apply Z.eqb_neq in Ha. rewrite Ha.
    cbn [passed ahead]. fold (node_cv h m key a).
    destruct (node_cv h m key a <? 0).
    + cbn [pp_after]. apply IH; [exact Hch|simpl in Hfuel; lia].
    + cbn [pp_after]. destruct (node_cv h m key a =? 0); reflexivity.
Qed.

Lemma deref_pp_after (h : hash) (m : heap) (l : list Z) :
  forall (pp : pptr) (r : Z),
  lseg m (deref h m pp) l r -> deref h m (pp_after pp l) = r.
Proof.
  induction l as [|a l IH]; intros pp r H; simpl in *; [exact H|].
  destruct H as (_ & _ & H). apply IH. exact H.
Qed.

(** Storing [v] through the [pp] reached after the nodes [l] makes the
    list from [pp] consist of [l] followed by whatever [v] starts. *)
Lemma assign_splice (h : hash) (m : heap) (v : Z) (l : list Z) :
  forall (pp : pptr) (r : Z),
  NoDup l -> pp_fresh h pp l -> lseg m (deref h m pp) l r ->
  lseg (assign h m (pp_after pp l) v).2
       (deref (assign h m (pp_after pp l) v).1
              (assign h m (pp_after pp l) v).2 pp) l v
  /\ (forall a, data ((assign h m (pp_after pp l) v).2 a) = data (m a)
             /\ hkey ((assign h m (pp_after pp l) v).2 a) = hkey (m a))
  /\ (forall a, a ∉ l -> pp <> NextRef a ->
        (assign h m (pp_after pp l) v).2 a = m a)
  /\ (assign h m (pp_after pp l) v).1
       = set_table (table (assign h m (pp_after pp l) v).1) h
  /\ length (table (assign h m (pp_after pp l) v).1) = length (table h)
  /\ (forall j, pp <> SlotRef j ->
        table (assign h m (pp_after pp l) v).1 !! j = table h !! j).
Proof.
  induction l as [|a l IH]; intros pp r Hnd Hfresh Hseg.
  - cbn [pp_after]. destruct pp as [i|q]; cbn [assign fst snd deref lseg table set_table].
    + simpl in Hfresh. split; [apply list_lookup_total_insert_eq, Hfresh|].
      split; [auto|]. split; [auto|]. split; [reflexivity|].
      split; [apply length_insert|].
      intros j Hj. apply list_lookup_insert_ne. congruence.
    + split; [apply set_next_next|].
      split; [intros a; rewrite set_next_data, set_next_hkey; auto|].
      split; [|destruct h; auto].
      intros a _ Ha. apply set_next_other. congruence.
  - cbn [pp_after]. simpl in Hseg. destruct Hseg as (Hd & Ha & Hseg).
    apply NoDup_cons in Hnd as [Hnin Hnd].
    destruct (IH (NextRef a) r Hnd Hnin Hseg)
      as (Hseg' & Hpay & Hframe & Hh & Hlen & Htab).
    split; [|split; [exact Hpay|split; [|split; [exact Hh|split; [exact Hlen|]]]]].
    + cbn [lseg]. split; [|split; [exact Ha|exact Hseg']].
      destruct pp as [i|q]; cbn [deref] in *.
      * rewrite !list_lookup_total_alt, Htab by congruence.
        rewrite <- list_lookup_total_alt. exact Hd.
      * simpl in Hfresh. apply not_elem_of_cons in Hfresh as [Hqa Hql].
        rewrite Hframe; [exact Hd|exact Hql|congruence].
    + intros b Hb Hpp. apply not_elem_of_cons in Hb as [Hba Hbl].
      apply Hframe; [exact Hbl|congruence].
    + intros j _. apply Htab. congruence.
Qed.

(** ** Replacing the chain of one slot *)

Lemma mjoin_insert_perm {A : Type} (chains : list (list A)) (i : nat)
    (l : list A) :
  chains !! i = Some l ->
  exists others,
    mjoin chains ≡ₚ l ++ others
    /\ (forall l', mjoin (<[i := l']> chains) ≡ₚ l' ++ others)
    /\ (forall j y a, j <> i -> chains !! j = Some y -> a ∈ y -> a ∈ others).
Proof.
  intros Hl. exists (mjoin (take i chains) ++ mjoin (drop (S i) chains)).
  pose proof (lookup_lt_Some _ _ _ Hl) as Hi.
  split; [|split].
  - rewrite <- (take_drop_middle chains i l Hl) at 1.
    rewrite join_app. csimpl. apply Permutation_app_swap_app.
  - intros l'. rewrite insert_take_drop by exact Hi.
    rewrite join_app. csimpl. apply Permutation_app_swap_app.
  - intros j y a Hj Hy Ha. apply elem_of_app.
    destruct (Nat.lt_total j i) as [Hlt|[->|Hgt]]; [left| congruence |right];
      apply list_elem_of_join; exists y; (split; [exact Ha|]).
    + eapply list_elem_of_lookup_2. rewrite lookup_take_lt by exact Hlt. exact Hy.
    + apply (list_elem_of_lookup_2 _ (j - S i)).
      rewrite lookup_drop. replace (S i + (j - S i))%nat with j by lia. exact Hy.
Qed.

Lemma shape_update (h h' : hash) (w w' : world) (chains : list (list Z))
    (free free' : list Z) (i : nat) (l l' : list Z) :
  shape h w chains free -> chains !! i = Some l ->
  size h' = size h -> length (table h') = length (table h) ->
  (forall j, j <> i -> table h' !! j = table h !! j) ->
  chain (mem w') (table h' !!! i) l' ->
  chain (mem w') (hash_free_list w') free' ->
  NoDup (l' ++ free') ->
  (forall a, a ∈ l' ++ free' -> a ∈ mjoin chains -> a ∈ l) ->
  (forall a, a ∈ mjoin chains -> a ∉ l -> next (mem w' a) = next (mem w a)) ->
  shape h' w' (<[i := l']> chains) free'.
Proof.
  intros [Hsz Hlen Hch Hfree Hnd] Hl Hsize Hlen' Htab Hl' Hfree' Hnd' Hnew Hframe.
  destruct (mjoin_insert_perm chains i l Hl) as (others & Hperm & Hperm' & Hothers).
  pose proof (lookup_lt_Some _ _ _ Hl) as Hi.
  pose proof (Forall2_length _ _ _ Hch) as Hlenc.
  rewrite Hperm in Hnd.
  apply NoDup_app in Hnd as (Hnd1 & Hdisj1 & _).
  apply NoDup_app in Hnd1 as (_ & Hdisj2 & Hndo).
  assert (Hout : forall a, a ∈ others -> a ∈ mjoin chains /\ a ∉ l).
  { intros a Ha. split.
    - rewrite Hperm. apply elem_of_app. right. exact Ha.
    - intros Hal. exact (Hdisj2 a Hal Ha). }
  constructor.
  - rewrite Hsize. exact Hsz.
  - rewrite Hlen', Hsize. exact Hlen.
  - apply Forall2_same_length_lookup. split.
    + rewrite length_insert. lia.
    + intros j x y Hx Hy. destruct (decide (j = i)) as [->|Hne].
      * rewrite list_lookup_insert_eq in Hy by exact Hi. injection Hy as <-.
        rewrite (list_lookup_total_correct _ _ _ Hx) in Hl'. exact Hl'.
      * rewrite list_lookup_insert_ne in Hy by congruence.
        rewrite Htab in Hx by exact Hne.
        pose proof (Forall2_lookup_lr _ _ _ _ _ _ Hch Hx Hy) as Hc.
        eapply lseg_frame; [|exact Hc].
        intros a Ha. destruct (Hout a (Hothers j y a Hne Hy Ha)).
        apply Hframe; assumption.
  - exact Hfree'.
  - rewrite Hperm'. rewrite <- app_assoc, Permutation_app_swap_app.
    apply NoDup_app. split; [exact Hndo|]. split; [|exact Hnd'].
    intros a Ha Ha'. destruct (Hout a Ha) as [Hin Hnl].
    apply Hnl. apply Hnew; assumption.
Qed.

Lemma lseg_frame_eq (m m' : heap) (l : list Z) (p q : Z) :
  (forall a, a ∈ l -> m' a = m a) -> lseg m p l q -> lseg m' p l q.
Proof.
  intros H. apply lseg_frame. intros a Ha. rewrite (H a Ha). reflexivity.
Qed.

Lemma entry_frame_eq (m m' : heap) (l : list Z) :
  (forall a, a ∈ l -> entry m' a = entry m a) ->
  entry m' <$> l = entry m <$> l.
Proof.
  intros H. apply list_fmap_ext. intros i a Hi. apply H.
  eapply list_elem_of_lookup_2, Hi.
Qed.

Lemma view_insert (m m' : heap) (chains : list (list Z)) (i : nat)
    (l' : list Z) :
  (forall j y a, j <> i -> chains !! j = Some y -> a ∈ y ->
     entry m' a = entry m a) ->
  view m' (<[i := l']> chains) = <[i := entry m' <$> l']> (view m chains).
Proof.
  intros H. unfold view. rewrite list_fmap_insert.
  apply list_eq. intros j. destruct (decide (j = i)) as [->|Hne].
  - destruct (decide (i < length chains)%nat) as [Hi|Hi].
    + rewrite !list_lookup_insert_eq by (rewrite length_fmap; exact Hi).
      reflexivity.
    + rewrite !list_insert_ge by (rewrite length_fmap; lia).
      rewrite !list_lookup_fmap.
      rewrite (lookup_ge_None_2 chains i) by lia. reflexivity.
  - rewrite !list_lookup_insert_ne by congruence.
    rewrite !list_lookup_fmap. destruct (chains !! j) as [y|] eqn:Hy; [|reflexivity].
    simpl. f_equal. apply entry_frame_eq. intros a Ha. exact (H j y a Hne Hy Ha).
Qed.

Lemma view_frame (m m' : heap) (chains : list (list Z)) :
  (forall a, a ∈ mjoin chains -> entry m' a = entry m a) ->
  view m' chains = view m chains.
Proof.
  intros H. unfold view. apply list_fmap_ext. intros i l Hl.
  apply entry_frame_eq. intros a Ha. apply H.
  apply list_elem_of_join. exists l. split; [exact Ha|].
  eapply list_elem_of_lookup_2, Hl.
Qed.

Lemma node_cv_entry (h : hash) (m : heap) (key : Z) (l : list Z) :
  passed (entry_cv (cmp_f h) key) (entry m <$> l)
    = entry m <$> passed (node_cv h m key) l
  /\ ahead (entry_cv (cmp_f h) key) (entry m <$> l)
    = entry m <$> ahead (node_cv h m key) l.
Proof. rewrite passed_fmap, ahead_fmap. split; reflexivity. Qed.

Lemma shape_chain_nodes (h : hash) (w : world) (chains : list (list Z))
    (free : list Z) (i : nat) (l : list Z) :
  shape h w chains free -> chains !! i = Some l ->
  NoDup l /\ (forall a, a ∈ l -> a ∈ mjoin chains)
  /\ (forall a, a ∈ l -> a ∉ free) /\ NoDup free
  /\ (forall a, a ∈ free -> a ∉ mjoin chains).
Proof.
  intros [_ _ _ _ Hnd] Hl.
  apply NoDup_app in Hnd as (Hnd & Hdisj & Hndf).
  assert (Hsub : forall a, a ∈ l -> a ∈ mjoin chains).
  { intros a Ha. apply list_elem_of_join. exists l. split; [exact Ha|].
    eapply list_elem_of_lookup_2, Hl. }
  destruct (mjoin_insert_perm chains i l Hl) as (others & Hperm & _).
  rewrite Hperm in Hnd. apply NoDup_app in Hnd as (Hndl & _).
  split; [exact Hndl|]. split; [exact Hsub|]. split; [auto|].
  split; [exact Hndf|]. intros a Ha Hin. exact (Hdisj a Hin Ha).
Qed.

(** The node that [hash_insert] fills in. *)
Lemma node_init (m : heap) (p k d r : Z) :
  set_next (set_data (set_hkey m p k) p d) p r p = mk_node r d k
  /\ (forall a, a <> p ->
        set_next (set_data (set_hkey m p k) p d) p r a = m a).
Proof.
  unfold set_next, set_data, set_hkey. split.
  - rewrite !fn_lookup_insert. reflexivity.
  - intros a Ha. rewrite !fn_lookup_insert_ne by congruence. reflexivity.
Qed.

(** ** hash_insert *)

(** Linking a new node in after the nodes [l1] of the chain [l1 ++ l2]
    of slot [i]. *)
Lemma insert_at_spec (h : hash) (w : world) (chains : list (list Z))
    (free : list Z) (key item : Z) (i : nat) (l1 l2 : list Z) :
  shape h w chains free -> chains !! i = Some (l1 ++ l2) ->
  malloc_fresh w (mjoin chains) -> count h < INT_MAX ->
  (exists w', insert_at h (pp_after (SlotRef i) l1) key item w
                = Some (NULL, Some h, w')
      /\ errno w' = ENOMEM /\ mem w' = mem w
      /\ hash_free_list w' = hash_free_list w
      /\ malloc_fails w /\ free = [])
  \/ (exists h' w' p free',
        insert_at h (pp_after (SlotRef i) l1) key item w
          = Some (item, Some h', w')
        /\ shape h' w' (<[i := l1 ++ p :: l2]> chains) free'
        /\ view (mem w') (<[i := l1 ++ p :: l2]> chains)
           = <[i := (entry (mem w) <$> l1) ++ (key, item)
                      :: (entry (mem w) <$> l2)]> (view (mem w) chains)
        /\ h' = set_table (table h') (set_count (count h + 1) h)
        /\ errno w' = errno w).
Proof.
  intros Hshape Hl Hfresh Hcount.
  pose proof (lookup_lt_Some _ _ _ Hl) as Hi.
  pose proof (Forall2_length _ _ _ (shape_chains _ _ _ _ Hshape)) as Hlen.
  assert (Hch : chain (mem w) (table h !!! i) (l1 ++ l2)).
  { destruct (shape_lookup h w chains free i Hshape) as (l0 & Hl0 & Hc).
    - rewrite <- (shape_length _ _ _ _ Hshape). lia.
    - congruence. }
  destruct (shape_chain_nodes _ _ _ _ _ _ Hshape Hl)
    as (Hndl & Hsub & Hlfree & Hndf & Hfreel).
  unfold insert_at.
  destruct (hash_node_alloc w) as [p w1] eqn:Halloc.
  destruct (hash_node_alloc_spec w w1 free (mjoin chains) p
              (shape_free _ _ _ _ Hshape) Hndf Hfreel Hfresh Halloc)
    as [(-> & -> & Hfails & Herr & Hmem & Hfl)
       |(Hp & Hzero & free' & Hfree' & Hndp & Hnew & Hframe & _ & Herr)].
  - left. exists w1. cbn [Z.eqb NULL].
    pose proof (shape_free _ _ _ _ Hshape) as Hf0. unfold chain in Hf0.
    simpl in Hf0. rewrite Hf0. auto 10.
  - right. apply Z.eqb_neq in Hp as Hpb. rewrite Hpb.
    set (m3 := set_data (set_hkey (mem w1) p key) p item).
    set (pp := pp_after (SlotRef i) l1).
    pose proof (node_init (mem w1) p key item (deref h m3 pp)) as [Hpnode Hother].
    fold m3 in Hpnode, Hother.
    set (m4 := set_next m3 p (deref h m3 pp)) in *.
    assert (Hpl : p ∉ mjoin chains) by (apply Hnew; left).
    assert (Hm4 : forall a, a ∈ mjoin chains -> m4 a = mem w a).
    { intros a Ha. rewrite Hother by (intros ->; contradiction).
      apply Hframe. intros Hin. exact (Hnew a Hin Ha). }
    assert (Hm3 : forall a, a <> p -> m3 a = mem w1 a).
    { intros a Ha. unfold m3, set_data, set_hkey.
      rewrite !fn_lookup_insert_ne by congruence. reflexivity. }
    apply lseg_app in Hch as (r0 & Hseg1 & Hseg2).
    apply NoDup_app in Hndl as (Hnd1 & Hdisj12 & Hnd2).
    assert (Hin1 : forall a, a ∈ l1 -> a ∈ mjoin chains)
      by (intros a Ha; apply Hsub, elem_of_app; left; exact Ha).
    assert (Hin2 : forall a, a ∈ l2 -> a ∈ mjoin chains)
      by (intros a Ha; apply Hsub, elem_of_app; right; exact Ha).
    assert (Hr0 : deref h m3 pp = r0).
    { apply deref_pp_after. cbn [deref].
      eapply lseg_frame_eq; [|exact Hseg1].
      intros a Ha. rewrite Hm3 by (intros ->; apply Hpl, Hin1, Ha).
      apply Hframe. intros Hin. exact (Hnew a Hin (Hin1 a Ha)). }
    assert (Hseg4 : lseg m4 (deref h m4 (SlotRef i)) l1 r0).
    { cbn [deref]. eapply lseg_frame_eq; [|exact Hseg1].
      intros a Ha. apply Hm4, Hin1, Ha. }
    destruct (assign_splice h m4 p l1 (SlotRef i) r0 Hnd1)
      as (Hseg5 & Hpay5 & Hframe5 & Hh5 & Hlen5 & Htab5);
      [exact (eq_ind_r (fun n => (i < n)%nat) Hi Hlen)|exact Hseg4|].
    fold pp in Hseg5, Hpay5, Hframe5, Hh5, Hlen5, Htab5.
    destruct (assign h m4 pp p) as [h5 m5] eqn:Eas.
    cbn [fst snd] in *.
    assert (Hc5 : count h5 = count h) by (rewrite Hh5; reflexivity).
    rewrite Hc5.
    assert (Hcb : (count h =? INT_MAX) = false) by (apply Z.eqb_neq; lia).
    rewrite Hcb.
    assert (Hm5 : forall a, a ∈ mjoin chains -> a ∉ l1 -> m5 a = mem w a).
    { intros a Ha Hal. rewrite Hframe5 by (auto; congruence). apply Hm4, Ha. }
    assert (Hm5p : m5 p = mk_node r0 item key).
    { rewrite Hframe5; [rewrite Hpnode, Hr0; reflexivity| |congruence].
      intros Hin. exact (Hpl (Hin1 p Hin)). }
    assert (Hm5f : forall a, a ∈ free' -> m5 a = mem w1 a).
    { intros a Ha.
      assert (a ∉ mjoin chains) by (apply Hnew; right; exact Ha).
      assert (a <> p).
      { intros ->. apply NoDup_cons in Hndp as [Hnin _]. contradiction. }
      rewrite Hframe5; [|intros Hin; auto|congruence].
      apply Hother. assumption. }
    exists (set_count (count h + 1) h5), (set_mem m5 w1), p, free'.
    split; [reflexivity|].
    assert (Hent : forall j y a, j <> i -> chains !! j = Some y -> a ∈ y ->
                     m5 a = mem w a).
    { intros j y a Hj Hy Ha.
      assert (Hay : a ∈ mjoin chains).
      { apply list_elem_of_join. exists y. split; [exact Ha|].
        eapply list_elem_of_lookup_2, Hy. }
      apply Hm5; [exact Hay|]. intros Hal.
      destruct (mjoin_insert_perm chains i _ Hl) as (others & Hperm & _ & Hoth).
      pose proof (shape_nodup _ _ _ _ Hshape) as Hnd.
      rewrite Hperm in Hnd. apply NoDup_app in Hnd as (Hnd & _).
      apply NoDup_app in Hnd as (_ & Hd & _).
      apply (Hd a); [apply elem_of_app; left; exact Hal|].
      exact (Hoth j y a Hj Hy Ha). }
    split; [|split; [|split; [|exact Herr]]].
    + eapply (shape_update h _ w _ chains free free' i (l1 ++ l2) (l1 ++ p :: l2)).
      * exact Hshape.
      * exact Hl.
      * cbn [size set_count]. rewrite Hh5. reflexivity.
      * cbn [table set_count]. exact Hlen5.
      * intros j Hj. cbn [table set_count]. apply Htab5. congruence.
      * cbn [table set_count mem set_mem]. unfold chain. apply lseg_app.
        exists p. split; [exact Hseg5|].
        cbn [lseg]. split; [reflexivity|]. split; [exact Hp|].
        rewrite Hm5p. cbn [next].
        eapply lseg_frame_eq; [|exact Hseg2].
        intros a Ha. apply Hm5; [apply Hin2, Ha|].
        intros Hal. exact (Hdisj12 a Hal Ha).
      * cbn [mem set_mem hash_free_list]. eapply lseg_frame_eq; [|exact Hfree'].
        exact Hm5f.
      * rewrite <- app_assoc. cbn [app]. rewrite <- Permutation_middle.
        rewrite app_assoc.
        apply NoDup_cons. split.
        -- intros Hin. apply elem_of_app in Hin as [Hin|Hin].
           ++ apply Hpl, Hsub, Hin.
           ++ apply NoDup_cons in Hndp as [Hnin _]. contradiction.
        -- apply NoDup_app. split; [apply NoDup_app; auto|].
           split; [|eapply NoDup_cons_1_2, Hndp].
           intros a Ha Haf. apply (Hnew a); [right; exact Haf|apply Hsub, Ha].
      * intros a Ha Hjoin.
        rewrite <- app_assoc in Ha. cbn [app] in Ha.
        rewrite <- Permutation_middle in Ha.
        apply elem_of_cons in Ha as [->|Ha]; [contradiction|].
        rewrite app_assoc in Ha.
        apply elem_of_app in Ha as [Ha|Ha]; [exact Ha|].
        exfalso. apply (Hnew a); [right; exact Ha|exact Hjoin].
      * intros a Ha Hal. cbn [mem set_mem]. rewrite Hm5; [reflexivity|exact Ha|].
        intros Hin. apply Hal, elem_of_app. left. exact Hin.
    + cbn [mem set_mem]. rewrite (view_insert (mem w)).
      * f_equal. rewrite fmap_app, fmap_cons. f_equal; [|f_equal].
        -- apply entry_frame_eq. intros a Ha. unfold entry.
           destruct (Hpay5 a) as [-> ->]. rewrite Hm4 by (apply Hin1, Ha).
           reflexivity.
        -- unfold entry. rewrite Hm5p. reflexivity.
        -- apply entry_frame_eq. intros a Ha. unfold entry.
           rewrite Hm5; [reflexivity|apply Hin2, Ha|].
           intros Hal. exact (Hdisj12 a Hal Ha).
      * intros j y a Hj Hy Ha. unfold entry.
        rewrite (Hent j y a Hj Hy Ha). reflexivity.
    + rewrite Hh5 at 1. reflexivity.
Qed.

(** The three outcomes of [hash_insert] on valid arguments: the key is
    already there, no node can be had, or a node is linked in at the place
    where the walk stopped. *)
Lemma hash_insert_spec (fuel : nat) (h : hash) (w : world)
    (chains : list (list Z)) (free : list Z) (key item : Z) :
  shape h w chains free -> enough fuel chains ->
  key <> NULL -> item <> NULL ->
  malloc_fresh w (mjoin chains) -> count h < INT_MAX ->
  let i := slot_of h key in
  let l := chains !!! i in
  let c := view (mem w) chains !!! i in
  (exists e t, ahead (entry_cv (cmp_f h) key) c = e :: t
     /\ cmp_f h e.1 key = 0
     /\ hash_insert fuel (Some h) key item w
        = Some (NULL, Some h, set_errno EEXIST w))
  \/ ((forall e t, ahead (entry_cv (cmp_f h) key) c = e :: t ->
         0 < cmp_f h e.1 key)
      /\ ((exists w', hash_insert fuel (Some h) key item w
                       = Some (NULL, Some h, w')
             /\ errno w' = ENOMEM /\ mem w' = mem w
             /\ hash_free_list w' = hash_free_list w
             /\ malloc_fails w /\ free = [])
          \/ (exists h' w' p free',
                hash_insert fuel (Some h) key item w
                  = Some (item, Some h', w')
                /\ shape h' w'
                     (<[i := passed (node_cv h (mem w) key) l
                             ++ p :: ahead (node_cv h (mem w) key) l]> chains)
                     free'
                /\ view (mem w')
                     (<[i := passed (node_cv h (mem w) key) l
                             ++ p :: ahead (node_cv h (mem w) key) l]> chains)
                   = <[i := insert_spec (cmp_f h) key item c]>
                       (view (mem w) chains)
                /\ h' = set_table (table h') (set_count (count h + 1) h)
                /\ errno w' = errno w))).
Proof.
  intros Hshape Hfuel Hkey Hitem Hfresh Hcount i l c.
  pose proof (slot_of_lt h key (shape_size _ _ _ _ Hshape)) as Hslot.
  fold i in Hslot.
  destruct (shape_lookup _ _ _ _ _ Hshape Hslot) as (l0 & Hl & Hch).
  assert (l = l0) as Hll by (apply list_lookup_total_correct, Hl).
  assert (Hc : c = entry (mem w) <$> l)
    by (rewrite Hll; apply view_lookup_total, Hl).
  rewrite <- Hll in Hl, Hch. clear l0 Hll.
  destruct (node_cv_entry h (mem w) key l) as [Hpassed Hahead].
  pose proof (walk_spec h key (mem w) l fuel (SlotRef i) Hch
                (enough_lookup _ _ _ _ Hfuel Hl)) as Hwalk.
  cbv zeta in Hwalk.
  pose proof (passed_ahead (node_cv h (mem w) key) l) as Hsplit.
  pose proof (ahead_head (node_cv h (mem w) key)) as Hhead.
  unfold hash_insert. apply Z.eqb_neq in Hkey, Hitem. rewrite Hkey, Hitem.
  cbn [orb]. fold i. rewrite Hwalk. clear Hwalk.
  unfold insert_spec. rewrite Hc, Hahead, Hpassed.
  set (l1 := passed (node_cv h (mem w) key) l) in *.
  assert (Hlink : forall l2, l1 ++ l2 = l ->
    (exists w', insert_at h (pp_after (SlotRef i) l1) key item w
                  = Some (NULL, Some h, w')
        /\ errno w' = ENOMEM /\ mem w' = mem w
        /\ hash_free_list w' = hash_free_list w
        /\ malloc_fails w /\ free = [])
    \/ (exists h' w' p free',
          insert_at h (pp_after (SlotRef i) l1) key item w
            = Some (item, Some h', w')
          /\ shape h' w' (<[i := l1 ++ p :: l2]> chains) free'
          /\ view (mem w') (<[i := l1 ++ p :: l2]> chains)
             = <[i := (entry (mem w) <$> l1) ++ (key, item)
                        :: (entry (mem w) <$> l2)]> (view (mem w) chains)
          /\ h' = set_table (table h') (set_count (count h + 1) h)
          /\ errno w' = errno w)).
  { intros l2 E. apply insert_at_spec with (free := free); auto.
    rewrite E. exact Hl. }
  destruct (ahead (node_cv h (mem w) key) l) as [|p2 l2'] eqn:El2.
  - right. split; [intros e t Heq; discriminate|]. apply Hlink, Hsplit.
  - specialize (Hhead p2 l l2' El2).
    destruct (Z.eqb_spec (node_cv h (mem w) key p2) 0) as [E0|E0].
    + left. exists (entry (mem w) p2), (entry (mem w) <$> l2').
      split; [reflexivity|]. split; [exact E0|reflexivity].
    + right. split; [|apply Hlink, Hsplit].
      intros e t Heq. csimpl in Heq. injection Heq as <- <-.
      unfold node_cv, entry in *. simpl. lia.
Qed.

(** ** hash_remove *)

(** Unlinking the node [p] that follows the nodes [l1] in slot [i]. *)
Lemma remove_at_spec (h : hash) (w : world) (chains : list (list Z))
    (free : list Z) (i : nat) (l1 l2 : list Z) (p : Z) :
  shape h w chains free -> chains !! i = Some (l1 ++ p :: l2) ->
  exists h' w',
    remove_at h (pp_after (SlotRef i) l1) p w
      = (data (mem w p), Some h', w')
    /\ shape h' w' (<[i := l1 ++ l2]> chains) (p :: free)
    /\ view (mem w') (<[i := l1 ++ l2]> chains)
       = <[i := (entry (mem w) <$> l1) ++ (entry (mem w) <$> l2)]>
           (view (mem w) chains)
    /\ h' = set_table (table h') (set_count (count h - 1) h)
    /\ errno w' = errno w /\ trace w' = trace w /\ libc w' = libc w.
Proof.
  intros Hshape Hl.
  pose proof (lookup_lt_Some _ _ _ Hl) as Hi.
  pose proof (Forall2_length _ _ _ (shape_chains _ _ _ _ Hshape)) as Hlen.
  assert (Hch : chain (mem w) (table h !!! i) (l1 ++ p :: l2)).
  { destruct (shape_lookup h w chains free i Hshape) as (l0 & Hl0 & Hc).
    - rewrite <- (shape_length _ _ _ _ Hshape). lia.
    - congruence. }
  destruct (shape_chain_nodes _ _ _ _ _ _ Hshape Hl)
    as (Hndl & Hsub & Hlfree & Hndf & Hfreel).
  apply lseg_app in Hch as (r0 & Hseg1 & Hseg2).
  destruct Hseg2 as (-> & Hp & Hseg2).
  apply NoDup_app in Hndl as (Hnd1 & Hdisj12 & Hnd2).
  apply NoDup_cons in Hnd2 as [Hp2 Hnd2].
  assert (Hp1 : p ∉ l1) by (intros Hin; apply (Hdisj12 p Hin); left).
  unfold remove_at.
  destruct (assign_splice h (mem w) (next (mem w p)) l1 (SlotRef i) p Hnd1)
    as (Hseg5 & Hpay5 & Hframe5 & Hh5 & Hlen5 & Htab5);
    [exact (eq_ind_r (fun n => (i < n)%nat) Hi Hlen)|exact Hseg1|].
  destruct (assign h (mem w) (pp_after (SlotRef i) l1) (next (mem w p)))
    as [h5 m5] eqn:Eas.
  cbn [fst snd] in *.
  set (w6 := hash_node_free p (set_mem m5 w)).
  pose proof (hash_node_free_mem (set_mem m5 w) p) as Hmem6.
  fold w6 in Hmem6. cbn [mem set_mem] in Hmem6.
  assert (Hm6 : forall a, a ∉ l1 -> a <> p -> mem w6 a = mem w a).
  { intros a Ha Hap. destruct (Hmem6 a) as (_ & _ & Hx). rewrite (Hx Hap).
    apply Hframe5; [exact Ha|congruence]. }
  assert (Hpay6 : forall a, entry (mem w6) a = entry (mem w) a).
  { intros a. unfold entry. destruct (Hmem6 a) as (-> & -> & _).
    destruct (Hpay5 a) as [-> ->]. reflexivity. }
  exists (set_count (count h5 - 1) h5), w6.
  split; [reflexivity|].
  assert (Hc5 : count h5 = count h) by (rewrite Hh5; reflexivity).
  split; [|split; [|split; [|auto]]].
  - eapply (shape_update h _ w _ chains free (p :: free) i
              (l1 ++ p :: l2) (l1 ++ l2)).
    + exact Hshape.
    + exact Hl.
    + cbn [size set_count]. rewrite Hh5. reflexivity.
    + cbn [table set_count]. exact Hlen5.
    + intros j Hj. cbn [table set_count]. apply Htab5. congruence.
    + cbn [table set_count]. unfold chain. apply lseg_app.
      exists (next (mem w p)). split.
      * eapply lseg_frame_eq; [|exact Hseg5].
        intros a Ha. destruct (Hmem6 a) as (_ & _ & Hx). apply Hx.
        intros ->. contradiction.
      * eapply lseg_frame_eq; [|exact Hseg2].
        intros a Ha. apply Hm6.
        -- intros Hal. apply (Hdisj12 a Hal). right. exact Ha.
        -- intros ->. contradiction.
    + apply hash_node_free_spec; [exact Hp| |].
      * apply Hlfree, elem_of_app. right. left.
      * cbn [mem set_mem hash_free_list].
        eapply lseg_frame_eq; [|exact (shape_free _ _ _ _ Hshape)].
        intros a Ha. apply Hframe5; [|congruence].
        intros Hal. apply (Hlfree a); [|exact Ha].
        apply elem_of_app. left. exact Hal.
    + rewrite <- Permutation_middle.
      assert (Hlf : forall a, a ∈ l1 ++ l2 -> a ∉ free).
      { intros a Ha. apply Hlfree. rewrite <- Permutation_middle. right. exact Ha. }
      apply NoDup_cons. split.
      * intros Hin. apply elem_of_app in Hin as [Hin|Hin].
        -- apply elem_of_app in Hin as [Hin|Hin]; contradiction.
        -- apply (Hlfree p); [|exact Hin]. apply elem_of_app. right. left.
      * apply NoDup_app. split; [|split; [exact Hlf|exact Hndf]].
        apply NoDup_app. split; [exact Hnd1|split; [|exact Hnd2]].
        intros a Ha Ha2. apply (Hdisj12 a Ha). right. exact Ha2.
    + intros a Ha Hjoin. rewrite <- Permutation_middle in Ha.
      apply elem_of_cons in Ha as [->|Ha]; [apply elem_of_app; right; left|].
      apply elem_of_app in Ha as [Ha|Ha].
      * rewrite <- Permutation_middle. right. exact Ha.
      * exfalso. exact (Hfreel a Ha Hjoin).
    + intros a Ha Hal. rewrite Hm6; [reflexivity| |].
      * intros Hin. apply Hal, elem_of_app. left. exact Hin.
      * intros ->. apply Hal, elem_of_app. right. left.
  - rewrite (view_insert (mem w)).
    + f_equal. rewrite fmap_app. f_equal; apply entry_frame_eq; auto.
    + intros j y a _ _ _. apply Hpay6.
  - rewrite Hc5. cbn [table set_count]. rewrite Hh5 at 1. reflexivity.
Qed.

Lemma shape_set_errno (h : hash) (w : world) (chains : list (list Z))
    (free : list Z) (e : Z) :
  shape h w chains free -> shape h (set_errno e w) chains free.
Proof. intros [H1 H2 H3 H4 H5]. constructor; assumption. Qed.

(** The two outcomes of [hash_remove] on a key that is not [NULL]: the
    node at which the walk stops has an equal key and is unlinked, or
    nothing changes. *)
Lemma hash_remove_spec (fuel : nat) (h : hash) (w : world)
    (chains : list (list Z)) (free : list Z) (key : Z) :
  shape h w chains free -> enough fuel chains -> key <> NULL ->
  let i := slot_of h key in
  let l := chains !!! i in
  let c := view (mem w) chains !!! i in
  (exists e t, ahead (entry_cv (cmp_f h) key) c = e :: t
     /\ cmp_f h e.1 key = 0
     /\ exists h' w' p,
          hash_remove fuel (Some h) key w = Some (e.2, Some h', w')
          /\ shape h' w'
               (<[i := passed (node_cv h (mem w) key) l
                       ++ tail (ahead (node_cv h (mem w) key) l)]> chains)
               (p :: free)
          /\ view (mem w')
               (<[i := passed (node_cv h (mem w) key) l
                       ++ tail (ahead (node_cv h (mem w) key) l)]> chains)
             = <[i := remove_spec (cmp_f h) key c]> (view (mem w) chains)
          /\ h' = set_table (table h') (set_count (count h - 1) h)
          /\ errno w' = 0 /\ trace w' = trace w /\ libc w' = libc w)
  \/ ((forall e t, ahead (entry_cv (cmp_f h) key) c = e :: t ->
         0 < cmp_f h e.1 key)
      /\ hash_remove fuel (Some h) key w = Some (NULL, Some h, set_errno 0 w)).
Proof.
  intros Hshape Hfuel Hkey i l c.
  pose proof (slot_of_lt h key (shape_size _ _ _ _ Hshape)) as Hslot.
  fold i in Hslot.
  destruct (shape_lookup _ _ _ _ _ Hshape Hslot) as (l0 & Hl & Hch).
  assert (l = l0) as Hll by (apply list_lookup_total_correct, Hl).
  assert (Hc : c = entry (mem w) <$> l)
    by (rewrite Hll; apply view_lookup_total, Hl).
  rewrite <- Hll in Hl, Hch. clear l0 Hll.
  destruct (node_cv_entry h (mem w) key l) as [Hpassed Hahead].
  pose proof (walk_spec h key (mem w) l fuel (SlotRef i) Hch
                (enough_lookup _ _ _ _ Hfuel Hl)) as Hwalk.
  cbv zeta in Hwalk.
  pose proof (passed_ahead (node_cv h (mem w) key) l) as Hsplit.
  pose proof (ahead_head (node_cv h (mem w) key)) as Hhead.
  unfold hash_remove. apply Z.eqb_neq in Hkey. rewrite Hkey.
  fold i. cbn [mem set_errno]. rewrite Hwalk. clear Hwalk.
  unfold remove_spec. rewrite Hc, Hahead, Hpassed.
  set (l1 := passed (node_cv h (mem w) key) l) in *.
  destruct (ahead (node_cv h (mem w) key) l) as [|p2 l2'] eqn:El2.
  - right. split; [intros e t Heq; discriminate|reflexivity].
  - specialize (Hhead p2 l l2' El2).
    destruct (Z.eqb_spec (node_cv h (mem w) key p2) 0) as [E0|E0].
    + left. exists (entry (mem w) p2), (entry (mem w) <$> l2').
      split; [reflexivity|]. split; [exact E0|].
      rewrite <- Hsplit in Hl.
      destruct (remove_at_spec h (set_errno 0 w) chains free i l1 l2' p2
                  (shape_set_errno _ _ _ _ 0 Hshape) Hl)
        as (h' & w' & Hrem & Hshape' & Hview & Hh' & Herr & Htr & Hlibc).
      exists h', w', p2. fold l1 in Hrem. rewrite Hrem.
      cbn [mem set_errno errno trace libc tail] in *.
      split; [reflexivity|]. auto 10.
    + right. split; [|reflexivity].
      intros e t Heq. csimpl in Heq. injection Heq as <- <-.
      unfold node_cv, entry in *. simpl. lia.
Qed.

(** ** The invariants when the chain of one slot is replaced *)

Lemma structural_update (h h' : hash) (v : list (list (Z * Z))) (i : nat)
    (c c' : list (Z * Z)) :
  total_order (cmp_f h) -> cmp_f h' = cmp_f h ->
  structural_inv h v -> v !! i = Some c ->
  sorted_chain (cmp_f h) c' ->
  count h' = count h + Z.of_nat (length c') - Z.of_nat (length c) ->
  structural_inv h' (<[i := c']> v).
Proof.
  intros Hcmp Hcf Hinv Hc Hs' Hcount.
  pose proof (structural_sorted h v Hcmp Hinv) as Hs.
  destruct Hinv as (Hcnt & _ & _).
  unfold structural_inv. rewrite Hcf. split.
  - unfold count_inv in *.
    destruct (mjoin_insert_perm v i c Hc) as (others & Hperm & Hperm' & _).
    rewrite Hperm', length_app. rewrite Hperm, length_app in Hcnt. lia.
  - apply sorted_unique_ascending; [exact Hcmp|].
    apply Forall_insert; assumption.
Qed.

Lemma placed_update (h h' : hash) (v : list (list (Z * Z))) (i : nat)
    (c' : list (Z * Z)) :
  (forall key, slot_of h' key = slot_of h key) ->
  placed h v ->
  (forall e, e ∈ c' -> slot_of h e.1 = i /\ e.1 <> NULL /\ e.2 <> NULL) ->
  placed h' (<[i := c']> v).
Proof.
  intros Hslot Hpl Hc' j c e Hj He. rewrite Hslot.
  destruct (decide (j = i)) as [->|Hne].
  - apply list_lookup_insert_Some in Hj as [(_ & <- & _)|(Hne & _)]; [|congruence].
    apply Hc', He.
  - rewrite list_lookup_insert_ne in Hj by congruence.
    exact (Hpl j c e Hj He).
Qed.

Lemma sorted_key_present (cmp : Z -> Z -> Z) (key : Z) (c : list (Z * Z))
    (e : Z * Z) :
  total_order cmp -> sorted_chain cmp c -> e ∈ c -> cmp e.1 key = 0 ->
  exists e' t, ahead (entry_cv cmp key) c = e' :: t /\ cmp e'.1 key = 0.
Proof.
  intros Hcmp Hs Hin Hk. induction c as [|e0 c IH]; [inversion Hin|].
  apply StronglySorted_inv in Hs as [Hs Hall]. cbn [ahead].
  unfold entry_cv at 1.
  apply elem_of_cons in Hin as [->|Hin].
  - rewrite Hk. cbn. eauto.
  - rewrite Forall_forall in Hall. specialize (Hall e Hin). simpl in Hall.
    pose proof (cmp_trans_eq cmp Hcmp _ _ _ Hall Hk) as Hlt.
    apply Z.ltb_lt in Hlt. rewrite Hlt. apply IH; assumption.
Qed.

(** ** hash_delete_if *)

Lemma call_del_f_spec (h : hash) (item : Z) (w : world) :
  mem (call_del_f h item w) = mem w
  /\ hash_free_list (call_del_f h item w) = hash_free_list w
  /\ trace (call_del_f h item w) = trace w ++ del_events (del_f h) item
  /\ errno (call_del_f h item w) = errno w
  /\ libc (call_del_f h item w) = libc w
  /\ hash_mem_list (call_del_f h item w) = hash_mem_list w.
Proof.
  unfold call_del_f, del_events. destruct (del_f h =? NULL); cbn.
  - rewrite app_nil_r. repeat split.
  - repeat split.
Qed.

(** One chain of [hash_delete_if]: the doomed nodes go to the free list,
    the others stay linked in their order. *)
Lemma delete_if_chain_spec (arg_f : Z -> Z -> Z -> Z) (arg : Z) (m0 : heap)
    (l : list Z) :
  forall (fuel : nat) (pp : pptr) (h : hash) (w : world) (n : Z)
         (free : list Z),
  (length l < fuel)%nat ->
  (forall a, entry (mem w) a = entry m0 a) ->
  chain (mem w) (deref h (mem w) pp) l ->
  chain (mem w) (hash_free_list w) free ->
  NoDup (l ++ free) -> pp_fresh h pp (l ++ free) ->
  exists h' w',
    delete_if_chain fuel arg_f arg pp h w n
      = Some (h', w',
              n + Z.of_nat (length (filter (fun a => doomed arg_f arg (entry m0 a)) l)))
    /\ chain (mem w') (deref h' (mem w') pp)
             (filter (fun a => ~ doomed arg_f arg (entry m0 a)) l)
    /\ chain (mem w') (hash_free_list w')
             (reverse (filter (fun a => doomed arg_f arg (entry m0 a)) l) ++ free)
    /\ (forall a, entry (mem w') a = entry m0 a)
    /\ (forall a, a ∉ l -> pp <> NextRef a -> mem w' a = mem w a)
    /\ h' = set_table (table h')
              (set_count
                 (count h - Z.of_nat
                    (length (filter (fun a => doomed arg_f arg (entry m0 a)) l)))
                 h)
    /\ length (table h') = length (table h)
    /\ (forall j, pp <> SlotRef j -> table h' !! j = table h !! j)
    /\ trace w' = trace w
         ++ delete_if_events (del_f h) arg_f arg (entry m0 <$> l)
    /\ errno w' = errno w /\ libc w' = libc w.
Proof.
  unfold chain.
  induction l as [|p l IH]; intros fuel pp h w n free Hfuel Hpay Hch Hfree Hnd Hpp;
    (destruct fuel as [|fuel]; [simpl in Hfuel; lia|]); cbn [delete_if_chain].
  - simpl in Hch. rewrite Hch. cbn [Z.eqb NULL]. exists h, w.
    rewrite filter_nil. cbn [length reverse app fmap list_fmap].
    unfold delete_if_events. cbn. rewrite app_nil_r, Z.add_0_r, Z.sub_0_r.
    repeat split; auto. destruct h; reflexivity.
  - destruct Hch as (Hd & Hp & Hch). rewrite Hd.
    apply Z.eqb_neq in Hp as Hpb. rewrite Hpb. cbn [mem log].
    cbn [app] in Hnd. apply NoDup_cons in Hnd as [Hpnin Hnd].
    assert (Hfuel' : (length l < fuel)%nat) by (simpl in Hfuel; lia).
    assert (Hent : entry (mem w) p = entry m0 p) by apply Hpay.
    rewrite !filter_cons, fmap_cons. unfold delete_if_events.
    rewrite bind_cons.
    fold (delete_if_events (del_f h) arg_f arg (entry m0 <$> l)).
    destruct (Z.gtb_spec (arg_f (data (mem w p)) (hkey (mem w p)) arg) 0)
      as [Hgt|Hle].
    + (* the node goes *)
      assert (Hdo : doomed arg_f arg (entry m0 p))
        by (unfold doomed; rewrite <- Hent; cbn; lia).
      rewrite !(decide_True (P := doomed arg_f arg (entry m0 p))) by exact Hdo.
      rewrite (decide_False (P := ~ doomed arg_f arg (entry m0 p))) by tauto.
      rewrite <- Hent. cbn [entry fst snd].
      destruct (call_del_f_spec h (data (mem w p))
                  (log (EvArg (data (mem w p)) (hkey (mem w p)) arg) w))
        as (Hmb & Hflb & Htrb & Herrb & Hlibcb & _).
      cbn [mem log hash_free_list trace errno libc] in Hmb, Hflb, Htrb, Herrb, Hlibcb.
      set (wb := call_del_f h (data (mem w p))
                   (log (EvArg (data (mem w p)) (hkey (mem w p)) arg) w)) in *.
      rewrite Hmb.
      assert (Hpp0 : pp_fresh h pp []).
      { destruct pp; cbn in *; auto. intros Hin. inversion Hin. }
      destruct (assign_splice h (mem w) (next (mem w p)) [] pp p
                  (NoDup_nil_2 (A:=Z)) Hpp0 Hd)
        as (Hseg5 & Hpay5 & Hframe5 & Hh5 & Hlen5 & Htab5).
      cbn [pp_after lseg] in *.
      destruct (assign h (mem w) pp (next (mem w p))) as [h5 m5] eqn:Eas.
      cbn [fst snd] in *.
      set (wc := hash_node_free p (set_mem m5 wb)).
      pose proof (hash_node_free_mem (set_mem m5 wb) p) as Hmem6.
      fold wc in Hmem6. cbn [mem set_mem] in Hmem6.
      assert (Hppp : pp <> NextRef p).
      { intros ->. cbn in Hpp. apply Hpp. left. }
      assert (Hwc : forall a, a <> p -> pp <> NextRef a -> mem wc a = mem w a).
      { intros a Ha Hpa. destruct (Hmem6 a) as (_ & _ & Hx). rewrite (Hx Ha).
        apply Hframe5; [intros Hin; inversion Hin|exact Hpa]. }
      destruct (IH fuel pp (set_count (count h5 - 1) h5) wc (n + 1) (p :: free))
        as (h' & w' & Hrun & Hch' & Hfree' & Hpay' & Hframe' & Hh' & Hlen'
            & Htab' & Htr' & Herr' & Hlibc'); [exact Hfuel'| | | | | |].
      * intros a. unfold entry. destruct (Hmem6 a) as (-> & -> & _).
        destruct (Hpay5 a) as [-> ->]. apply Hpay.
      * assert (Hdr : deref (set_count (count h5 - 1) h5) (mem wc) pp
                      = next (mem w p)).
        { destruct pp as [i|q]; cbn [deref table set_count] in *.
          - exact Hseg5.
          - destruct (Hmem6 q) as (_ & _ & Hx). rewrite Hx; [exact Hseg5|].
            congruence. }
        rewrite Hdr. eapply lseg_frame_eq; [|exact Hch].
        intros a Ha. apply Hwc.
        -- intros ->. apply Hpnin, elem_of_app. left. exact Ha.
        -- intros ->. cbn in Hpp. apply Hpp. right. apply elem_of_app. left. exact Ha.
      * apply hash_node_free_spec; [exact Hp| |].
        -- intros Hin. apply Hpnin, elem_of_app. right. exact Hin.
        -- cbn [mem set_mem hash_free_list]. rewrite Hflb.
           eapply lseg_frame_eq; [|exact Hfree].
           intros a Ha. apply Hframe5; [intros Hin; inversion Hin|].
           intros ->. cbn in Hpp. apply Hpp. right. apply elem_of_app. right. exact Ha.
      * rewrite <- Permutation_middle. apply NoDup_cons. split; assumption.
      * destruct pp as [i|q]; cbn [pp_fresh table set_count] in *.
        -- rewrite Hlen5. exact Hpp.
        -- rewrite <- Permutation_middle. exact Hpp.
      * exists h', w'.
        cbn [length]. rewrite reverse_cons, <- app_assoc. cbn [app].
        split; [rewrite Hrun; do 2 f_equal; lia|].
        split; [exact Hch'|]. split; [exact Hfree'|]. split; [exact Hpay'|].
        split.
        { intros a Ha Hpa. apply not_elem_of_cons in Ha as [Hap Hal].
          rewrite Hframe' by assumption. apply Hwc; assumption. }
        split.
        { assert (E5 : count h5 = count h /\ size h5 = size h
                       /\ cmp_f h5 = cmp_f h /\ del_f h5 = del_f h
                       /\ key_f h5 = key_f h)
            by (rewrite Hh5; cbn; auto).
          destruct E5 as (E1 & E2 & E3 & E4 & E5).
          rewrite Hh' at 1. unfold set_table, set_count.
          cbn [count size table cmp_f del_f key_f].
          rewrite E1, E2, E3, E4, E5. f_equal. lia. }
        split; [rewrite Hlen'; exact Hlen5|].
        split.
        { intros j Hj. rewrite Htab' by exact Hj. cbn [table set_count].
          apply Htab5, Hj. }
        split.
        { rewrite Htr'. unfold wc, hash_node_free. cbn [trace set_mem set_hash_free_list].
          rewrite Htrb.
          replace (del_f (set_count (count h5 - 1) h5)) with (del_f h)
            by (rewrite Hh5; reflexivity).
          rewrite <- !app_assoc. reflexivity. }
        split.
        { rewrite Herr'. unfold wc, hash_node_free. cbn. exact Herrb. }
        { rewrite Hlibc'. unfold wc, hash_node_free. cbn. exact Hlibcb. }
    + (* the node stays *)
      assert (Hdo : ~ doomed arg_f arg (entry m0 p))
        by (unfold doomed; rewrite <- Hent; cbn; lia).
      rewrite !(decide_False (P := doomed arg_f arg (entry m0 p))) by exact Hdo.
      rewrite (decide_True (P := ~ doomed arg_f arg (entry m0 p))) by exact Hdo.
      rewrite <- Hent. cbn [entry fst snd].
      set (wa := log (EvArg (data (mem w p)) (hkey (mem w p)) arg) w).
      assert (Hpl : p ∉ l ++ free) by exact Hpnin.
      destruct (IH fuel (NextRef p) h wa n free)
        as (h' & w' & Hrun & Hch' & Hfree' & Hpay' & Hframe' & Hh' & Hlen'
            & Htab' & Htr' & Herr' & Hlibc'); try assumption.
      exists h', w'.
      split; [exact Hrun|]. split.
      { cbn [lseg]. split; [|split; [exact Hp|exact Hch']].
        destruct pp as [i|q]; cbn [deref] in *.
        - rewrite !list_lookup_total_alt, Htab' by congruence.
          rewrite <- list_lookup_total_alt. exact Hd.
        - cbn in Hpp. rewrite Hframe'; [exact Hd| |].
          + intros Hin. apply Hpp. right. apply elem_of_app. left. exact Hin.
          + intros E. injection E as ->. apply Hpp. left. }
      split; [exact Hfree'|]. split; [exact Hpay'|].
      split.
      { intros a Ha Hpa. apply not_elem_of_cons in Ha as [Hap Hal].
        apply Hframe'; [exact Hal|congruence]. }
      split; [exact Hh'|]. split; [exact Hlen'|].
      split; [intros j _; apply Htab'; congruence|].
      split; [|auto].
      rewrite Htr'. unfold wa. cbn [trace log]. rewrite <- app_assoc. reflexivity.
Qed.

Lemma filter_fmap {A B : Type} (f : A -> B) (P : B -> Prop)
    `{!forall b, Decision (P b)} (l : list A) :
  filter P (f <$> l) = f <$> filter (fun a => P (f a)) l.
Proof.
  induction l as [|a l IH]; [reflexivity|].
  rewrite fmap_cons, !filter_cons, IH.
  destruct (decide (P (f a))); reflexivity.
Qed.

Lemma delete_if_events_app (del : Z) (arg_f : Z -> Z -> Z -> Z) (arg : Z)
    (c1 c2 : list (Z * Z)) :
  delete_if_events del arg_f arg (c1 ++ c2)
  = delete_if_events del arg_f arg c1 ++ delete_if_events del arg_f arg c2.
Proof. unfold delete_if_events. apply bind_app. Qed.

Lemma hash_fields_eq (h h' : hash) (t : list Z) (n : Z) :
  h' = set_table t (set_count n h) ->
  count h' = n /\ size h' = size h /\ cmp_f h' = cmp_f h
  /\ del_f h' = del_f h /\ key_f h' = key_f h /\ table h' = t.
Proof. intros ->. cbn. auto 10. Qed.

(** All the chains of [hash_delete_if], from slot [i] on. *)
Lemma delete_if_buckets_spec (fuel : nat) (arg_f : Z -> Z -> Z -> Z) (arg : Z)
    (m0 : heap) :
  forall (k i : nat) (h : hash) (w : world) (n : Z)
         (chains : list (list Z)) (free : list Z),
  shape h w chains free -> enough fuel chains ->
  (forall a, entry (mem w) a = entry m0 a) ->
  (i + k = length chains)%nat ->
  exists h' w',
    delete_if_buckets fuel arg_f arg k i h w n
      = Some (h', w',
              n + Z.of_nat (length (filter (fun a => doomed arg_f arg (entry m0 a))
                                           (mjoin (drop i chains)))))
    /\ shape h' w'
         (take i chains
          ++ (filter (fun a => ~ doomed arg_f arg (entry m0 a)) <$> drop i chains))
         (reverse (filter (fun a => doomed arg_f arg (entry m0 a))
                          (mjoin (drop i chains))) ++ free)
    /\ (forall a, entry (mem w') a = entry m0 a)
    /\ h' = set_table (table h')
              (set_count
                 (count h - Z.of_nat
                    (length (filter (fun a => doomed arg_f arg (entry m0 a))
                                    (mjoin (drop i chains)))))
                 h)
    /\ trace w' = trace w
         ++ delete_if_events (del_f h) arg_f arg
              (entry m0 <$> mjoin (drop i chains))
    /\ errno w' = errno w /\ libc w' = libc w.
Proof.
  induction k as [|k IH]; intros i h w n chains free Hshape Hfuel Hpay Hik.
  - cbn [delete_if_buckets]. exists h, w.
    rewrite drop_ge by lia. rewrite take_ge by lia.
    cbn. rewrite app_nil_r, Z.add_0_r, Z.sub_0_r.
    unfold delete_if_events. cbn. rewrite app_nil_r.
    split; [reflexivity|]. split; [exact Hshape|]. split; [exact Hpay|].
    split; [destruct h; reflexivity|]. auto.
  - cbn [delete_if_buckets].
    assert (Hi : (i < length chains)%nat) by lia.
    destruct (lookup_lt_is_Some_2 _ _ Hi) as [l Hl].
    pose proof (shape_length _ _ _ _ Hshape) as Hlen.
    pose proof (Forall2_length _ _ _ (shape_chains _ _ _ _ Hshape)) as Hlenc.
    destruct (shape_lookup h w chains free i Hshape) as (l0 & Hl0 & Hch);
      [lia|].
    assert (l0 = l) by congruence. subst l0.
    destruct (shape_chain_nodes _ _ _ _ _ _ Hshape Hl)
      as (Hndl & Hsub & Hlfree & Hndf & Hfreel).
    destruct (delete_if_chain_spec arg_f arg m0 l fuel (SlotRef i) h w n free)
      as (h1 & w1 & Hrun & Hch1 & Hfree1 & Hpay1 & Hframe1 & Hh1 & Hlen1
          & Htab1 & Htr1 & Herr1 & Hlibc1).
    { exact (enough_lookup _ _ _ _ Hfuel Hl). }
    { exact Hpay. }
    { exact Hch. }
    { exact (shape_free _ _ _ _ Hshape). }
    { apply NoDup_app. auto. }
    { cbn. lia. }
    rewrite Hrun.
    set (D := fun a => doomed arg_f arg (entry m0 a)) in *.
    set (K := fun a => ~ doomed arg_f arg (entry m0 a)) in *.
    destruct (hash_fields_eq _ _ _ _ Hh1) as (Hc1 & Hs1 & Hcf1 & Hdf1 & Hkf1 & _).
    assert (Hshape1 : shape h1 w1 (<[i := filter K l]> chains)
                        (reverse (filter D l) ++ free)).
    { eapply (shape_update h h1 w w1 chains free _ i l).
      - exact Hshape.
      - exact Hl.
      - exact Hs1.
      - exact Hlen1.
      - intros j Hj. apply Htab1. congruence.
      - exact Hch1.
      - exact Hfree1.
      - rewrite app_assoc. apply NoDup_app. split; [|split; [|exact Hndf]].
        + rewrite <- (filter_app_complement D l) in Hndl.
          rewrite Permutation_app_comm, reverse_Permutation. exact Hndl.
        + intros a Ha. apply Hlfree. apply elem_of_app in Ha as [Ha|Ha].
          * apply list_elem_of_filter in Ha. tauto.
          * rewrite reverse_Permutation in Ha.
            apply list_elem_of_filter in Ha. tauto.
      - intros a Ha Hjoin. apply elem_of_app in Ha as [Ha|Ha].
        + apply list_elem_of_filter in Ha. tauto.
        + apply elem_of_app in Ha as [Ha|Ha].
          * rewrite reverse_Permutation in Ha.
            apply list_elem_of_filter in Ha. tauto.
          * exfalso. exact (Hfreel a Ha Hjoin).
      - intros a _ Hal. rewrite Hframe1; [reflexivity|exact Hal|congruence]. }
    destruct (IH (S i) h1 w1
                (n + Z.of_nat (length (filter D l)))
                (<[i := filter K l]> chains)
                (reverse (filter D l) ++ free))
      as (h' & w' & Hrun' & Hshape' & Hpay' & Hh' & Htr' & Herr' & Hlibc').
    { exact Hshape1. }
    { apply Forall_insert; [exact Hfuel|].
      pose proof (length_filter K l).
      pose proof (enough_lookup _ _ _ _ Hfuel Hl). lia. }
    { exact Hpay1. }
    { rewrite length_insert. lia. }
    exists h', w'.
    rewrite drop_insert_lt in Hrun', Hshape', Hh', Htr' by lia.
    rewrite (take_S_r _ i (filter K l)) in Hshape'
      by (apply list_lookup_insert_eq; exact Hi).
    rewrite take_insert_ge in Hshape' by lia.
    rewrite (drop_S chains l i Hl). csimpl.
    rewrite filter_app, length_app, reverse_app, fmap_app, delete_if_events_app.
    rewrite <- !app_assoc in *. cbn [app] in Hshape'.
    split; [rewrite Hrun'; do 2 f_equal; lia|].
    split; [exact Hshape'|]. split; [exact Hpay'|].
    split.
    { destruct (hash_fields_eq _ _ _ _ Hh') as (E1 & E2 & E3 & E4 & E5 & _).
      destruct h'; cbn in *. subst. unfold set_table, set_count. cbn.
      f_equal; try congruence. lia. }
    split; [rewrite Htr', Htr1, Hdf1, <- app_assoc; reflexivity|].
    split; congruence.
Qed.

(** ** hash_reset *)

(** One chain of [hash_reset]: every node goes to the free list. *)
Lemma reset_chain_spec (h : hash) (m0 : heap) (l : list Z) :
  forall (fuel : nat) (p : Z) (w : world) (free : list Z),
  (length l < fuel)%nat ->
  (forall a, entry (mem w) a = entry m0 a) ->
  chain (mem w) p l -> chain (mem w) (hash_free_list w) free ->
  NoDup (l ++ free) ->
  exists w',
    reset_chain fuel h p w = Some w'
    /\ chain (mem w') (hash_free_list w') (reverse l ++ free)
    /\ (forall a, entry (mem w') a = entry m0 a)
    /\ (forall a, a ∉ l -> mem w' a = mem w a)
    /\ trace w' = trace w ++ reset_events (del_f h) (entry m0 <$> l)
    /\ errno w' = errno w /\ libc w' = libc w.
Proof.
  unfold chain.
  induction l as [|a l IH]; intros fuel p w free Hfuel Hpay Hch Hfree Hnd;
    (destruct fuel as [|fuel]; [simpl in Hfuel; lia|]); cbn [reset_chain].
  - simpl in Hch. rewrite Hch. cbn [Z.eqb NULL]. exists w.
    unfold reset_events. cbn. rewrite app_nil_r. auto 10.
  - destruct Hch as (-> & Ha & Hch). apply Z.eqb_neq in Ha as Hab. rewrite Hab.
    cbn [app] in Hnd. apply NoDup_cons in Hnd as [Hanin Hnd].
    destruct (call_del_f_spec h (data (mem w a)) w)
      as (Hmb & Hflb & Htrb & Herrb & Hlibcb & _).
    set (wb := call_del_f h (data (mem w a)) w) in *.
    pose proof (hash_node_free_mem wb a) as Hmem.
    set (wc := hash_node_free a wb) in *.
    assert (Hwc : forall x, x <> a -> mem wc x = mem w x).
    { intros x Hx. destruct (Hmem x) as (_ & _ & E). rewrite (E Hx), Hmb.
      reflexivity. }
    destruct (IH fuel (next (mem w a)) wc (a :: free))
      as (w' & Hrun & Hfree' & Hpay' & Hframe' & Htr' & Herr' & Hlibc').
    + simpl in Hfuel. lia.
    + intros x. unfold entry. destruct (Hmem x) as (-> & -> & _).
      rewrite Hmb. apply Hpay.
    + eapply lseg_frame_eq; [|exact Hch].
      intros x Hx. apply Hwc. intros ->. apply Hanin, elem_of_app. left. exact Hx.
    + apply hash_node_free_spec; [exact Ha| |].
      * intros Hin. apply Hanin, elem_of_app. right. exact Hin.
      * rewrite Hmb, Hflb. exact Hfree.
    + rewrite <- Permutation_middle. apply NoDup_cons. split; assumption.
    + exists w'. split; [exact Hrun|].
      rewrite reverse_cons, <- app_assoc. cbn [app].
      split; [exact Hfree'|]. split; [exact Hpay'|]. split.
      { intros x Hx. apply not_elem_of_cons in Hx as [Hxa Hxl].
        rewrite Hframe' by exact Hxl. apply Hwc, Hxa. }
      split.
      { rewrite Htr'. unfold wc, hash_node_free. cbn [trace set_mem set_hash_free_list].
        rewrite Htrb, fmap_cons. unfold reset_events. rewrite bind_cons.
        rewrite <- app_assoc.
        replace (entry m0 a).2 with (data (mem w a))
          by (rewrite <- Hpay; reflexivity).
        reflexivity. }
      unfold wc, hash_node_free in *. cbn in *. split; congruence.
Qed.

Lemma reset_events_app (del : Z) (c1 c2 : list (Z * Z)) :
  reset_events del (c1 ++ c2) = reset_events del c1 ++ reset_events del c2.
Proof. unfold reset_events. apply bind_app. Qed.

(** All the chains of [hash_reset], from slot [i] on. *)
Lemma reset_buckets_spec (fuel : nat) (m0 : heap) :
  forall (k i : nat) (h : hash) (w : world)
         (chains : list (list Z)) (free : list Z),
  shape h w chains free -> enough fuel chains ->
  (forall a, entry (mem w) a = entry m0 a) ->
  (i + k = length chains)%nat ->
  exists h' w',
    reset_buckets fuel k i h w = Some (h', w')
    /\ shape h' w' (take i chains ++ replicate k [])
             (reverse (mjoin (drop i chains)) ++ free)
    /\ h' = set_table (table h') h
    /\ trace w' = trace w
         ++ reset_events (del_f h) (entry m0 <$> mjoin (drop i chains))
    /\ errno w' = errno w /\ libc w' = libc w.
Proof.
  induction k as [|k IH]; intros i h w chains free Hshape Hfuel Hpay Hik.
  - cbn [reset_buckets]. exists h, w.
    rewrite drop_ge by lia. rewrite take_ge by lia.
    cbn. rewrite ?app_nil_r. unfold reset_events. cbn. rewrite ?app_nil_r.
    split; [reflexivity|]. split; [exact Hshape|].
    split; [destruct h; reflexivity|]. auto.
  - cbn [reset_buckets].
    assert (Hi : (i < length chains)%nat) by lia.
    destruct (lookup_lt_is_Some_2 _ _ Hi) as [l Hl].
    pose proof (shape_length _ _ _ _ Hshape) as Hlen.
    pose proof (Forall2_length _ _ _ (shape_chains _ _ _ _ Hshape)) as Hlenc.
    destruct (shape_lookup h w chains free i Hshape) as (l0 & Hl0 & Hch);
      [lia|].
    assert (l0 = l) by congruence. subst l0.
    destruct (shape_chain_nodes _ _ _ _ _ _ Hshape Hl)
      as (Hndl & Hsub & Hlfree & Hndf & Hfreel).
    destruct (reset_chain_spec h m0 l fuel (table h !!! i) w free)
      as (w1 & Hrun & Hfree1 & Hpay1 & Hframe1 & Htr1 & Herr1 & Hlibc1).
    { exact (enough_lookup _ _ _ _ Hfuel Hl). }
    { exact Hpay. }
    { exact Hch. }
    { exact (shape_free _ _ _ _ Hshape). }
    { apply NoDup_app. auto. }
    rewrite Hrun.
    set (h1 := set_table (<[i := NULL]> (table h)) h).
    assert (Hshape1 : shape h1 w1 (<[i := []]> chains) (reverse l ++ free)).
    { eapply (shape_update h h1 w w1 chains free _ i l).
      - exact Hshape.
      - exact Hl.
      - reflexivity.
      - apply length_insert.
      - intros j Hj. apply list_lookup_insert_ne. congruence.
      - unfold h1. cbn [table set_table].
        rewrite list_lookup_total_insert_eq by lia. reflexivity.
      - exact Hfree1.
      - cbn [app]. apply NoDup_app. split; [|split; [|exact Hndf]].
        + rewrite reverse_Permutation. exact Hndl.
        + intros a Ha. apply Hlfree. rewrite reverse_Permutation in Ha. exact Ha.
      - intros a Ha Hjoin. cbn [app] in Ha. apply elem_of_app in Ha as [Ha|Ha].
        + rewrite reverse_Permutation in Ha. exact Ha.
        + exfalso. exact (Hfreel a Ha Hjoin).
      - intros a _ Hal. rewrite Hframe1 by exact Hal. reflexivity. }
    destruct (IH (S i) h1 w1 (<[i := []]> chains) (reverse l ++ free))
      as (h' & w' & Hrun' & Hshape' & Hh' & Htr' & Herr' & Hlibc').
    { exact Hshape1. }
    { apply Forall_insert; [exact Hfuel|].
      pose proof (enough_lookup _ _ _ _ Hfuel Hl). simpl. lia. }
    { exact Hpay1. }
    { rewrite length_insert. lia. }
    exists h', w'.
    rewrite drop_insert_lt in Hshape', Htr' by lia.
    rewrite (take_S_r _ i []) in Hshape'
      by (apply list_lookup_insert_eq; exact Hi).
    rewrite take_insert_ge in Hshape' by lia.
    rewrite (drop_S chains l i Hl). csimpl.
    rewrite reverse_app, fmap_app, reset_events_app.
    rewrite <- !app_assoc in *. cbn [app] in Hshape'.
    split; [exact Hrun'|]. split; [exact Hshape'|].
    split; [rewrite Hh' at 1; reflexivity|].
    split; [rewrite Htr', Htr1, <- app_assoc; reflexivity|].
    split; congruence.
Qed.

(** ** The functions on a whole table *)

Lemma hash_find_spec (fuel : nat) (h : hash) (w : world)
    (chains : list (list Z)) (free : list Z) (key : Z) :
  shape h w chains free -> enough fuel chains -> key <> NULL ->
  hash_find fuel (Some h) key w
  = Some (find_spec (cmp_f h) key (view (mem w) chains !!! slot_of h key),
          set_errno 0 w).
Proof.
  intros Hshape Hfuel Hkey.
  pose proof (slot_of_lt h key (shape_size _ _ _ _ Hshape)) as Hslot.
  destruct (shape_lookup _ _ _ _ _ Hshape Hslot) as (l & Hl & Hch).
  unfold hash_find. apply Z.eqb_neq in Hkey. rewrite Hkey.
  cbn [mem set_errno].
  rewrite (find_loop_spec h key (mem w) l fuel _ Hch
             (enough_lookup _ _ _ _ Hfuel Hl)).
  rewrite (view_lookup_total _ _ _ _ Hl). reflexivity.
Qed.

Lemma fmap_mjoin {A B : Type} (f : A -> B) (ls : list (list A)) :
  f <$> mjoin ls = mjoin ((fun l => f <$> l) <$> ls).
Proof.
  induction ls as [|l ls IH]; [reflexivity|].
  csimpl. rewrite fmap_app, IH. reflexivity.
Qed.

Lemma view_mjoin (m : heap) (chains : list (list Z)) :
  mjoin (view m chains) = entry m <$> mjoin chains.
Proof. unfold view. symmetry. apply fmap_mjoin. Qed.

Lemma view_filter (m m' : heap) (P : Z * Z -> Prop)
    `{!forall e, Decision (P e)} (chains : list (list Z)) :
  (forall a, entry m' a = entry m a) ->
  view m' (filter (fun a => P (entry m a)) <$> chains)
  = filter P <$> view m chains.
Proof.
  intros Hpay. unfold view. rewrite <- !list_fmap_compose.
  apply list_fmap_ext. intros i l _. cbn.
  rewrite filter_fmap. apply list_fmap_ext. intros j a _. apply Hpay.
Qed.

(** [hash_delete_if] on a well-formed table. *)
Lemma hash_delete_if_spec (fuel : nat) (h : hash) (w : world)
    (chains : list (list Z)) (free : list Z)
    (arg_f : Z -> Z -> Z -> Z) (arg : Z) :
  shape h w chains free -> enough fuel chains ->
  exists h' w' chains' free',
    hash_delete_if fuel (Some h) (Some arg_f) arg w
      = Some (Z.of_nat (length (filter (doomed arg_f arg)
                                       (mjoin (view (mem w) chains)))),
              Some h', w')
    /\ shape h' w' chains' free'
    /\ view (mem w') chains'
       = filter (fun e => ~ doomed arg_f arg e) <$> view (mem w) chains
    /\ h' = set_table (table h')
              (set_count
                 (count h - Z.of_nat
                    (length (filter (doomed arg_f arg)
                                    (mjoin (view (mem w) chains)))))
                 h)
    /\ trace w' = trace w
         ++ delete_if_events (del_f h) arg_f arg (mjoin (view (mem w) chains))
    /\ errno w' = errno w /\ libc w' = libc w.
Proof.
  intros Hshape Hfuel.
  pose proof (shape_length _ _ _ _ Hshape) as Hlen.
  pose proof (Forall2_length _ _ _ (shape_chains _ _ _ _ Hshape)) as Hlenc.
  destruct (delete_if_buckets_spec fuel arg_f arg (mem w)
              (Z.to_nat (size h)) 0 h w 0 chains free Hshape Hfuel)
    as (h' & w' & Hrun & Hshape' & Hpay' & Hh' & Htr' & Herr' & Hlibc');
    [reflexivity|lia|].
  rewrite drop_0, take_0 in *. cbn [app] in Hshape'.
  rewrite view_mjoin, filter_fmap, length_fmap.
  eexists h', w', _, _. unfold hash_delete_if. rewrite Hrun.
  split; [reflexivity|]. split; [exact Hshape'|].
  split;
    [exact (view_filter (mem w) (mem w') (fun e => ~ doomed arg_f arg e)
              chains Hpay')|].
  auto.
Qed.

Lemma chain_all_nil (m : heap) (t : list Z) (k : nat) :
  Forall2 (chain m) t (replicate k []) -> t = replicate k NULL.
Proof.
  revert t. induction k as [|k IH]; intros t H; cbn in *.
  - inversion H. reflexivity.
  - inversion H as [|p l t' ls Hp Ht]; subst. unfold chain in Hp. simpl in Hp.
    subst p. f_equal. apply IH. exact Ht.
Qed.

(** [hash_reset] on a well-formed table. *)
Lemma hash_reset_spec (fuel : nat) (h : hash) (w : world)
    (chains : list (list Z)) (free : list Z) :
  shape h w chains free -> enough fuel chains ->
  exists h' w',
    hash_reset fuel (Some h) w = Some (Some h', w')
    /\ shape h' w' (replicate (length chains) [])
             (reverse (mjoin chains) ++ free)
    /\ h' = set_table (replicate (length (table h)) NULL) (set_count 0 h)
    /\ trace w' = trace w
         ++ reset_events (del_f h) (mjoin (view (mem w) chains))
    /\ errno w' = errno w /\ libc w' = libc w.
Proof.
  intros Hshape Hfuel.
  pose proof (shape_length _ _ _ _ Hshape) as Hlen.
  pose proof (Forall2_length _ _ _ (shape_chains _ _ _ _ Hshape)) as Hlenc.
  destruct (reset_buckets_spec fuel (mem w) (Z.to_nat (size h)) 0 h w
              chains free Hshape Hfuel)
    as (h' & w' & Hrun & Hshape' & Hh' & Htr' & Herr' & Hlibc');
    [reflexivity|lia|].
  rewrite drop_0, take_0 in *. cbn [app] in Hshape'.
  replace (Z.to_nat (size h)) with (length chains) in Hshape' by lia.
  assert (Hshape0 : shape (set_count 0 h') w' (replicate (length chains) [])
                      (reverse (mjoin chains) ++ free)).
  { destruct Hshape' as [H1 H2 H3 H4 H5]. constructor; assumption. }
  exists (set_count 0 h'), w'. unfold hash_reset. rewrite Hrun.
  split; [reflexivity|]. split; [exact Hshape0|].
  split; [|rewrite view_mjoin; auto].
  pose proof (chain_all_nil _ _ _ (shape_chains _ _ _ _ Hshape')) as Ht.
  rewrite Hh'. rewrite Ht. unfold set_table, set_count. cbn.
  f_equal. f_equal. lia.
Qed.

(** ** hash_create *)

Lemma hash_create_spec (sz : Z) (key_f : Z -> Z) (cmp_f : Z -> Z -> Z)
    (del_f : Z) (w : world) (p1 p2 : Z) (rest : list Z) :
  libc w = p1 :: p2 :: rest -> p1 <> NULL -> p2 <> NULL ->
  exists w',
    hash_create sz (Some key_f) (Some cmp_f) del_f w
      = (Some (mk_hash 0 (if sz <=? 0 then HASH_DEF_SIZE else sz)
                 (replicate (Z.to_nat (if sz <=? 0 then HASH_DEF_SIZE else sz))
                            NULL)
                 cmp_f del_f key_f), w')
    /\ mem w' = mem w /\ hash_free_list w' = hash_free_list w
    /\ errno w' = errno w /\ libc w' = rest
    /\ trace w' = trace w
         ++ [EvMalloc sizeof_hash p1;
             EvCalloc (if sz <=? 0 then HASH_DEF_SIZE else sz) sizeof_ptr p2].
Proof.
  intros Hl Hp1 Hp2. unfold hash_create, malloc, calloc. rewrite Hl.
  apply Z.eqb_neq in Hp1, Hp2. rewrite Hp1. cbn [libc set_libc log].
  rewrite Hp2. eexists. split; [reflexivity|]. cbn.
  rewrite <- app_assoc. auto 10.
Qed.

Lemma mjoin_replicate_nil {A : Type} (k : nat) :
  mjoin (replicate k ([] : list A)) = [].
Proof. induction k as [|k IH]; [reflexivity|exact IH]. Qed.

Lemma shape_empty (h : hash) (w : world) (free : list Z) :
  0 < size h <= INT_MAX ->
  table h = replicate (Z.to_nat (size h)) NULL ->
  chain (mem w) (hash_free_list w) free -> NoDup free ->
  shape h w (replicate (Z.to_nat (size h)) []) free.
Proof.
  intros Hsz Ht Hfree Hnd. constructor; auto.
  - rewrite Ht. apply length_replicate.
  - rewrite Ht. apply Forall2_replicate. reflexivity.
  - rewrite mjoin_replicate_nil. exact Hnd.
Qed.

Lemma structural_inv_empty (h : hash) (m : heap) (k : nat) :
  count h = 0 -> structural_inv h (view m (replicate k [])).
Proof.
  intros Hc. unfold view. rewrite fmap_replicate. cbn [fmap list_fmap].
  assert (Hin : forall c : list (Z * Z), c ∈ replicate k [] -> c = []).
  { intros c Hc'. apply elem_of_replicate in Hc'. tauto. }
  split; [|split].
  - unfold count_inv. rewrite Hc, mjoin_replicate_nil. reflexivity.
  - intros c Hc' i j e1 e2 H1. rewrite (Hin c Hc') in H1. inversion H1.
  - intros c Hc' i j e1 e2 H1. rewrite (Hin c Hc') in H1. inversion H1.
Qed.

(** ** The small table is well formed *)

Lemma cmp_ex_total_order : total_order cmp_ex.
Proof. constructor; unfold cmp_ex; intros; lia. Qed.

Lemma key_ex_respects_cmp : key_f_respects_cmp h_ex.
Proof.
  intros a b H. cbn in H. unfold cmp_ex in H.
  replace b with a by lia. reflexivity.
Qed.

Lemma structural_of_sorted (h : hash) (v : list (list (Z * Z))) :
  total_order (cmp_f h) -> count_inv h v ->
  Forall (sorted_chain (cmp_f h)) v -> structural_inv h v.
Proof.
  intros Hcmp Hc Hs. split; [exact Hc|].
  apply sorted_unique_ascending; assumption.
Qed.

Lemma shape_ex : shape h_ex w_ex chains_ex [].
Proof.
  constructor.
  - cbn. unfold INT_MAX. lia.
  - reflexivity.
  - unfold h_ex, chains_ex. cbn [table].
    constructor; [|constructor; [|constructor; [|constructor; [|constructor]]]];
      vm_compute; repeat split; congruence.
  - reflexivity.
  - cbn. apply (bool_decide_unpack _). vm_compute. exact I.
Qed.

Lemma view_ex : view (mem w_ex) chains_ex = [[]; [(1, 10); (5, 50)]; []; []].
Proof. reflexivity. Qed.

Lemma structural_ex : structural_inv h_ex (view (mem w_ex) chains_ex).
Proof.
  apply structural_of_sorted; [exact cmp_ex_total_order|reflexivity|].
  rewrite view_ex. unfold sorted_chain.
  repeat constructor; cbn; unfold cmp_ex; lia.
Qed.

Lemma table_ok_ex : table_ok h_ex w_ex chains_ex [].
Proof. split; [exact shape_ex|exact structural_ex]. Qed.

Lemma placed_ex : placed h_ex (view (mem w_ex) chains_ex).
Proof.
  rewrite view_ex. intros i c e Hi He.
  destruct i as [|[|[|[|i]]]]; cbn in Hi; try discriminate;
    injection Hi as <-; try (inversion He; fail).
  apply elem_of_cons in He as [->|He];
    [|apply elem_of_cons in He as [->|He]; [|inversion He]];
    vm_compute; repeat split; congruence.
Qed.

Lemma enough_ex : enough 10 chains_ex.
Proof. unfold enough, chains_ex. repeat constructor; cbn; lia. Qed.

Lemma malloc_fresh_ex : malloc_fresh w_ex (mjoin chains_ex).
Proof.
  unfold malloc_fresh. cbn [libc w_ex]. intros _ i Hi.
  unfold node_at, sizeof_ptr, sizeof_node, HASH_NODE_ALLOC_NUM, NULL in *.
  split; [lia|]. cbn. rewrite !not_elem_of_cons.
  repeat split; try lia. apply not_elem_of_nil.
Qed.

(** * The claims *)

(** C10.  When [size <= 0], the callbacks are given and both allocations
    succeed, [hash_create] returns a table whose [size] is the default
    [HASH_DEF_SIZE] = 1213, with 1213 empty slots and the bucket array
    requested from [calloc] with 1213 members. *)
Theorem hash_create_default_size (sz : Z) (key_f : Z -> Z)
    (cmp_f : Z -> Z -> Z) (del_f : Z) (w : world) (p1 p2 : Z)
    (rest : list Z) :
  sz <= 0 ->
  libc w = p1 :: p2 :: rest -> p1 <> NULL -> p2 <> NULL ->
  exists h w',
    hash_create sz (Some key_f) (Some cmp_f) del_f w = (Some h, w')
    /\ size h = 1213 /\ HASH_DEF_SIZE = 1213
    /\ table h = replicate 1213 NULL /\ count h = 0
    /\ trace w' = trace w
         ++ [EvMalloc sizeof_hash p1; EvCalloc 1213 sizeof_ptr p2].
Proof.
  intros Hsz Hl Hp1 Hp2.
  destruct (hash_create_spec sz key_f cmp_f del_f w p1 p2 rest Hl Hp1 Hp2)
    as (w' & Hrun & _ & _ & _ & _ & Htr).
  apply Z.leb_le in Hsz. rewrite Hsz in Hrun, Htr.
  eexists _, w'. split; [exact Hrun|]. cbn [size table count].
  repeat split. exact Htr.
Qed.

Lemma hash_create_default_size_witness :
  exists h w',
    hash_create (-5) (Some key_ex) (Some cmp_ex) NULL w_init = (Some h, w')
    /\ size h = 1213 /\ HASH_DEF_SIZE = 1213
    /\ table h = replicate 1213 NULL /\ count h = 0
    /\ trace w' = trace w_init
         ++ [EvMalloc sizeof_hash 4096; EvCalloc 1213 sizeof_ptr 8192].
Proof.
  apply (hash_create_default_size (-5) key_ex cmp_ex NULL w_init
           4096 8192 [65536]).
  - lia.
  - reflexivity.
  - unfold NULL. lia.
  - unfold NULL. lia.
Defined.

(** C9.  The node allocator.  (1) With a free list that is not empty,
    [hash_node_alloc] returns its head, zeroed, and the free list becomes
    the rest; no memory is requested.  (2) With an empty free list and a
    successful [malloc], one block of one pointer plus
    [HASH_NODE_ALLOC_NUM] = 1024 nodes is requested and
    put at the head of [hash_mem_list]; the first of its 1024 slots is
    returned, zeroed, and the free list is made of the other 1023 slots in
    address order.  (3) [hash_node_alloc] returns [NULL] exactly when the
    free list is empty and [malloc] fails, and then [errno] is [ENOMEM].
    (4) [hash_node_free] puts the node at the head of the free list, so
    that the next [hash_node_alloc] returns that very node and leaves the
    free list as it was before. *)
Theorem node_allocator_contract :
  (forall w, hash_free_list w <> NULL ->
     exists w', hash_node_alloc w = (hash_free_list w, w')
       /\ mem w' (hash_free_list w) = zero_node
       /\ hash_free_list w' = next (mem w (hash_free_list w))
       /\ hash_mem_list w' = hash_mem_list w
       /\ trace w' = trace w /\ libc w' = libc w /\ errno w' = errno w)
  /\ (forall w b rest,
        hash_free_list w = NULL -> libc w = b :: rest -> b <> NULL ->
        (forall i, 0 <= i < HASH_NODE_ALLOC_NUM ->
           node_at (b + sizeof_ptr) i <> NULL) ->
        exists w', hash_node_alloc w = (node_at (b + sizeof_ptr) 0, w')
          /\ mem w' (node_at (b + sizeof_ptr) 0) = zero_node
          /\ chain (mem w') (hash_free_list w')
                   (block_slots b 1 (HASH_NODE_ALLOC_NUM - 1))
          /\ hash_mem_list w' = b /\ blk_next w' b = hash_mem_list w
          /\ trace w' = trace w ++
               [EvMalloc (sizeof_ptr + HASH_NODE_ALLOC_NUM * sizeof_node) b]
          /\ HASH_NODE_ALLOC_NUM = 1024)
  /\ (forall w,
        (forall b rest, libc w = b :: rest -> b <> NULL ->
           b + sizeof_ptr <> NULL) ->
        (fst (hash_node_alloc w) = NULL
         <-> hash_free_list w = NULL /\ malloc_fails w)
        /\ (fst (hash_node_alloc w) = NULL ->
            errno (snd (hash_node_alloc w)) = ENOMEM))
  /\ (forall w node, node <> NULL ->
        hash_free_list (hash_node_free node w) = node
        /\ next (mem (hash_node_free node w) node) = hash_free_list w
        /\ (forall free, node ∉ free ->
              chain (mem w) (hash_free_list w) free ->
              chain (mem (hash_node_free node w))
                    (hash_free_list (hash_node_free node w)) (node :: free))
        /\ fst (hash_node_alloc (hash_node_free node w)) = node
        /\ hash_free_list (snd (hash_node_alloc (hash_node_free node w)))
           = hash_free_list w).
Proof.
  split; [|split; [|split]].
  - intros w Hfl. rewrite (hash_node_alloc_pop w Hfl).
    eexists. split; [reflexivity|]. cbn.
    split; [apply fn_lookup_insert|]. auto 10.
  - intros w b rest Hfl Hl Hb Hnn.
    destruct (hash_node_alloc_refill w b rest Hfl Hl Hb Hnn)
      as (w' & Hrun & Hz & Hch & _ & Hml & Hblk & Htr & _).
    exists w'. rewrite node_at_0. auto 10.
  - intros w Hvalid.
    destruct (decide (hash_free_list w = NULL)) as [Hfl|Hfl].
    + destruct (libc w) as [|b rest] eqn:Hl.
      * destruct (hash_node_alloc_fail w Hfl) as (w' & -> & Herr & _).
        { unfold malloc_fails. rewrite Hl. exact I. }
        cbn. unfold malloc_fails. rewrite Hl. tauto.
      * destruct (decide (b = NULL)) as [Hb|Hb].
        -- destruct (hash_node_alloc_fail w Hfl) as (w' & -> & Herr & _).
           { unfold malloc_fails. rewrite Hl. exact Hb. }
           cbn. unfold malloc_fails. rewrite Hl. tauto.
        -- pose proof (Hvalid b rest eq_refl Hb) as Hb8.
           unfold hash_node_alloc, malloc. rewrite Hfl, Hl.
           change (NULL =? NULL) with true. cbv iota.
           apply Z.eqb_neq in Hb as Hbb. rewrite Hbb.
           cbn [hash_free_list set_hash_free_list set_hash_mem_list
                set_blk_next set_libc log mem set_mem].
           destruct (thread_loop _ _ _ _) as [i m1].
           cbn [hash_free_list set_hash_free_list set_hash_mem_list
                set_blk_next set_libc log mem set_mem].
           apply Z.eqb_neq in Hb8 as Hb8b. rewrite Hb8b. cbn [fst snd].
           unfold malloc_fails. rewrite Hl. split; [|contradiction].
           split; [contradiction|]. intros [_ E]. contradiction.
    + rewrite (hash_node_alloc_pop w Hfl). cbn [fst snd]. split; [|contradiction].
      split; [contradiction|]. intros [E _]. contradiction.
  - intros w node Hn.
    destruct (hash_node_alloc_after_free w node Hn) as (H1 & H2 & _).
    split; [reflexivity|]. split; [apply set_next_next|].
    split; [|auto]. intros free Hnin Hch.
    apply hash_node_free_spec; assumption.
Qed.

Lemma node_allocator_contract_witness :
  exists w', hash_node_alloc w_ex = (node_at (65536 + sizeof_ptr) 0, w')
    /\ mem w' (node_at (65536 + sizeof_ptr) 0) = zero_node
    /\ chain (mem w') (hash_free_list w')
             (block_slots 65536 1 (HASH_NODE_ALLOC_NUM - 1))
    /\ hash_mem_list w' = 65536 /\ blk_next w' 65536 = hash_mem_list w_ex
    /\ trace w' = trace w_ex ++
         [EvMalloc (sizeof_ptr + HASH_NODE_ALLOC_NUM * sizeof_node) 65536]
    /\ HASH_NODE_ALLOC_NUM = 1024.
Proof.
  apply (proj1 (proj2 node_allocator_contract) w_ex 65536 []).
  - reflexivity.
  - reflexivity.
  - unfold NULL. lia.
  - intros i Hi.
    unfold node_at, sizeof_ptr, sizeof_node, HASH_NODE_ALLOC_NUM, NULL in *.
    lia.
Defined.

(** C8.  [hash_reset] on a well-formed table returns the same table in
    the empty state: [count] is 0, [hash_is_empty] answers 1, every slot of
    the bucket array is [NULL] (every chain is empty, all the nodes being
    on the free list), and [size], the length of the bucket array and the
    three callbacks are what they were. *)
Theorem hash_reset_empties (fuel : nat) (h : hash) (w : world)
    (chains : list (list Z)) (free : list Z) :
  shape h w chains free -> enough fuel chains ->
  exists h' w',
    hash_reset fuel (Some h) w = Some (Some h', w')
    /\ count h' = 0
    /\ hash_is_empty (Some h') w' = (1, w')
    /\ table h' = replicate (length (table h)) NULL
    /\ shape h' w' (replicate (length chains) [])
             (reverse (mjoin chains) ++ free)
    /\ size h' = size h /\ length (table h') = length (table h)
    /\ cmp_f h' = cmp_f h /\ del_f h' = del_f h /\ key_f h' = key_f h.
Proof.
  intros Hshape Hfuel.
  destruct (hash_reset_spec fuel h w chains free Hshape Hfuel)
    as (h' & w' & Hrun & Hshape' & Hh' & _).
  exists h', w'. split; [exact Hrun|].
  destruct (hash_fields_eq _ _ _ _ Hh') as (Hc & Hs & Hcf & Hdf & Hkf & Ht).
  split; [exact Hc|]. split; [unfold hash_is_empty; rewrite Hc; reflexivity|].
  split; [exact Ht|]. split; [exact Hshape'|]. split; [exact Hs|].
  split; [rewrite Ht; apply length_replicate|]. auto.
Qed.

Lemma hash_reset_empties_witness :
  exists h' w',
    hash_reset 10 (Some h_ex) w_ex = Some (Some h', w')
    /\ count h' = 0
    /\ hash_is_empty (Some h') w' = (1, w')
    /\ table h' = replicate (length (table h_ex)) NULL
    /\ shape h' w' (replicate (length chains_ex) [])
             (reverse (mjoin chains_ex) ++ [])
    /\ size h' = size h_ex /\ length (table h') = length (table h_ex)
    /\ cmp_f h' = cmp_f h_ex /\ del_f h' = del_f h_ex
    /\ key_f h' = key_f h_ex.
Proof.
  apply (hash_reset_empties 10 h_ex w_ex chains_ex []).
  - exact shape_ex.
  - exact enough_ex.
Defined.

Lemma ahead_subseteq {A : Type} (cv : A -> Z) (l : list A) (a : A) :
  a ∈ ahead cv l -> a ∈ l.
Proof.
  intros H. rewrite <- (passed_ahead cv l). apply elem_of_app. right. exact H.
Qed.

Lemma view_slot_mjoin (h : hash) (w : world) (chains : list (list Z))
    (free : list Z) (key : Z) (e : Z * Z) :
  shape h w chains free ->
  e ∈ view (mem w) chains !!! slot_of h key -> e ∈ mjoin (view (mem w) chains).
Proof.
  intros Hshape He.
  pose proof (slot_of_lt h key (shape_size _ _ _ _ Hshape)) as Hslot.
  destruct (shape_lookup _ _ _ _ _ Hshape Hslot) as (l & Hl & _).
  apply list_elem_of_join. exists (entry (mem w) <$> l).
  rewrite (view_lookup_total _ _ _ _ Hl) in He. split; [exact He|].
  eapply list_elem_of_lookup_2, view_lookup, Hl.
Qed.

(** C7.  [hash_find] and [hash_remove] return [NULL] with [errno] set to
    [EINVAL] when the table or the key is [NULL], and return [NULL] with
    [errno] cleared to 0 when the table holds no entry whose key compares
    equal; [EINVAL] is not 0, so the two outcomes differ in [errno]. *)
Theorem find_remove_dual_channel :
  (forall fuel key w,
     hash_find fuel None key w = Some (NULL, set_errno EINVAL w)
     /\ hash_remove fuel None key w = Some (NULL, None, set_errno EINVAL w))
  /\ (forall fuel h w,
        hash_find fuel (Some h) NULL w = Some (NULL, set_errno EINVAL w)
        /\ hash_remove fuel (Some h) NULL w
           = Some (NULL, Some h, set_errno EINVAL w))
  /\ (forall fuel h w chains free key,
        shape h w chains free -> enough fuel chains -> key <> NULL ->
        (forall e, e ∈ mjoin (view (mem w) chains) -> cmp_f h e.1 key <> 0) ->
        hash_find fuel (Some h) key w = Some (NULL, set_errno 0 w)
        /\ hash_remove fuel (Some h) key w
           = Some (NULL, Some h, set_errno 0 w))
  /\ (forall e w, errno (set_errno e w) = e)
  /\ EINVAL <> 0.
Proof.
  split; [|split; [|split; [|split]]].
  - intros fuel key w. split; reflexivity.
  - intros fuel h w. split; reflexivity.
  - intros fuel h w chains free key Hshape Hfuel Hkey Habsent. split.
    + rewrite (hash_find_spec fuel h w chains free key Hshape Hfuel Hkey).
      destruct (decide (find_spec (cmp_f h) key
                          (view (mem w) chains !!! slot_of h key) = NULL))
        as [->|Hne]; [reflexivity|].
      destruct (find_spec_sound _ _ _ Hne) as (k & Hin & Hk).
      exfalso. apply (Habsent _ (view_slot_mjoin _ _ _ _ _ _ Hshape Hin)).
      exact Hk.
    + destruct (hash_remove_spec fuel h w chains free key Hshape Hfuel Hkey)
        as [(e & t & Hahead & Hk & _)|[_ Hrun]]; [|exact Hrun].
      exfalso. apply (Habsent e); [|exact Hk].
      apply (view_slot_mjoin _ _ _ _ key _ Hshape).
      apply (ahead_subseteq (entry_cv (cmp_f h) key)).
      rewrite Hahead. left.
  - reflexivity.
  - unfold EINVAL. lia.
Qed.

Lemma find_remove_dual_channel_witness :
  hash_find 10 (Some h_ex) 3 w_ex = Some (NULL, set_errno 0 w_ex)
  /\ hash_remove 10 (Some h_ex) 3 w_ex = Some (NULL, Some h_ex, set_errno 0 w_ex).
Proof.
  apply (proj1 (proj2 (proj2 find_remove_dual_channel))
           10%nat h_ex w_ex chains_ex [] 3).
  - exact shape_ex.
  - exact enough_ex.
  - unfold NULL. lia.
  - intros e He. rewrite view_ex in He. cbn in He.
    apply elem_of_cons in He as [->|He];
      [|apply elem_of_cons in He as [->|He]; [|inversion He]];
      cbn; unfold cmp_ex; lia.
Defined.

(** ** hash_insert of a key that is there *)

Lemma hash_insert_dup (fuel : nat) (h : hash) (w : world)
    (chains : list (list Z)) (free : list Z) (key item : Z) (e : Z * Z)
    (t : list (Z * Z)) :
  shape h w chains free -> enough fuel chains ->
  key <> NULL -> item <> NULL ->
  ahead (entry_cv (cmp_f h) key) (view (mem w) chains !!! slot_of h key)
    = e :: t ->
  cmp_f h e.1 key = 0 ->
  hash_insert fuel (Some h) key item w = Some (NULL, Some h, set_errno EEXIST w).
Proof.
  intros Hshape Hfuel Hkey Hitem Hahead Hk.
  pose proof (slot_of_lt h key (shape_size _ _ _ _ Hshape)) as Hslot.
  destruct (shape_lookup _ _ _ _ _ Hshape Hslot) as (l & Hl & Hch).
  rewrite (view_lookup_total _ _ _ _ Hl) in Hahead.
  destruct (node_cv_entry h (mem w) key l) as [_ Ha]. rewrite Ha in Hahead.
  pose proof (walk_spec h key (mem w) l fuel (SlotRef (slot_of h key)) Hch
                (enough_lookup _ _ _ _ Hfuel Hl)) as Hwalk.
  cbv zeta in Hwalk.
  unfold hash_insert. apply Z.eqb_neq in Hkey, Hitem. rewrite Hkey, Hitem.
  cbn [orb]. rewrite Hwalk.
  destruct (ahead (node_cv h (mem w) key) l) as [|p l2]; [discriminate|].
  csimpl in Hahead. injection Hahead as <- _.
  unfold node_cv. cbn [entry fst] in Hk. rewrite Hk. reflexivity.
Qed.

(** C3, as amended.  On a well-formed table whose comparison callback is
    a strict total order and whose chains satisfy the invariants, with a
    key and an item that are both not [NULL]: when the bucket of the key,
    [key_f (key) mod size], holds an entry whose key compares equal to
    [key], [hash_insert] returns [NULL] and its only effect is to set
    [errno] to [EEXIST]: the table object, the node heap, the free list
    and the block list are what they were, and no memory is requested.
    An equal entry anywhere in the table is in that bucket, and so has
    the same effect, when keys that compare equal hash to the same slot
    and every entry is stored in the slot of its key. *)
Theorem hash_insert_existing_key (fuel : nat) (h : hash) (w : world)
    (chains : list (list Z)) (free : list Z) (key item : Z) (e : Z * Z) :
  total_order (cmp_f h) ->
  shape h w chains free ->
  structural_inv h (view (mem w) chains) ->
  enough fuel chains ->
  key <> NULL -> item <> NULL ->
  e ∈ view (mem w) chains !!! Z.to_nat (uint (key_f h key) mod size h)
  \/ (key_f_respects_cmp h /\ placed h (view (mem w) chains)
      /\ e ∈ mjoin (view (mem w) chains)) ->
  cmp_f h e.1 key = 0 ->
  hash_insert fuel (Some h) key item w
    = Some (NULL, Some h, set_errno EEXIST w)
  /\ errno (set_errno EEXIST w) = EEXIST
  /\ mem (set_errno EEXIST w) = mem w
  /\ hash_free_list (set_errno EEXIST w) = hash_free_list w
  /\ hash_mem_list (set_errno EEXIST w) = hash_mem_list w
  /\ libc (set_errno EEXIST w) = libc w
  /\ trace (set_errno EEXIST w) = trace w.
Proof.
  intros Hcmp Hshape Hinv Hfuel Hkey Hitem He Hk.
  split; [|repeat split].
  destruct (slot_of_bucket h key (shape_size _ _ _ _ Hshape)) as [Hb _].
  rewrite <- Hb in He.
  assert (Hin : e ∈ view (mem w) chains !!! slot_of h key).
  { destruct He as [He|(Hresp & Hpl & He)]; [exact He|].
    exact (placed_same_slot h _ key e Hresp Hpl He Hk). }
  pose proof (slot_of_lt h key (shape_size _ _ _ _ Hshape)) as Hslot.
  destruct (shape_lookup _ _ _ _ _ Hshape Hslot) as (l & Hl & _).
  assert (Hs : sorted_chain (cmp_f h) (view (mem w) chains !!! slot_of h key)).
  { pose proof (structural_sorted h _ Hcmp Hinv) as Hs.
    rewrite Forall_forall in Hs. apply Hs.
    rewrite (view_lookup_total _ _ _ _ Hl).
    eapply list_elem_of_lookup_2, view_lookup, Hl. }
  destruct (sorted_key_present (cmp_f h) key _ e Hcmp Hs Hin Hk)
    as (e' & t & Hahead & Hk').
  exact (hash_insert_dup fuel h w chains free key item e' t
           Hshape Hfuel Hkey Hitem Hahead Hk').
Qed.

Lemma hash_insert_existing_key_witness :
  hash_insert 10 (Some h_ex) 5 77 w_ex
    = Some (NULL, Some h_ex, set_errno EEXIST w_ex)
  /\ errno (set_errno EEXIST w_ex) = EEXIST
  /\ mem (set_errno EEXIST w_ex) = mem w_ex
  /\ hash_free_list (set_errno EEXIST w_ex) = hash_free_list w_ex
  /\ hash_mem_list (set_errno EEXIST w_ex) = hash_mem_list w_ex
  /\ libc (set_errno EEXIST w_ex) = libc w_ex
  /\ trace (set_errno EEXIST w_ex) = trace w_ex.
Proof.
  apply (hash_insert_existing_key 10 h_ex w_ex chains_ex [] 5 77 (5, 50)).
  - exact cmp_ex_total_order.
  - exact shape_ex.
  - exact structural_ex.
  - exact enough_ex.
  - unfold NULL. lia.
  - unfold NULL. lia.
  - left. rewrite view_ex. cbn. right. left.
  - reflexivity.
Defined.

(** C3, as stated, fails when the item is [NULL]: the table holds key 5,
    yet [hash_insert] of key 5 with a [NULL] item sets [errno] to [EINVAL],
    not to [EEXIST]. *)
Lemma hash_insert_existing_key_null_item :
  (exists e, e ∈ mjoin (view (mem w_ex) chains_ex) /\ cmp_f h_ex e.1 5 = 0)
  /\ hash_insert 10 (Some h_ex) 5 NULL w_ex
     = Some (NULL, Some h_ex, set_errno EINVAL w_ex)
  /\ errno (set_errno EINVAL w_ex) <> EEXIST.
Proof.
  split; [|split].
  - exists (5, 50). split; [|reflexivity]. rewrite view_ex. cbn. right. left.
  - reflexivity.
  - cbn. unfold EINVAL, EEXIST. lia.
Qed.

Lemma cmp_tens_total_order : total_order cmp_tens.
Proof.
  constructor; unfold cmp_tens.
  - intros a. lia.
  - intros a b. generalize (a / 10), (b / 10). intros x y. lia.
  - intros a b c. generalize (a / 10), (b / 10), (c / 10). intros x y z. lia.
  - intros a b c. generalize (a / 10), (b / 10), (c / 10). intros x y z. lia.
Qed.

(** The bucket matters.  The walk visits the bucket of the key only: with
    a comparison under which keys 5 and 6 are equal and a hash function
    that sends them to different slots, the table holds key 5, yet
    [hash_insert] of key 6 finds slot 2 empty, links a new node there and
    returns the item. *)
Example hash_insert_equal_key_other_bucket :
  total_order (cmp_f h_tens)
  /\ shape h_tens w_ex chains_tens []
  /\ structural_inv h_tens (view (mem w_ex) chains_tens)
  /\ (exists e, e ∈ mjoin (view (mem w_ex) chains_tens)
                /\ cmp_f h_tens e.1 6 = 0)
  /\ ~ key_f_respects_cmp h_tens
  /\ match hash_insert 10 (Some h_tens) 6 60 w_ex with
     | Some (r, Some h', w') =>
         r = 60 /\ count h' = 2 /\ errno w' = errno w_ex
         /\ table h' !! 2%nat = Some 65544
     | _ => False
     end.
Proof.
  split; [exact cmp_tens_total_order|].
  split.
  { constructor.
    - cbn. unfold INT_MAX. lia.
    - reflexivity.
    - unfold h_tens, chains_tens, chain. cbn [table].
      constructor; [reflexivity|].
      constructor; [cbn; repeat split; discriminate|].
      constructor; [reflexivity|]. constructor; [reflexivity|]. constructor.
    - reflexivity.
    - cbn. apply NoDup_singleton. }
  split.
  { apply structural_of_sorted; [exact cmp_tens_total_order|reflexivity|].
    cbn. repeat constructor. }
  split; [exists (5, 50); split; [cbn; left|reflexivity]|].
  split; [intros H; specialize (H 5 6 eq_refl); discriminate H|].
  vm_compute. repeat split.
Qed.


Example hash_find_ex_5 :
  hash_find 10 (Some h_ex) 5 w_ex = Some (50, set_errno 0 w_ex).
Proof. reflexivity. Qed.

Example hash_find_ex_3 :
  hash_find 10 (Some h_ex) 3 w_ex = Some (NULL, set_errno 0 w_ex).
Proof. reflexivity. Qed.

(** ** Preservation of the invariants *)

Lemma table_ok_same_mem (h : hash) (w w' : world) (chains : list (list Z))
    (free : list Z) :
  mem w' = mem w -> hash_free_list w' = hash_free_list w ->
  table_ok h w chains free -> table_ok h w' chains free.
Proof.
  intros Hm Hf [[H1 H2 H3 H4 H5] Hinv]. split.
  - constructor; rewrite ?Hm, ?Hf; assumption.
  - rewrite Hm. exact Hinv.
Qed.

Lemma malloc_mem (bytes : Z) (w : world) :
  mem (malloc bytes w).2 = mem w
  /\ hash_free_list (malloc bytes w).2 = hash_free_list w.
Proof.
  unfold malloc. destruct (libc w) as [|p rest]; [split; reflexivity|].
  destruct (p =? NULL); split; reflexivity.
Qed.

Lemma calloc_mem (nmemb bytes : Z) (w : world) :
  mem (calloc nmemb bytes w).2 = mem w
  /\ hash_free_list (calloc nmemb bytes w).2 = hash_free_list w.
Proof.
  unfold calloc. destruct (libc w) as [|p rest]; [split; reflexivity|].
  destruct (p =? NULL); split; reflexivity.
Qed.

Lemma hash_create_inv (sz : Z) (key_f : option (Z -> Z))
    (cmp_f : option (Z -> Z -> Z)) (del_f : Z) (w w' : world) (h : hash)
    (free : list Z) :
  sz <= INT_MAX ->
  chain (mem w) (hash_free_list w) free -> NoDup free ->
  hash_create sz key_f cmp_f del_f w = (Some h, w') ->
  table_ok h w' (replicate (Z.to_nat (size h)) []) free.
Proof.
  intros Hsz Hfree Hnd Hrun. unfold hash_create in Hrun.
  destruct cmp_f as [cmp|]; [|discriminate].
  destruct key_f as [keyf|]; [|discriminate].
  pose proof (malloc_mem sizeof_hash w) as [Hm1 Hf1].
  destruct (malloc sizeof_hash w) as [hp w1]. cbn [snd] in *.
  destruct (hp =? NULL); [discriminate|].
  set (n := if sz <=? 0 then HASH_DEF_SIZE else sz) in *.
  pose proof (calloc_mem n sizeof_ptr w1) as [Hm2 Hf2].
  destruct (calloc n sizeof_ptr w1) as [tp w2]. cbn [snd] in *.
  destruct (tp =? NULL); [discriminate|].
  injection Hrun as <- <-. cbn [size].
  assert (Hn : 0 < n <= INT_MAX).
  { unfold n. destruct (Z.leb_spec sz 0); unfold HASH_DEF_SIZE, INT_MAX in *; lia. }
  split.
  - apply shape_empty; cbn [size table]; auto.
    rewrite Hm2, Hm1, Hf2, Hf1. exact Hfree.
  - apply structural_inv_empty. reflexivity.
Qed.

Lemma insert_spec_length (cmp : Z -> Z -> Z) (key item : Z)
    (c : list (Z * Z)) :
  length (insert_spec cmp key item c) = S (length c).
Proof.
  unfold insert_spec. rewrite <- (passed_ahead (entry_cv cmp key) c) at 3.
  rewrite !length_app. cbn. lia.
Qed.

Lemma remove_spec_length (cmp : Z -> Z -> Z) (key : Z) (c : list (Z * Z))
    (e : Z * Z) (t : list (Z * Z)) :
  ahead (entry_cv cmp key) c = e :: t ->
  S (length (remove_spec cmp key c)) = length c.
Proof.
  intros Ha. unfold remove_spec.
  rewrite <- (passed_ahead (entry_cv cmp key) c) at 3.
  rewrite Ha, !length_app. cbn. lia.
Qed.

Lemma slot_chain_sorted (h : hash) (w : world) (chains : list (list Z))
    (free : list Z) (key : Z) :
  total_order (cmp_f h) -> table_ok h w chains free ->
  view (mem w) chains !! slot_of h key
    = Some (view (mem w) chains !!! slot_of h key)
  /\ sorted_chain (cmp_f h) (view (mem w) chains !!! slot_of h key).
Proof.
  intros Hcmp [Hshape Hinv].
  pose proof (slot_of_lt h key (shape_size _ _ _ _ Hshape)) as Hslot.
  destruct (shape_lookup _ _ _ _ _ Hshape Hslot) as (l & Hl & _).
  rewrite (view_lookup_total _ _ _ _ Hl).
  split; [apply view_lookup, Hl|].
  pose proof (structural_sorted h _ Hcmp Hinv) as Hs.
  rewrite Forall_forall in Hs. apply Hs.
  eapply list_elem_of_lookup_2, view_lookup, Hl.
Qed.

Lemma hash_insert_preserves (fuel : nat) (h : hash) (w : world)
    (chains : list (list Z)) (free : list Z) (key item : Z) :
  total_order (cmp_f h) -> table_ok h w chains free -> enough fuel chains ->
  malloc_fresh w (mjoin chains) -> count h < INT_MAX ->
  exists r h' w',
    hash_insert fuel (Some h) key item w = Some (r, Some h', w')
    /\ hash_inv h' w'.
Proof.
  intros Hcmp Hok Hfuel Hfresh Hcount.
  destruct (decide (key = NULL)) as [->|Hkey].
  { exists NULL, h, (set_errno EINVAL w). split; [reflexivity|].
    exists chains, free. eapply table_ok_same_mem; [| |exact Hok]; reflexivity. }
  destruct (decide (item = NULL)) as [->|Hitem].
  { exists NULL, h, (set_errno EINVAL w). split.
    - unfold hash_insert. rewrite orb_true_r. reflexivity.
    - exists chains, free. eapply table_ok_same_mem; [| |exact Hok]; reflexivity. }
  destruct (slot_chain_sorted h w chains free key Hcmp Hok) as [Hlook Hsorted].
  destruct Hok as [Hshape Hinv].
  destruct (hash_insert_spec fuel h w chains free key item
              Hshape Hfuel Hkey Hitem Hfresh Hcount)
    as [(e & t & _ & _ & Hrun)
       |(Hgt & [(w' & Hrun & _ & Hm & Hf & _)
               |(h' & w' & p & free' & Hrun & Hshape' & Hview & Hh' & _)])].
  - exists NULL, h, (set_errno EEXIST w). split; [exact Hrun|].
    exists chains, free.
    eapply table_ok_same_mem; [| |split; eassumption]; reflexivity.
  - exists NULL, h, w'. split; [exact Hrun|].
    exists chains, free.
    eapply table_ok_same_mem; [exact Hm|exact Hf|split; assumption].
  - exists item, h', w'. split; [exact Hrun|].
    eexists _, free'. split; [exact Hshape'|]. rewrite Hview.
    destruct (hash_fields_eq _ _ _ _ Hh') as (Hc & _ & Hcf & _).
    eapply (structural_update h h'); try eassumption.
    + apply sorted_chain_insert; assumption.
    + rewrite insert_spec_length. lia.
Qed.

Lemma hash_remove_preserves (fuel : nat) (h : hash) (w : world)
    (chains : list (list Z)) (free : list Z) (key : Z) :
  total_order (cmp_f h) -> table_ok h w chains free -> enough fuel chains ->
  exists r h' w',
    hash_remove fuel (Some h) key w = Some (r, Some h', w')
    /\ hash_inv h' w'.
Proof.
  intros Hcmp Hok Hfuel.
  destruct (decide (key = NULL)) as [->|Hkey].
  { exists NULL, h, (set_errno EINVAL w). split; [reflexivity|].
    exists chains, free. eapply table_ok_same_mem; [| |exact Hok]; reflexivity. }
  destruct (slot_chain_sorted h w chains free key Hcmp Hok) as [Hlook Hsorted].
  destruct Hok as [Hshape Hinv].
  destruct (hash_remove_spec fuel h w chains free key Hshape Hfuel Hkey)
    as [(e & t & Hahead & _ & h' & w' & p & Hrun & Hshape' & Hview & Hh' & _)
       |[_ Hrun]].
  - exists e.2, h', w'. split; [exact Hrun|].
    eexists _, (p :: free). split; [exact Hshape'|]. rewrite Hview.
    destruct (hash_fields_eq _ _ _ _ Hh') as (Hc & _ & Hcf & _).
    eapply (structural_update h h'); try eassumption.
    + apply sorted_chain_remove; assumption.
    + pose proof (remove_spec_length _ _ _ _ _ Hahead). lia.
  - exists NULL, h, (set_errno 0 w). split; [exact Hrun|].
    exists chains, free.
    eapply table_ok_same_mem; [| |split; eassumption]; reflexivity.
Qed.

Lemma mjoin_filter {A : Type} (P : A -> Prop) `{!forall a, Decision (P a)}
    (ls : list (list A)) :
  mjoin (filter P <$> ls) = filter P (mjoin ls).
Proof.
  induction ls as [|l ls IH]; [reflexivity|].
  csimpl. rewrite filter_app, IH. reflexivity.
Qed.

Lemma length_filter_complement {A : Type} (P : A -> Prop)
    `{!forall a, Decision (P a)} (l : list A) :
  (length (filter P l) + length (filter (fun a => ~ P a) l) = length l)%nat.
Proof.
  rewrite <- length_app. apply Permutation_length, filter_app_complement.
Qed.

Lemma hash_delete_if_preserves (fuel : nat) (h : hash) (w : world)
    (chains : list (list Z)) (free : list Z)
    (arg_f : option (Z -> Z -> Z -> Z)) (arg : Z) :
  total_order (cmp_f h) -> table_ok h w chains free -> enough fuel chains ->
  exists n h' w',
    hash_delete_if fuel (Some h) arg_f arg w = Some (n, Some h', w')
    /\ hash_inv h' w'.
Proof.
  intros Hcmp Hok Hfuel. destruct arg_f as [arg_f|].
  2: { exists (-1), h, (set_errno EINVAL w). split; [reflexivity|].
       exists chains, free.
       eapply table_ok_same_mem; [| |exact Hok]; reflexivity. }
  destruct Hok as [Hshape Hinv].
  destruct (hash_delete_if_spec fuel h w chains free arg_f arg Hshape Hfuel)
    as (h' & w' & chains' & free' & Hrun & Hshape' & Hview & Hh' & _).
  eexists _, h', w'. split; [exact Hrun|].
  exists chains', free'. split; [exact Hshape'|]. rewrite Hview.
  destruct (hash_fields_eq _ _ _ _ Hh') as (Hc & _ & Hcf & _).
  apply structural_of_sorted.
  - rewrite Hcf. exact Hcmp.
  - unfold count_inv. rewrite Hc, mjoin_filter.
    destruct Hinv as (Hcnt & _). unfold count_inv in Hcnt. rewrite Hcnt.
    pose proof (length_filter_complement (doomed arg_f arg)
                  (mjoin (view (mem w) chains))). lia.
  - rewrite Hcf. apply Forall_fmap.
    eapply Forall_impl; [exact (structural_sorted h _ Hcmp Hinv)|].
    intros c Hs. cbn. apply sorted_chain_filter. exact Hs.
Qed.

Lemma hash_reset_preserves (fuel : nat) (h : hash) (w : world)
    (chains : list (list Z)) (free : list Z) :
  table_ok h w chains free -> enough fuel chains ->
  exists h' w',
    hash_reset fuel (Some h) w = Some (Some h', w') /\ hash_inv h' w'.
Proof.
  intros [Hshape _] Hfuel.
  destruct (hash_reset_spec fuel h w chains free Hshape Hfuel)
    as (h' & w' & Hrun & Hshape' & Hh' & _).
  exists h', w'. split; [exact Hrun|].
  eexists _, _. split; [exact Hshape'|].
  apply structural_inv_empty. rewrite Hh'. reflexivity.
Qed.

(** C4.  The three structural invariants (the chain lengths add up to
    [count], no two entries of a chain compare equal, every chain is in
    ascending order) hold, together with the well-formedness of the linked
    structure, of the table that [hash_create] returns, and, when the
    comparison callback is a strict total order, of the table after
    [hash_insert], [hash_remove], [hash_delete_if] and [hash_reset], each
    of which returns on a table that satisfies them. *)
Theorem structural_invariants_preserved :
  (forall sz key_f cmp_f del_f w w' h free,
     sz <= INT_MAX ->
     chain (mem w) (hash_free_list w) free -> NoDup free ->
     hash_create sz key_f cmp_f del_f w = (Some h, w') ->
     hash_inv h w')
  /\ (forall fuel h w chains free key item,
        total_order (cmp_f h) -> table_ok h w chains free ->
        enough fuel chains ->
        malloc_fresh w (mjoin chains) -> count h < INT_MAX ->
        exists r h' w',
          hash_insert fuel (Some h) key item w = Some (r, Some h', w')
          /\ hash_inv h' w')
  /\ (forall fuel h w chains free key,
        total_order (cmp_f h) -> table_ok h w chains free ->
        enough fuel chains ->
        exists r h' w',
          hash_remove fuel (Some h) key w = Some (r, Some h', w')
          /\ hash_inv h' w')
  /\ (forall fuel h w chains free arg_f arg,
        total_order (cmp_f h) -> table_ok h w chains free ->
        enough fuel chains ->
        exists n h' w',
          hash_delete_if fuel (Some h) arg_f arg w = Some (n, Some h', w')
          /\ hash_inv h' w')
  /\ (forall fuel h w chains free,
        total_order (cmp_f h) -> table_ok h w chains free ->
        enough fuel chains ->
        exists h' w',
          hash_reset fuel (Some h) w = Some (Some h', w') /\ hash_inv h' w').
Proof.
  split; [|split; [|split; [|split]]].
  - intros sz key_f cmp_f del_f w w' h free Hsz Hfree Hnd Hrun.
    eexists _, free. eapply hash_create_inv; eassumption.
  - intros fuel h w chains fr key item ? ? ? ? ?.
    apply (hash_insert_preserves fuel h w chains fr); assumption.
  - intros fuel h w chains fr key ? ? ?.
    apply (hash_remove_preserves fuel h w chains fr); assumption.
  - intros fuel h w chains fr arg_f arg ? ? ?.
    apply (hash_delete_if_preserves fuel h w chains fr); assumption.
  - intros fuel h w chains fr ? ? ?.
    apply (hash_reset_preserves fuel h w chains fr); assumption.
Qed.

Lemma structural_invariants_preserved_witness :
  exists r h' w',
    hash_insert 10 (Some h_ex) 3 30 w_ex = Some (r, Some h', w')
    /\ hash_inv h' w'.
Proof.
  apply (proj1 (proj2 structural_invariants_preserved)
           10%nat h_ex w_ex chains_ex [] 3 30).
  - exact cmp_ex_total_order.
  - exact table_ok_ex.
  - exact enough_ex.
  - exact malloc_fresh_ex.
  - cbn. unfold INT_MAX. lia.
Defined.

(** ** The calls that hash_delete_if makes *)

Lemma omap_del_events_arg (del item : Z) :
  omap arg_call (del_events del item) = [].
Proof. unfold del_events. destruct (del =? NULL); reflexivity. Qed.

Lemma delete_if_events_arg_calls (del : Z) (arg_f : Z -> Z -> Z -> Z)
    (arg : Z) (c : list (Z * Z)) :
  omap arg_call (delete_if_events del arg_f arg c) = c.
Proof.
  unfold delete_if_events. induction c as [|[k d] c IH]; [reflexivity|].
  rewrite bind_cons, omap_app, IH. cbn [omap list_omap arg_call fst snd].
  destruct (decide (doomed arg_f arg (k, d))); cbn [fst snd].
  - fold (omap arg_call (del_events del d)).
    rewrite omap_del_events_arg. reflexivity.
  - reflexivity.
Qed.

Lemma delete_if_events_del_calls (del : Z) (arg_f : Z -> Z -> Z -> Z)
    (arg : Z) (c : list (Z * Z)) :
  omap del_call (delete_if_events del arg_f arg c)
  = if del =? NULL then [] else snd <$> filter (doomed arg_f arg) c.
Proof.
  unfold delete_if_events. induction c as [|[k d] c IH].
  - destruct (del =? NULL); reflexivity.
  - rewrite bind_cons, omap_app, IH, filter_cons.
    cbn [omap list_omap del_call fst snd].
    fold (omap del_call
            (if decide (doomed arg_f arg (k, d)) then del_events del d else [])).
    unfold del_events.
    destruct (decide (doomed arg_f arg (k, d))); destruct (del =? NULL);
      reflexivity.
Qed.

(** C5.  On a well-formed table and with a predicate, [hash_delete_if]
    calls the predicate on every entry, once, in slot order and chain
    order within a slot, with the arguments (item, key, arg); the entries
    on which it returns greater-than-zero, and only they, leave the table,
    the deletion callback being called on the item of each of them when
    there is one; the return value is the number of entries removed and
    [count] is lowered by it.  When the predicate returns
    greater-than-zero on every entry, the table ends up empty and the
    return value is the previous [count]. *)
Theorem hash_delete_if_removes_doomed (fuel : nat) (h : hash) (w : world)
    (chains : list (list Z)) (free : list Z)
    (arg_f : Z -> Z -> Z -> Z) (arg : Z) :
  shape h w chains free -> enough fuel chains ->
  let v := view (mem w) chains in
  let n := Z.of_nat (length (filter (doomed arg_f arg) (mjoin v))) in
  exists h' w' chains' free',
    hash_delete_if fuel (Some h) (Some arg_f) arg w = Some (n, Some h', w')
    /\ shape h' w' chains' free'
    /\ view (mem w') chains' = filter (fun e => ~ doomed arg_f arg e) <$> v
    /\ count h' = count h - n
    /\ trace w' = trace w ++ delete_if_events (del_f h) arg_f arg (mjoin v)
    /\ omap arg_call (delete_if_events (del_f h) arg_f arg (mjoin v))
       = mjoin v
    /\ omap del_call (delete_if_events (del_f h) arg_f arg (mjoin v))
       = (if del_f h =? NULL then []
          else snd <$> filter (doomed arg_f arg) (mjoin v))
    /\ ((forall e, e ∈ mjoin v -> doomed arg_f arg e) ->
        count_inv h v ->
        n = count h /\ mjoin (view (mem w') chains') = [] /\ count h' = 0).
Proof.
  intros Hshape Hfuel v n.
  destruct (hash_delete_if_spec fuel h w chains free arg_f arg Hshape Hfuel)
    as (h' & w' & chains' & free' & Hrun & Hshape' & Hview & Hh' & Htr & _).
  fold v in Hrun, Hview, Hh', Htr. fold n in Hrun, Hh'.
  destruct (hash_fields_eq _ _ _ _ Hh') as (Hc & _).
  exists h', w', chains', free'.
  split; [exact Hrun|]. split; [exact Hshape'|]. split; [exact Hview|].
  split; [exact Hc|]. split; [exact Htr|].
  split; [apply delete_if_events_arg_calls|].
  split; [apply delete_if_events_del_calls|].
  intros Hall Hcnt. unfold count_inv in Hcnt.
  assert (Hf : filter (doomed arg_f arg) (mjoin v) = mjoin v).
  { clear -Hall. induction (mjoin v) as [|e l IH]; [reflexivity|].
    rewrite filter_cons_True by (apply Hall; left).
    f_equal. apply IH. intros x Hx. apply Hall. right. exact Hx. }
  assert (Hn : n = count h) by (unfold n; rewrite Hf; lia).
  split; [exact Hn|]. split; [|lia].
  rewrite Hview, mjoin_filter.
  clear -Hall. induction (mjoin v) as [|e l IH]; [reflexivity|].
  rewrite filter_cons_False by (intros Hne; apply Hne, Hall; left).
  apply IH. intros x Hx. apply Hall. right. exact Hx.
Qed.

Lemma hash_delete_if_removes_doomed_witness :
  let arg_f := fun item key arg : Z => item - arg in
  let v := view (mem w_ex) chains_ex in
  let n := Z.of_nat (length (filter (doomed arg_f 20) (mjoin v))) in
  exists h' w' chains' free',
    hash_delete_if 10 (Some h_ex) (Some arg_f) 20 w_ex = Some (n, Some h', w')
    /\ shape h' w' chains' free'
    /\ view (mem w') chains' = filter (fun e => ~ doomed arg_f 20 e) <$> v
    /\ count h' = count h_ex - n
    /\ trace w' = trace w_ex
         ++ delete_if_events (del_f h_ex) arg_f 20 (mjoin v)
    /\ omap arg_call (delete_if_events (del_f h_ex) arg_f 20 (mjoin v))
       = mjoin v
    /\ omap del_call (delete_if_events (del_f h_ex) arg_f 20 (mjoin v))
       = (if del_f h_ex =? NULL then []
          else snd <$> filter (doomed arg_f 20) (mjoin v))
    /\ ((forall e, e ∈ mjoin v -> doomed arg_f 20 e) ->
        count_inv h_ex v ->
        n = count h_ex /\ mjoin (view (mem w') chains') = [] /\ count h' = 0).
Proof.
  apply (hash_delete_if_removes_doomed 10 h_ex w_ex chains_ex []).
  - exact shape_ex.
  - exact enough_ex.
Defined.

Example hash_delete_if_ex :
  match hash_delete_if 10 (Some h_ex) (Some (fun item key arg => item - arg))
          20 w_ex with
  | Some (n, Some h', w') =>
      n = 1 /\ count h' = 1 /\ table h' = [NULL; 104; NULL; NULL]
      /\ next (mem w' 104) = NULL /\ hash_free_list w' = 128
      /\ trace w' = [EvArg 10 1 20; EvArg 50 5 20; EvDel 4242 50]
  | _ => False
  end.
Proof. vm_compute. repeat split. Qed.

(** ** Insertion followed by search and removal *)

Lemma passed_ahead_cons {A : Type} (cv : A -> Z) (l1 l2 : list A) (x : A) :
  Forall (fun a => cv a < 0) l1 -> 0 <= cv x ->
  passed cv (l1 ++ x :: l2) = l1 /\ ahead cv (l1 ++ x :: l2) = x :: l2.
Proof.
  intros Hall Hx. induction l1 as [|a l1 IH]; cbn [app passed ahead].
  - apply Z.ltb_ge in Hx. rewrite Hx. split; reflexivity.
  - apply Forall_cons in Hall as [Ha Hall]. apply Z.ltb_lt in Ha. rewrite Ha.
    destruct (IH Hall) as [-> ->]. split; reflexivity.
Qed.

Lemma insert_spec_split (cmp : Z -> Z -> Z) (key item : Z) (c : list (Z * Z)) :
  cmp key key = 0 ->
  ahead (entry_cv cmp key) (insert_spec cmp key item c)
    = (key, item) :: ahead (entry_cv cmp key) c
  /\ remove_spec cmp key (insert_spec cmp key item c) = c.
Proof.
  intros Hrefl. unfold remove_spec, insert_spec.
  destruct (passed_ahead_cons (entry_cv cmp key)
              (passed (entry_cv cmp key) c) (ahead (entry_cv cmp key) c)
              (key, item)) as [Hp Ha].
  - apply Forall_passed.
  - unfold entry_cv. cbn. lia.
  - rewrite Hp, Ha. split; [reflexivity|]. apply passed_ahead.
Qed.

Lemma find_spec_absent (cmp : Z -> Z -> Z) (key : Z) (c : list (Z * Z)) :
  (forall e t, ahead (entry_cv cmp key) c = e :: t -> 0 < cmp e.1 key) ->
  find_spec cmp key c = NULL.
Proof.
  intros Hgt. rewrite find_spec_ahead.
  destruct (ahead (entry_cv cmp key) c) as [|[k d] t]; [reflexivity|].
  pose proof (Hgt (k, d) t eq_refl) as H. cbn in H.
  destruct (Z.eqb_spec (cmp k key) 0); [lia|reflexivity].
Qed.

(** C6.  On a table whose comparison callback is a strict total order,
    with a key that is not in the table and a node to be had: [hash_insert]
    of the key with an item returns the item; [hash_find] of the key then
    returns that item; [hash_remove] of the key then returns that item; and
    [hash_find] of the key after that returns [NULL] with [errno] 0. *)
Theorem insert_find_remove_find (fuel : nat) (h : hash) (w : world)
    (chains : list (list Z)) (free : list Z) (key item : Z) :
  total_order (cmp_f h) ->
  table_ok h w chains free ->
  Forall (fun l => (S (length l) < fuel)%nat) chains ->
  malloc_fresh w (mjoin chains) -> count h < INT_MAX ->
  key <> NULL -> item <> NULL ->
  (forall e, e ∈ mjoin (view (mem w) chains) -> cmp_f h e.1 key <> 0) ->
  free <> [] \/ ~ malloc_fails w ->
  exists h1 w1 h2 w2,
    hash_insert fuel (Some h) key item w = Some (item, Some h1, w1)
    /\ hash_find fuel (Some h1) key w1 = Some (item, set_errno 0 w1)
    /\ hash_remove fuel (Some h1) key w1 = Some (item, Some h2, w2)
    /\ hash_find fuel (Some h2) key w2 = Some (NULL, set_errno 0 w2)
    /\ errno (set_errno 0 w2) = 0.
Proof.
  intros Hcmp [Hshape Hinv] Hfuel1 Hfresh Hcount Hkey Hitem Habsent Hmemory.
  assert (Hfuel : enough fuel chains).
  { eapply Forall_impl; [exact Hfuel1|]. cbn. intros l Hl. lia. }
  pose proof (slot_of_lt h key (shape_size _ _ _ _ Hshape)) as Hslot.
  destruct (shape_lookup _ _ _ _ _ Hshape Hslot) as (l & Hl & _).
  pose proof (list_lookup_total_correct _ _ _ Hl) as Hlt.
  pose proof (view_lookup_total (mem w) _ _ _ Hl) as Hvt.
  pose proof (view_lookup (mem w) _ _ _ Hl) as Hv.
  pose proof (lookup_lt_Some _ _ _ Hv) as Hiv.
  destruct (hash_insert_spec fuel h w chains free key item
              Hshape Hfuel Hkey Hitem Hfresh Hcount)
    as [(e & t & Hahead & Hk & _)
       |(Hgt & [(w' & _ & _ & _ & _ & Hfails & Hnil)
               |(h1 & w1 & p & free1 & Hrun & Hshape1 & Hview1 & Hh1 & _)])].
  { exfalso. apply (Habsent e); [|exact Hk].
    apply (view_slot_mjoin _ _ _ _ key _ Hshape).
    apply (ahead_subseteq (entry_cv (cmp_f h) key)). rewrite Hahead. left. }
  { exfalso. destruct Hmemory as [Hne|Hne]; [exact (Hne Hnil)|exact (Hne Hfails)]. }
  rewrite Hlt, Hvt in *.
  set (c := entry (mem w) <$> l) in *.
  set (i := slot_of h key) in *.
  set (chains1 := <[i := passed (node_cv h (mem w) key) l
                          ++ p :: ahead (node_cv h (mem w) key) l]> chains) in *.
  destruct (hash_fields_eq _ _ _ _ Hh1) as (Hc1 & Hs1 & Hcf1 & Hdf1 & Hkf1 & _).
  assert (Hi1 : slot_of h1 key = i) by (unfold slot_of; rewrite Hs1, Hkf1; reflexivity).
  destruct (insert_spec_split (cmp_f h) key item c (cmp_refl _ Hcmp key))
    as [Hahead1 Hrem1].
  assert (Hfuelc1 : enough fuel chains1).
  { apply Forall_insert; [exact Hfuel|].
    pose proof (Forall_lookup_1 _ _ _ _ Hfuel1 Hl) as Hlen. cbn in Hlen.
    rewrite <- (passed_ahead (node_cv h (mem w) key) l) in Hlen.
    rewrite length_app in *. cbn. lia. }
  assert (Hv1 : view (mem w1) chains1 !!! slot_of h1 key
                = insert_spec (cmp_f h) key item c).
  { rewrite Hview1, Hi1. apply list_lookup_total_insert_eq. exact Hiv. }
  assert (Hfind1 : hash_find fuel (Some h1) key w1 = Some (item, set_errno 0 w1)).
  { rewrite (hash_find_spec fuel h1 w1 chains1 free1 key Hshape1 Hfuelc1 Hkey).
    rewrite Hv1, Hcf1, find_spec_ahead, Hahead1. cbn [fst].
    rewrite (cmp_refl _ Hcmp key). reflexivity. }
  destruct (hash_remove_spec fuel h1 w1 chains1 free1 key Hshape1 Hfuelc1 Hkey)
    as [(e & t & Hahead2 & _ & h2 & w2 & p2 & Hrun2 & Hshape2 & Hview2 & Hh2 & _)
       |[Hgt2 _]].
  2: { exfalso. rewrite Hv1, Hcf1 in Hgt2.
       pose proof (Hgt2 _ _ Hahead1) as Hlt0. cbn in Hlt0.
       rewrite (cmp_refl _ Hcmp key) in Hlt0. lia. }
  rewrite Hv1, Hcf1, Hahead1 in Hahead2. injection Hahead2 as <- <-.
  cbn [snd] in Hrun2.
  exists h1, w1, h2, w2.
  split; [exact Hrun|]. split; [exact Hfind1|]. split; [exact Hrun2|].
  split; [|reflexivity].
  destruct (hash_fields_eq _ _ _ _ Hh2) as (Hc2 & Hs2 & Hcf2 & Hdf2 & Hkf2 & _).
  assert (Hi2 : slot_of h2 key = i) by (unfold slot_of; rewrite Hs2, Hkf2; exact Hi1).
  rewrite Hi1 in *.
  set (l' := chains1 !!! i) in *.
  assert (Hl' : l' = passed (node_cv h (mem w) key) l
                     ++ p :: ahead (node_cv h (mem w) key) l).
  { unfold l', chains1. apply list_lookup_total_insert_eq.
    exact (lookup_lt_Some _ _ _ Hl). }
  rewrite (hash_find_spec fuel h2 w2 _ _ key Hshape2); [| |exact Hkey].
  - rewrite Hview2, Hi2, Hv1, Hcf1, Hrem1, Hview1.
    rewrite list_insert_insert_eq, list_lookup_total_insert_eq by exact Hiv.
    rewrite Hcf2, Hcf1, (find_spec_absent _ _ _ Hgt). reflexivity.
  - apply Forall_insert; [exact Hfuelc1|].
    pose proof (Forall_lookup_1 _ _ _ _ Hfuel1 Hl) as Hlen. cbn in Hlen.
    pose proof (passed_ahead (node_cv h1 (mem w1) key) l') as Hpa.
    apply (f_equal length) in Hpa. rewrite length_app in Hpa.
    assert (Hll : length l' = S (length l)).
    { rewrite Hl'. rewrite <- (passed_ahead (node_cv h (mem w) key) l) at 3.
      rewrite !length_app. cbn. lia. }
    rewrite length_app.
    destruct (ahead (node_cv h1 (mem w1) key) l') as [|x t'];
      cbn [tail length] in *; lia.
Qed.

Lemma insert_find_remove_find_witness :
  exists h1 w1 h2 w2,
    hash_insert 10 (Some h_ex) 9 90 w_ex = Some (90, Some h1, w1)
    /\ hash_find 10 (Some h1) 9 w1 = Some (90, set_errno 0 w1)
    /\ hash_remove 10 (Some h1) 9 w1 = Some (90, Some h2, w2)
    /\ hash_find 10 (Some h2) 9 w2 = Some (NULL, set_errno 0 w2)
    /\ errno (set_errno 0 w2) = 0.
Proof.
  apply (insert_find_remove_find 10 h_ex w_ex chains_ex [] 9 90).
  - exact cmp_ex_total_order.
  - exact table_ok_ex.
  - unfold chains_ex. repeat constructor; cbn; lia.
  - exact malloc_fresh_ex.
  - cbn. unfold INT_MAX. lia.
  - unfold NULL. lia.
  - unfold NULL. lia.
  - intros e He. rewrite view_ex in He. cbn in He.
    apply elem_of_cons in He as [->|He];
      [|apply elem_of_cons in He as [->|He]; [|inversion He]];
      cbn; unfold cmp_ex; lia.
  - right. unfold malloc_fails, NULL. cbn. lia.
Defined.

(** The same run, evaluated: key 9 goes to the end of the chain of slot
    1, in the first slot of the new block. *)
Example insert_find_remove_ex :
  match hash_insert 10 (Some h_ex) 9 90 w_ex with
  | Some (r, Some h1, w1) =>
      r = 90 /\ count h1 = 3 /\ next (mem w1 128) = 65544
      /\ mem w1 65544 = mk_node NULL 90 9
      /\ hash_free_list w1 = 65568 /\ hash_mem_list w1 = 65536
      /\ option_map fst (hash_find 10 (Some h1) 9 w1) = Some 90
      /\ match hash_remove 10 (Some h1) 9 w1 with
         | Some (r2, Some h2, w2) =>
             r2 = 90 /\ count h2 = 2 /\ next (mem w2 128) = NULL
             /\ hash_free_list w2 = 65544
             /\ option_map fst (hash_find 10 (Some h2) 9 w2) = Some NULL
         | _ => False
         end
  | _ => False
  end.
Proof. vm_compute. repeat split. Qed.

(** ** The placement of entries is kept as well *)

Lemma placed_same_mem (h : hash) (w w' : world) (chains : list (list Z)) :
  mem w' = mem w -> placed h (view (mem w) chains) ->
  placed h (view (mem w') chains).
Proof. intros ->. auto. Qed.

Lemma hash_insert_keeps_placed (fuel : nat) (h h' : hash) (w w' : world)
    (chains : list (list Z)) (free : list Z) (key item r : Z) :
  shape h w chains free -> enough fuel chains ->
  malloc_fresh w (mjoin chains) -> count h < INT_MAX ->
  placed h (view (mem w) chains) ->
  hash_insert fuel (Some h) key item w = Some (r, Some h', w') ->
  exists chains' free',
    shape h' w' chains' free' /\ placed h' (view (mem w') chains').
Proof.
  intros Hshape Hfuel Hfresh Hcount Hpl Hrun.
  assert (Hsame : forall e, hash_insert fuel (Some h) key item w
                            = Some (NULL, Some h, set_errno e w) ->
            exists chains' free',
              shape h' w' chains' free' /\ placed h' (view (mem w') chains')).
  { intros e E. rewrite E in Hrun. injection Hrun as _ <- <-.
    exists chains, free. split; [apply shape_set_errno, Hshape|exact Hpl]. }
  destruct (decide (key = NULL)) as [->|Hkey]; [apply (Hsame EINVAL); reflexivity|].
  destruct (decide (item = NULL)) as [->|Hitem].
  { apply (Hsame EINVAL). unfold hash_insert. rewrite orb_true_r. reflexivity. }
  pose proof (slot_of_lt h key (shape_size _ _ _ _ Hshape)) as Hslot.
  destruct (shape_lookup _ _ _ _ _ Hshape Hslot) as (l & Hl & _).
  destruct (hash_insert_spec fuel h w chains free key item
              Hshape Hfuel Hkey Hitem Hfresh Hcount)
    as [(e & t & _ & _ & E)
       |(Hgt & [(w1 & E & _ & Hm & Hf & _)
               |(h1 & w1 & p & free1 & E & Hshape1 & Hview1 & Hh1 & _)])].
  - apply (Hsame EEXIST), E.
  - rewrite E in Hrun. injection Hrun as _ <- <-. exists chains, free.
    split; [|apply (placed_same_mem h w); assumption].
    destruct Hshape as [H1 H2 H3 H4 H5].
    constructor; rewrite ?Hm, ?Hf; assumption.
  - rewrite E in Hrun. injection Hrun as _ <- <-.
    eexists _, free1. split; [exact Hshape1|]. rewrite Hview1.
    destruct (hash_fields_eq _ _ _ _ Hh1) as (_ & Hs1 & _ & _ & Hkf1 & _).
    apply (placed_update h); [|exact Hpl|].
    + intros k. unfold slot_of. rewrite Hs1, Hkf1. reflexivity.
    + intros e He. unfold insert_spec in He.
      assert (Hc : forall x, x ∈ view (mem w) chains !!! slot_of h key ->
                     slot_of h x.1 = slot_of h key /\ x.1 <> NULL /\ x.2 <> NULL).
      { intros x Hx. apply (Hpl _ _ x (view_lookup _ _ _ _ Hl)).
        rewrite (view_lookup_total _ _ _ _ Hl) in Hx. exact Hx. }
      apply elem_of_app in He as [He|He].
      * apply Hc. rewrite <- (passed_ahead (entry_cv (cmp_f h) key)).
        apply elem_of_app. left. exact He.
      * apply elem_of_cons in He as [->|He]; [cbn; auto|].
        apply Hc, (ahead_subseteq (entry_cv (cmp_f h) key)), He.
Qed.

Lemma hash_remove_keeps_placed (fuel : nat) (h h' : hash) (w w' : world)
    (chains : list (list Z)) (free : list Z) (key r : Z) :
  shape h w chains free -> enough fuel chains ->
  placed h (view (mem w) chains) ->
  hash_remove fuel (Some h) key w = Some (r, Some h', w') ->
  exists chains' free',
    shape h' w' chains' free' /\ placed h' (view (mem w') chains').
Proof.
  intros Hshape Hfuel Hpl Hrun.
  destruct (decide (key = NULL)) as [->|Hkey].
  { cbn in Hrun. injection Hrun as _ <- <-. exists chains, free.
    split; [apply shape_set_errno, Hshape|exact Hpl]. }
  pose proof (slot_of_lt h key (shape_size _ _ _ _ Hshape)) as Hslot.
  destruct (shape_lookup _ _ _ _ _ Hshape Hslot) as (l & Hl & _).
  destruct (hash_remove_spec fuel h w chains free key Hshape Hfuel Hkey)
    as [(e & t & Hahead & _ & h1 & w1 & p & E & Hshape1 & Hview1 & Hh1 & _)
       |[_ E]].
  - rewrite E in Hrun. injection Hrun as _ <- <-.
    eexists _, (p :: free). split; [exact Hshape1|]. rewrite Hview1.
    destruct (hash_fields_eq _ _ _ _ Hh1) as (_ & Hs1 & _ & _ & Hkf1 & _).
    apply (placed_update h); [|exact Hpl|].
    + intros k. unfold slot_of. rewrite Hs1, Hkf1. reflexivity.
    + intros x Hx. unfold remove_spec in Hx.
      apply (Hpl _ _ x (view_lookup _ _ _ _ Hl)).
      rewrite (view_lookup_total _ _ _ _ Hl) in Hx, Hahead.
      rewrite <- (passed_ahead (entry_cv (cmp_f h) key)).
      rewrite Hahead in *. cbn [tail] in Hx.
      apply elem_of_app in Hx as [Hx|Hx]; apply elem_of_app;
        [left; exact Hx|right; right; exact Hx].
  - rewrite E in Hrun. injection Hrun as _ <- <-. exists chains, free.
    split; [apply shape_set_errno, Hshape|exact Hpl].
Qed.

(** ** A run from hash_create on *)

(** A table of the default size is created, keys 7 and 1220 (both of slot
    7) are inserted in descending order and end up in ascending order in
    the chain; inserting 7 again is refused with [EEXIST]. *)
Example create_insert_find_ex :
  match hash_create 0 (Some key_ex) (Some cmp_ex) NULL w_init with
  | (Some h0, w0) =>
      size h0 = 1213 /\ count h0 = 0
      /\ match hash_insert 10 (Some h0) 1220 12200 w0 with
         | Some (r1, Some h1, w1) =>
             r1 = 12200
             /\ match hash_insert 10 (Some h1) 7 70 w1 with
                | Some (r2, Some h2, w2) =>
                    r2 = 70 /\ count h2 = 2
                    /\ table h2 !! 7%nat = Some 65568
                    /\ mem w2 65568 = mk_node 65544 70 7
                    /\ mem w2 65544 = mk_node NULL 12200 1220
                    /\ option_map fst (hash_find 10 (Some h2) 1220 w2)
                       = Some 12200
                    /\ match hash_insert 10 (Some h2) 7 71 w2 with
                       | Some (r3, Some h3, w3) =>
                           r3 = NULL /\ errno w3 = EEXIST /\ count h3 = 2
                       | _ => False
                       end
                | _ => False
                end
         | _ => False
         end
  | _ => False
  end.
Proof. vm_compute. repeat split. Qed.

(** * Further properties *)

(** ** hash_key_string: only the last seven bytes count *)

Lemma fold32_uint (bs : list Z) (hval : Z) :
  fold_left (fun hval b => uint (hval * 32 + b)) bs (uint hval)
  = uint (fold32_exact bs hval).
Proof.
  revert hval. induction bs as [|b bs IH]; intros hval; [reflexivity|].
  cbn [fold_left]. unfold fold32_exact. cbn [fold_left].
  rewrite <- IH. f_equal. unfold uint, UINT_MODULUS.
  rewrite <- Zplus_mod_idemp_l, Zmult_mod_idemp_l, Zplus_mod_idemp_l.
  reflexivity.
Qed.

Lemma fold32_exact_shift (bs : list Z) (hval : Z) :
  fold32_exact bs hval
  = hval * 32 ^ Z.of_nat (length bs) + fold32_exact bs 0.
Proof.
  revert hval. induction bs as [|b bs IH]; intros hval.
  - cbn. lia.
  - unfold fold32_exact in *. cbn [fold_left length].
    rewrite (IH (hval * 32 + b)), (IH (0 * 32 + b)).
    rewrite Nat2Z.inj_succ, Z.pow_succ_r by lia. lia.
Qed.

Lemma c_bytes_app (s t : string) :
  nul_free s = true -> c_bytes (s ++ t) = c_bytes s ++ c_bytes t.
Proof.
  induction s as [|c s IH]; [reflexivity|]. cbn [nul_free c_bytes String.append].
  intros [Hc Hs]%andb_prop. apply negb_true_iff in Hc. rewrite Hc.
  rewrite IH by exact Hs. reflexivity.
Qed.

Lemma c_bytes_length (s : string) :
  nul_free s = true -> length (c_bytes s) = String.length s.
Proof.
  induction s as [|c s IH]; [reflexivity|]. cbn [nul_free c_bytes String.length].
  intros [Hc Hs]%andb_prop. apply negb_true_iff in Hc. rewrite Hc.
  cbn [length]. rewrite IH by exact Hs. reflexivity.
Qed.

(** X1.  The hash of a string depends on its last seven bytes only: in
    [unsigned int] arithmetic each further byte multiplies what came
    before by 32, and 32^7 is a multiple of 2^32.  So a string [t] of at
    least seven bytes hashes to the same value whatever is put in front
    of it. *)
Theorem hash_key_string_last_seven (s t : string) :
  nul_free s = true -> nul_free t = true -> (7 <= String.length t)%nat ->
  hash_key_string (s ++ t) = hash_key_string t.
Proof.
  intros Hs Ht Hlen. rewrite !hash_key_string_fold32. unfold fold32.
  rewrite c_bytes_app by exact Hs. rewrite fold_left_app.
  change 0 with (uint 0) at 2.
  rewrite fold32_uint. change (uint 0) with 0.
  set (a := fold32_exact (c_bytes s) 0).
  assert (Ha : fold_left (fun hval b => uint (hval * 32 + b)) (c_bytes s) 0
               = uint a).
  { change 0 with (uint 0) at 1. apply fold32_uint. }
  rewrite Ha, fold32_uint, fold32_exact_shift.
  rewrite c_bytes_length by exact Ht.
  replace (Z.of_nat (String.length t))
    with (7 + (Z.of_nat (String.length t) - 7)) by lia.
  rewrite Z.pow_add_r by lia.
  unfold uint, UINT_MODULUS.
  replace (a * (32 ^ 7 * 32 ^ (Z.of_nat (String.length t) - 7)))
    with ((a * 8 * 32 ^ (Z.of_nat (String.length t) - 7)) * 4294967296) by lia.
  rewrite Z.add_comm, Z_mod_plus_full. reflexivity.
Qed.

Lemma hash_key_string_last_seven_witness :
  hash_key_string ("munge" ++ "1234567") = hash_key_string "1234567".
Proof. apply hash_key_string_last_seven; [reflexivity|reflexivity|cbn; lia]. Defined.

(** ** hash_for_each *)

Lemma logged_nil (w : world) : logged [] w = w.
Proof. destruct w. unfold logged. cbn. rewrite app_nil_r. reflexivity. Qed.

Lemma logged_log (e : event) (evs : list event) (w : world) :
  logged evs (log e w) = logged (e :: evs) w.
Proof. unfold logged, log. cbn. rewrite <- app_assoc. reflexivity. Qed.

Lemma logged_logged (evs1 evs2 : list event) (w : world) :
  logged evs2 (logged evs1 w) = logged (evs1 ++ evs2) w.
Proof. unfold logged. cbn. rewrite <- app_assoc. reflexivity. Qed.

Lemma for_each_chain_spec (arg_f : Z -> Z -> Z -> Z) (arg : Z) (l : list Z) :
  forall (fuel : nat) (p : Z) (w : world) (n : Z),
  chain (mem w) p l -> (length l < fuel)%nat ->
  for_each_chain fuel arg_f arg p w n
  = Some (logged (for_each_events arg (entry (mem w) <$> l)) w,
          n + Z.of_nat (length (filter (doomed arg_f arg)
                                       (entry (mem w) <$> l)))).
Proof.
  induction l as [|a l IH]; intros fuel p w n Hch Hfuel.
  - destruct fuel as [|fuel]; [cbn in Hfuel; lia|].
    unfold chain in Hch. cbn in Hch. subst p. cbn.
    rewrite logged_nil. do 2 f_equal. lia.
  - destruct fuel as [|fuel]; [cbn in Hfuel; lia|].
    apply chain_cons in Hch. destruct Hch as (-> & Ha & Hch).
    cbn [for_each_chain]. apply Z.eqb_neq in Ha. rewrite Ha.
    rewrite (IH fuel _ (log _ w)); [|exact Hch|cbn in Hfuel; lia].
    rewrite logged_log. cbn [mem log fmap list_fmap].
    unfold for_each_events. rewrite fmap_cons. cbn [entry fst snd].
    do 2 f_equal. rewrite filter_cons.
    destruct (Z.gtb_spec (arg_f (data (mem w a)) (hkey (mem w a)) arg) 0) as [Hg|Hg].
    + rewrite decide_True by (unfold doomed; cbn; lia). cbn [length]. lia.
    + rewrite decide_False by (unfold doomed; cbn; lia). reflexivity.
Qed.

Lemma for_each_buckets_spec (fuel : nat) (arg_f : Z -> Z -> Z -> Z) (arg : Z)
    (h : hash) (chains : list (list Z)) :
  forall (k i : nat) (w : world) (n : Z),
  Forall2 (chain (mem w)) (table h) chains -> enough fuel chains ->
  (i + k = length chains)%nat ->
  for_each_buckets fuel arg_f arg k i h w n
  = Some (logged (for_each_events arg (entry (mem w) <$> mjoin (drop i chains))) w,
          n + Z.of_nat (length (filter (doomed arg_f arg)
                                       (entry (mem w) <$> mjoin (drop i chains))))).
Proof.
  induction k as [|k IH]; intros i w n Hch Hen Hik.
  - rewrite drop_ge by lia. cbn. rewrite logged_nil. do 2 f_equal. lia.
  - assert (Hi : (i < length chains)%nat) by lia.
    destruct (lookup_lt_is_Some_2 chains i Hi) as [l Hl].
    destruct (Forall2_lookup_r _ _ _ _ _ Hch Hl) as (p & Hp & Hpl).
    cbn [for_each_buckets].
    rewrite (list_lookup_total_correct _ _ _ Hp).
    rewrite (for_each_chain_spec arg_f arg l fuel p w n Hpl
               (enough_lookup _ _ _ _ Hen Hl)).
    rewrite (IH (S i)); [|exact Hch|exact Hen|lia].
    rewrite logged_logged. cbn [mem logged].
    rewrite (drop_S _ _ _ Hl). cbn [mjoin list_join]. change (foldr app [] ?x) with (mjoin x).
    rewrite fmap_app, filter_app, length_app.
    unfold for_each_events. rewrite fmap_app, Nat2Z.inj_add, Z.add_assoc.
    reflexivity.
Qed.

Lemma hash_for_each_spec (fuel : nat) (h : hash) (w : world)
    (chains : list (list Z)) (free : list Z)
    (arg_f : Z -> Z -> Z -> Z) (arg : Z) :
  shape h w chains free -> enough fuel chains ->
  hash_for_each fuel (Some h) (Some arg_f) arg w
  = Some (Z.of_nat (length (filter (doomed arg_f arg)
                                   (mjoin (view (mem w) chains)))),
          logged (for_each_events arg (mjoin (view (mem w) chains))) w).
Proof.
  intros Hs Hen. unfold hash_for_each.
  pose proof (Forall2_length _ _ _ (shape_chains _ _ _ _ Hs)) as Hlen.
  rewrite (shape_length _ _ _ _ Hs) in Hlen.
  rewrite (for_each_buckets_spec fuel arg_f arg h chains _ 0%nat w 0
             (shape_chains _ _ _ _ Hs) Hen) by lia.
  rewrite drop_0, view_mjoin. reflexivity.
Qed.

(** X2.  [hash_for_each] calls the callback exactly once on every entry of
    the table, slot by slot and each chain in link order, returns the
    number of entries on which the callback returned greater-than-zero,
    and changes nothing: the table object is not touched and the world
    differs by the logged calls only. *)
Theorem hash_for_each_visits_all (fuel : nat) (h : hash) (w : world)
    (chains : list (list Z)) (free : list Z)
    (arg_f : Z -> Z -> Z -> Z) (arg : Z) :
  shape h w chains free -> enough fuel chains ->
  let v := mjoin (view (mem w) chains) in
  hash_for_each fuel (Some h) (Some arg_f) arg w
  = Some (Z.of_nat (length (filter (doomed arg_f arg) v)),
          logged (for_each_events arg v) w)
  /\ omap arg_call (for_each_events arg v) = v.
Proof.
  intros Hs Hen v. split.
  - apply (hash_for_each_spec fuel h w chains free arg_f arg Hs Hen).
  - unfold for_each_events. generalize v. intros c.
    induction c as [|[k d] c IH]; [reflexivity|].
    cbn. rewrite IH. reflexivity.
Qed.

Lemma hash_for_each_visits_all_witness :
  let v := mjoin (view (mem w_ex) chains_ex) in
  hash_for_each 10 (Some h_ex) (Some (fun item key arg : Z => item - arg)) 20 w_ex
  = Some (Z.of_nat (length (filter (doomed (fun item key arg : Z => item - arg) 20) v)),
          logged (for_each_events 20 v) w_ex)
  /\ omap arg_call (for_each_events 20 v) = v.
Proof.
  exact (hash_for_each_visits_all 10 h_ex w_ex chains_ex []
           (fun item key arg : Z => item - arg) 20 shape_ex enough_ex).
Defined.

Lemma enough_view (fuel : nat) (m : heap) (chains : list (list Z)) :
  enough fuel chains
  <-> Forall (fun c : list (Z * Z) => (length c < fuel)%nat) (view m chains).
Proof.
  unfold enough, view. rewrite Forall_fmap. apply Forall_proper; [|reflexivity].
  intros l. cbn. rewrite length_fmap. reflexivity.
Qed.

(** X3.  [hash_for_each] and [hash_delete_if] agree on a predicate: the
    number the first returns is the number of entries the second then
    deletes, and a second [hash_for_each] after the deletion returns
    zero. *)
Theorem for_each_delete_if_for_each (fuel : nat) (h : hash) (w : world)
    (chains : list (list Z)) (free : list Z)
    (arg_f : Z -> Z -> Z -> Z) (arg : Z) :
  shape h w chains free -> enough fuel chains ->
  exists n w1 h2 w2 w3,
    hash_for_each fuel (Some h) (Some arg_f) arg w = Some (n, w1)
    /\ hash_delete_if fuel (Some h) (Some arg_f) arg w1 = Some (n, Some h2, w2)
    /\ count h2 = count h - n
    /\ hash_for_each fuel (Some h2) (Some arg_f) arg w2 = Some (0, w3).
Proof.
  intros Hs Hen.
  pose proof (hash_for_each_spec fuel h w chains free arg_f arg Hs Hen) as Hfe.
  set (w1 := logged (for_each_events arg (mjoin (view (mem w) chains))) w) in *.
  assert (Hs1 : shape h w1 chains free).
  { destruct Hs as [H1 H2 H3 H4 H5]. constructor; assumption. }
  destruct (hash_delete_if_spec fuel h w1 chains free arg_f arg Hs1 Hen)
    as (h2 & w2 & chains2 & free2 & Hdel & Hs2 & Hv2 & Hh2 & _).
  change (mem w1) with (mem w) in *.
  assert (Hen2 : enough fuel chains2).
  { apply (enough_view fuel (mem w2)). rewrite Hv2. rewrite Forall_fmap.
    apply (enough_view fuel (mem w)) in Hen.
    eapply Forall_impl; [exact Hen|]. intros c Hc. cbn.
    eapply Nat.le_lt_trans; [apply length_filter|exact Hc]. }
  pose proof (hash_for_each_spec fuel h2 w2 chains2 free2 arg_f arg Hs2 Hen2)
    as Hfe2.
  eexists _, w1, h2, w2, _. split; [exact Hfe|]. split; [exact Hdel|].
  split; [apply hash_fields_eq in Hh2; apply Hh2|].
  rewrite Hfe2. do 2 f_equal.
  rewrite Hv2, mjoin_filter.
  rewrite (elem_of_nil_inv (filter (doomed arg_f arg) _)); [reflexivity|].
  intros e [Hd [Hn _]%list_elem_of_filter]%list_elem_of_filter. exact (Hn Hd).
Qed.

Lemma for_each_delete_if_for_each_witness :
  exists n w1 h2 w2 w3,
    hash_for_each 10 (Some h_ex) (Some (fun item key arg : Z => item - arg)) 20 w_ex
      = Some (n, w1)
    /\ hash_delete_if 10 (Some h_ex) (Some (fun item key arg : Z => item - arg)) 20 w1
       = Some (n, Some h2, w2)
    /\ count h2 = count h_ex - n
    /\ hash_for_each 10 (Some h2) (Some (fun item key arg : Z => item - arg)) 20 w2
       = Some (0, w3).
Proof.
  exact (for_each_delete_if_for_each 10 h_ex w_ex chains_ex []
           (fun item key arg : Z => item - arg) 20 shape_ex enough_ex).
Defined.

(** ** hash_drop_memory and the raw blocks *)

Lemma drop_loop_spec (bl : list Z) :
  forall (fuel : nat) (w : world),
  blist (blk_next w) (hash_mem_list w) bl -> (length bl < fuel)%nat ->
  drop_loop fuel w
  = Some (set_hash_mem_list NULL (logged (EvFree <$> bl) w)).
Proof.
  induction bl as [|b bl IH]; intros fuel w Hbl Hfuel.
  - destruct fuel as [|fuel]; [cbn in Hfuel; lia|].
    cbn in Hbl. cbn [drop_loop]. rewrite Hbl. change (NULL =? NULL) with true.
    cbv iota. rewrite fmap_nil, logged_nil. destruct w. cbn in *. subst.
    reflexivity.
  - destruct fuel as [|fuel]; [cbn in Hfuel; lia|].
    destruct Hbl as (Hb & Hnn & Hbl). cbn [drop_loop].
    rewrite Hb. apply Z.eqb_neq in Hnn. rewrite Hnn. cbv zeta.
    rewrite (IH fuel); [|exact Hbl|cbn in Hfuel; lia].
    unfold free. rewrite logged_log. reflexivity.
Qed.

Lemma blist_inj (bn : Z -> Z) (p : Z) (bl bl' : list Z) :
  blist bn p bl -> blist bn p bl' -> bl = bl'.
Proof.
  revert p bl'. induction bl as [|b bl IH]; intros p [|b' bl'] H H'.
  - reflexivity.
  - cbn in H. destruct H' as (Hp & Hb & _). congruence.
  - cbn in H'. destruct H as (Hp & Hb & _). congruence.
  - destruct H as (Hp & _ & H). destruct H' as (Hp' & _ & H').
    assert (Hbb : b' = b) by congruence. rewrite Hbb in *.
    f_equal. exact (IH _ _ H H').
Qed.

Lemma blist_app (bn : Z -> Z) (p b : Z) (l1 l2 : list Z) :
  blist bn p (l1 ++ b :: l2) -> blist bn (bn b) l2.
Proof.
  revert p. induction l1 as [|a l1 IH]; intros p H.
  - destruct H as (_ & _ & H). exact H.
  - destruct H as (_ & _ & H). exact (IH _ H).
Qed.

(** A list of blocks that ends in [NULL] holds no block twice. *)
Lemma blist_NoDup (bn : Z -> Z) (p : Z) (bl : list Z) :
  blist bn p bl -> NoDup bl.
Proof.
  revert p. induction bl as [|b bl IH]; intros p H; [constructor|].
  destruct H as (_ & _ & H). apply NoDup_cons. split; [|exact (IH _ H)].
  intros Hin. apply list_elem_of_split in Hin. destruct Hin as (l1 & l2 & ->).
  pose proof (blist_app bn _ b l1 l2 H) as H2.
  pose proof (blist_inj bn _ _ _ H H2) as Heq.
  apply (f_equal length) in Heq. rewrite length_app in Heq. cbn in Heq. lia.
Qed.

(** X4.  [hash_drop_memory] passes every raw block of the allocator to
    [free], newest block first and no block twice, and leaves both static
    lists [NULL]; it calls nothing else and leaves [errno] alone. *)
Theorem hash_drop_memory_frees_all (fuel : nat) (w : world) (bl : list Z) :
  blist (blk_next w) (hash_mem_list w) bl -> (length bl < fuel)%nat ->
  exists w',
    hash_drop_memory fuel w = Some w'
    /\ trace w' = trace w ++ (EvFree <$> bl)
    /\ NoDup bl
    /\ hash_mem_list w' = NULL /\ hash_free_list w' = NULL
    /\ errno w' = errno w /\ libc w' = libc w.
Proof.
  intros Hbl Hfuel. unfold hash_drop_memory.
  rewrite (drop_loop_spec bl fuel w Hbl Hfuel).
  eexists. split; [reflexivity|].
  split; [reflexivity|]. split; [exact (blist_NoDup _ _ _ Hbl)|].
  cbn. auto.
Qed.

Lemma hash_drop_memory_frees_all_witness :
  exists w',
    hash_drop_memory 5
      (mk_world mem_ex (<[4096 := 8192]> (fun _ => NULL)) 4096 4120 0 [] [])
    = Some w'
    /\ trace w' = [] ++ (EvFree <$> [4096; 8192])
    /\ NoDup [4096; 8192]
    /\ hash_mem_list w' = NULL /\ hash_free_list w' = NULL
    /\ errno w' = 0 /\ libc w' = [].
Proof.
  refine (hash_drop_memory_frees_all 5
            (mk_world mem_ex (<[4096 := 8192]> (fun _ => NULL)) 4096 4120 0 [] [])
            [4096; 8192] _ _).
  - cbn. repeat split; discriminate.
  - cbn. lia.
Defined.

Lemma blist_frame (bn bn' : Z -> Z) (bl : list Z) (p : Z) :
  (forall a, a ∈ bl -> bn' a = bn a) -> blist bn p bl -> blist bn' p bl.
Proof.
  revert p. induction bl as [|b bl IH]; intros p Hfr Hbl; [exact Hbl|].
  destruct Hbl as (Hp & Hb & Hbl). split; [exact Hp|]. split; [exact Hb|].
  rewrite Hfr by apply list_elem_of_here. apply IH; [|exact Hbl].
  intros a Ha. apply Hfr. apply list_elem_of_further, Ha.
Qed.

(** What a refill does to the list of raw blocks. *)
Lemma hash_node_alloc_refill_blocks (w : world) (b : Z) (rest : list Z) :
  hash_free_list w = NULL -> libc w = b :: rest -> b <> NULL ->
  blk_next (hash_node_alloc w).2 = <[b := hash_mem_list w]> (blk_next w)
  /\ hash_mem_list (hash_node_alloc w).2 = b.
Proof.
  intros Hfl Hl Hb. unfold hash_node_alloc, malloc.
  rewrite Hfl, Hl. cbn [Z.eqb NULL].
  apply Z.eqb_neq in Hb. rewrite Hb.
  cbn [hash_free_list set_hash_free_list set_hash_mem_list set_blk_next
       set_libc log mem set_mem hash_mem_list blk_next].
  destruct (thread_loop (Z.to_nat (HASH_NODE_ALLOC_NUM - 1)) (b + sizeof_ptr) 0
              (mem w)) as [i m1].
  cbn [hash_free_list set_hash_free_list set_hash_mem_list set_blk_next
       set_libc log mem set_mem hash_mem_list blk_next].
  destruct (b + sizeof_ptr =? NULL); split; reflexivity.
Qed.

Lemma blist_refill (w : world) (b : Z) (rest bl : list Z) :
  hash_free_list w = NULL -> libc w = b :: rest -> b <> NULL -> b ∉ bl ->
  blist (blk_next w) (hash_mem_list w) bl ->
  blist (blk_next (hash_node_alloc w).2) (hash_mem_list (hash_node_alloc w).2)
        (b :: bl).
Proof.
  intros Hfl Hl Hb Hnew Hbl.
  destruct (hash_node_alloc_refill_blocks w b rest Hfl Hl Hb) as [-> ->].
  split; [reflexivity|]. split; [exact Hb|].
  rewrite fn_lookup_insert. apply (blist_frame (blk_next w)); [|exact Hbl].
  intros a Ha. apply fn_lookup_insert_ne. intros ->. exact (Hnew Ha).
Qed.

(** Allocations served from the free list [fl], until it is empty. *)
Lemma alloc_n_pops (fl : list Z) :
  forall w : world,
  chain (mem w) (hash_free_list w) fl -> NoDup fl ->
  exists w',
    alloc_n (length fl) w = (fl, w')
    /\ hash_free_list w' = NULL
    /\ trace w' = trace w /\ libc w' = libc w /\ errno w' = errno w
    /\ blk_next w' = blk_next w /\ hash_mem_list w' = hash_mem_list w.
Proof.
  induction fl as [|a fl IH]; intros w Hch Hnd.
  - exists w. unfold chain in Hch. cbn in Hch. cbn. auto 10.
  - apply chain_cons in Hch. destruct Hch as (Ha & Hnn & Hch).
    apply NoDup_cons in Hnd. destruct Hnd as [Hafl Hnd].
    cbn [alloc_n length].
    rewrite hash_node_alloc_pop by (rewrite Ha; exact Hnn).
    rewrite Ha.
    set (w1 := set_mem _ _).
    destruct (IH w1) as (w' & Hn & Hfl' & Htr & Hlc & Her & Hbn & Hml).
    + unfold w1. cbn [mem set_mem hash_free_list set_hash_free_list].
      unfold chain. apply (lseg_frame_eq (mem w)); [|exact Hch].
      intros c Hc. apply fn_lookup_insert_ne. intros ->. exact (Hafl Hc).
    + exact Hnd.
    + exists w'. rewrite Hn. split; [reflexivity|]. auto 10.
Qed.

(** X5.  One block serves [HASH_NODE_ALLOC_NUM] allocations.  With the
    free list empty, the first of 1024 calls of [hash_node_alloc] calls
    [malloc] once; the 1024 calls return the node slots of the new block
    in address order and none of them calls [malloc] again; afterwards
    the free list is empty once more, and the new block is at the head of
    the list of raw blocks. *)
Theorem hash_node_alloc_batch (w : world) (b : Z) (rest bl : list Z) :
  hash_free_list w = NULL -> libc w = b :: rest -> b <> NULL ->
  (forall i, 0 <= i < HASH_NODE_ALLOC_NUM ->
     node_at (b + sizeof_ptr) i <> NULL) ->
  blist (blk_next w) (hash_mem_list w) bl -> b ∉ bl ->
  exists w',
    alloc_n (Z.to_nat HASH_NODE_ALLOC_NUM) w
      = (block_slots b 0 HASH_NODE_ALLOC_NUM, w')
    /\ hash_free_list w' = NULL
    /\ trace w' = trace w
         ++ [EvMalloc (sizeof_ptr + HASH_NODE_ALLOC_NUM * sizeof_node) b]
    /\ libc w' = rest
    /\ blist (blk_next w') (hash_mem_list w') (b :: bl).
Proof.
  intros Hfl Hl Hb Hnn Hbl Hnew.
  pose proof (blist_refill w b rest bl Hfl Hl Hb Hnew Hbl) as Hbl1.
  destruct (hash_node_alloc_refill w b rest Hfl Hl Hb Hnn)
    as (w1 & Hw1 & _ & Hch & _ & _ & _ & Htr & Hlc & _).
  rewrite Hw1 in Hbl1. cbn [snd] in Hbl1.
  destruct (alloc_n_pops (block_slots b 1 (HASH_NODE_ALLOC_NUM - 1)) w1 Hch
              (NoDup_block_slots _ _ _))
    as (w' & Hn & Hfl' & Htr' & Hlc' & _ & Hbn & Hml).
  assert (Hlen : Z.to_nat HASH_NODE_ALLOC_NUM
                 = S (length (block_slots b 1 (HASH_NODE_ALLOC_NUM - 1)))).
  { unfold block_slots. rewrite length_fmap, length_seqZ.
    unfold HASH_NODE_ALLOC_NUM. lia. }
  rewrite Hlen. cbn [alloc_n]. rewrite Hw1, Hn.
  exists w'. rewrite block_slots_cons.
  split; [reflexivity|]. split; [exact Hfl'|].
  split; [congruence|]. split; [congruence|].
  rewrite Hbn, Hml. exact Hbl1.
Qed.

Lemma hash_node_alloc_batch_witness :
  exists w',
    alloc_n (Z.to_nat HASH_NODE_ALLOC_NUM) w_ex
      = (block_slots 65536 0 HASH_NODE_ALLOC_NUM, w')
    /\ hash_free_list w' = NULL
    /\ trace w' = trace w_ex
         ++ [EvMalloc (sizeof_ptr + HASH_NODE_ALLOC_NUM * sizeof_node) 65536]
    /\ libc w' = []
    /\ blist (blk_next w') (hash_mem_list w') [65536].
Proof.
  apply (hash_node_alloc_batch w_ex 65536 [] []).
  - reflexivity.
  - reflexivity.
  - discriminate.
  - intros i Hi. unfold node_at, sizeof_ptr, sizeof_node, NULL. lia.
  - reflexivity.
  - apply not_elem_of_nil.
Defined.

(** X6.  No raw block is lost: a block that [hash_node_alloc] obtained
    from [malloc] is on the list that [hash_drop_memory] walks, so a
    later [hash_drop_memory] passes it to [free], before the older
    blocks, and leaves both static lists [NULL]. *)
Theorem hash_node_alloc_then_drop_memory (fuel : nat) (w : world) (b : Z)
    (rest bl : list Z) :
  hash_free_list w = NULL -> libc w = b :: rest -> b <> NULL ->
  (forall i, 0 <= i < HASH_NODE_ALLOC_NUM ->
     node_at (b + sizeof_ptr) i <> NULL) ->
  blist (blk_next w) (hash_mem_list w) bl -> b ∉ bl ->
  (S (length bl) < fuel)%nat ->
  exists p w1 w2,
    hash_node_alloc w = (p, w1) /\ p = b + sizeof_ptr
    /\ hash_drop_memory fuel w1 = Some w2
    /\ trace w2 = trace w
         ++ EvMalloc (sizeof_ptr + HASH_NODE_ALLOC_NUM * sizeof_node) b
            :: EvFree b :: (EvFree <$> bl)
    /\ hash_mem_list w2 = NULL /\ hash_free_list w2 = NULL.
Proof.
  intros Hfl Hl Hb Hnn Hbl Hnew Hfuel.
  pose proof (blist_refill w b rest bl Hfl Hl Hb Hnew Hbl) as Hbl1.
  destruct (hash_node_alloc_refill w b rest Hfl Hl Hb Hnn)
    as (w1 & Hw1 & _ & _ & _ & _ & _ & Htr & _).
  rewrite Hw1 in Hbl1. cbn [snd] in Hbl1.
  eexists (b + sizeof_ptr), w1, _. split; [exact Hw1|]. split; [reflexivity|].
  split.
  { unfold hash_drop_memory.
    rewrite (drop_loop_spec (b :: bl) fuel w1 Hbl1 Hfuel). reflexivity. }
  cbn [trace hash_mem_list hash_free_list mem set_hash_free_list
       set_hash_mem_list logged].
  rewrite Htr, <- app_assoc. auto.
Qed.

Lemma hash_node_alloc_then_drop_memory_witness :
  exists p w1 w2,
    hash_node_alloc w_ex = (p, w1) /\ p = 65536 + sizeof_ptr
    /\ hash_drop_memory 5 w1 = Some w2
    /\ trace w2 = trace w_ex
         ++ EvMalloc (sizeof_ptr + HASH_NODE_ALLOC_NUM * sizeof_node) 65536
            :: EvFree 65536 :: (EvFree <$> [])
    /\ hash_mem_list w2 = NULL /\ hash_free_list w2 = NULL.
Proof.
  apply (hash_node_alloc_then_drop_memory 5 w_ex 65536 [] []).
  - reflexivity.
  - reflexivity.
  - discriminate.
  - intros i Hi. unfold node_at, sizeof_ptr, sizeof_node, NULL. lia.
  - reflexivity.
  - apply not_elem_of_nil.
  - cbn. lia.
Defined.

(** ** hash_insert: failures leave the table alone *)

Lemma shape_same_mem (h : hash) (w w' : world) (chains : list (list Z))
    (free : list Z) :
  mem w' = mem w -> hash_free_list w' = hash_free_list w ->
  shape h w chains free -> shape h w' chains free.
Proof.
  intros Hm Hf [H1 H2 H3 H4 H5]. constructor; rewrite ?Hm, ?Hf; assumption.
Qed.

Lemma malloc_fails_fresh (w : world) (live : list Z) :
  malloc_fails w -> malloc_fresh w live.
Proof.
  unfold malloc_fails, malloc_fresh. destruct (libc w) as [|b rest]; [auto|].
  intros -> Hb. congruence.
Qed.

Lemma insert_at_fail (h : hash) (pp : pptr) (key item : Z) (w : world) :
  hash_free_list w = NULL -> malloc_fails w ->
  exists w', insert_at h pp key item w = Some (NULL, Some h, w')
    /\ errno w' = ENOMEM /\ mem w' = mem w /\ hash_free_list w' = NULL.
Proof.
  intros Hfl Hfail.
  destruct (hash_node_alloc_fail w Hfl Hfail) as (w' & Hw' & He & Hm & _ & Hf & _).
  exists w'. unfold insert_at. rewrite Hw'. change (NULL =? NULL) with true.
  auto.
Qed.

(** X7.  Out of memory.  When the key is not in the table, the free list
    is empty and [malloc] fails, [hash_insert] returns [NULL] with
    [errno] set to [ENOMEM]; the table object and every node are as they
    were, so nothing is half inserted. *)
Theorem hash_insert_out_of_memory (fuel : nat) (h : hash) (w : world)
    (chains : list (list Z)) (free : list Z) (key item : Z) :
  shape h w chains free -> enough fuel chains ->
  key <> NULL -> item <> NULL ->
  (forall e, e ∈ mjoin (view (mem w) chains) -> cmp_f h e.1 key <> 0) ->
  hash_free_list w = NULL -> malloc_fails w ->
  exists w',
    hash_insert fuel (Some h) key item w = Some (NULL, Some h, w')
    /\ errno w' = ENOMEM /\ mem w' = mem w
    /\ shape h w' chains free.
Proof.
  intros Hshape Hfuel Hkey Hitem Habsent Hfl Hfail.
  pose proof (slot_of_lt h key (shape_size _ _ _ _ Hshape)) as Hslot.
  destruct (shape_lookup _ _ _ _ _ Hshape Hslot) as (l & Hl & Hch).
  pose proof (walk_spec h key (mem w) l fuel (SlotRef (slot_of h key)) Hch
                (enough_lookup _ _ _ _ Hfuel Hl)) as Hwalk.
  cbv zeta in Hwalk.
  assert (Hstop : exists pp, walk fuel h key (mem w) (SlotRef (slot_of h key))
                             = Some (Stop pp)).
  { rewrite Hwalk.
    destruct (ahead (node_cv h (mem w) key) l) as [|p2 l2] eqn:El2; [eauto|].
    destruct (Z.eqb_spec (node_cv h (mem w) key p2) 0) as [E0|E0]; [|eauto].
    exfalso. apply (Habsent (entry (mem w) p2)); [|exact E0].
    rewrite view_mjoin. apply list_elem_of_fmap_2.
    apply list_elem_of_join. exists l. split.
    - apply (ahead_subseteq (node_cv h (mem w) key)). rewrite El2. left.
    - apply list_elem_of_lookup_2 with (slot_of h key). exact Hl. }
  destruct Hstop as [pp Hpp].
  destruct (insert_at_fail h pp key item w Hfl Hfail) as (w' & Hw' & He & Hm & Hf).
  exists w'. unfold hash_insert.
  apply Z.eqb_neq in Hkey, Hitem. rewrite Hkey, Hitem. cbn [orb].
  rewrite Hpp. split; [exact Hw'|]. split; [exact He|]. split; [exact Hm|].
  apply (shape_same_mem h w); [exact Hm|congruence|exact Hshape].
Qed.

Lemma hash_insert_out_of_memory_witness :
  exists w',
    hash_insert 10 (Some h_ex) 9 90 (set_libc [] w_ex)
      = Some (NULL, Some h_ex, w')
    /\ errno w' = ENOMEM /\ mem w' = mem (set_libc [] w_ex)
    /\ shape h_ex w' chains_ex [].
Proof.
  apply (hash_insert_out_of_memory 10 h_ex (set_libc [] w_ex) chains_ex [] 9 90).
  - apply (shape_same_mem h_ex w_ex); [reflexivity|reflexivity|exact shape_ex].
  - exact enough_ex.
  - discriminate.
  - discriminate.
  - intros e He. change (mem (set_libc [] w_ex)) with (mem w_ex) in He.
    rewrite view_ex in He. cbn in He.
    apply elem_of_cons in He as [->|He];
      [|apply elem_of_cons in He as [->|He]; [|inversion He]];
      cbn; unfold cmp_ex; lia.
  - reflexivity.
  - exact I.
Defined.

(** X8.  [hash_insert] is all or nothing.  Either it returns [NULL], and
    then the table object, the nodes and the free list are as before and
    [errno] is one of [EINVAL], [EEXIST] and [ENOMEM]; or it returns the
    item, which is not [NULL], [hash_count] has gone up by one and
    [errno] is not touched. *)
Theorem hash_insert_all_or_nothing (fuel : nat) (h : hash) (w : world)
    (chains : list (list Z)) (free : list Z) (key item : Z) :
  shape h w chains free -> enough fuel chains ->
  malloc_fresh w (mjoin chains) -> count h < INT_MAX ->
  exists r h' w',
    hash_insert fuel (Some h) key item w = Some (r, Some h', w')
    /\ ((r = NULL /\ h' = h /\ mem w' = mem w
         /\ hash_free_list w' = hash_free_list w
         /\ (errno w' = EINVAL \/ errno w' = EEXIST \/ errno w' = ENOMEM))
        \/ (r = item /\ r <> NULL
            /\ hash_count (Some h') w' = (count h + 1, w')
            /\ errno w' = errno w)).
Proof.
  intros Hshape Hfuel Hfresh Hcount.
  destruct (Z.eq_dec key NULL) as [Hkey|Hkey].
  { exists NULL, h, (set_errno EINVAL w). subst key. split; [reflexivity|].
    left. cbn. auto 10. }
  destruct (Z.eq_dec item NULL) as [Hitem|Hitem].
  { exists NULL, h, (set_errno EINVAL w). subst item. split.
    - unfold hash_insert. change (NULL =? NULL) with true.
      rewrite orb_true_r. reflexivity.
    - left. cbn. auto 10. }
  destruct (hash_insert_spec fuel h w chains free key item
              Hshape Hfuel Hkey Hitem Hfresh Hcount)
    as [(e & t & _ & _ & Hrun)
       |(_ & [(w' & Hrun & He & Hm & Hf & _)
             |(h' & w' & p & free' & Hrun & _ & _ & Hh' & He)])].
  - exists NULL, h, (set_errno EEXIST w). split; [exact Hrun|].
    left. cbn. auto 10.
  - exists NULL, h, w'. split; [exact Hrun|]. left. auto 10.
  - exists item, h', w'. split; [exact Hrun|]. right.
    split; [reflexivity|]. split; [exact Hitem|]. split; [|exact He].
    apply hash_fields_eq in Hh'. destruct Hh' as [Hc _].
    unfold hash_count. rewrite Hc. reflexivity.
Qed.

Lemma hash_insert_all_or_nothing_witness :
  exists r h' w',
    hash_insert 10 (Some h_ex) 9 90 w_ex = Some (r, Some h', w')
    /\ ((r = NULL /\ h' = h_ex /\ mem w' = mem w_ex
         /\ hash_free_list w' = hash_free_list w_ex
         /\ (errno w' = EINVAL \/ errno w' = EEXIST \/ errno w' = ENOMEM))
        \/ (r = 90 /\ r <> NULL
            /\ hash_count (Some h') w' = (count h_ex + 1, w')
            /\ errno w' = errno w_ex)).
Proof.
  apply (hash_insert_all_or_nothing 10 h_ex w_ex chains_ex [] 9 90).
  - exact shape_ex.
  - exact enough_ex.
  - exact malloc_fresh_ex.
  - cbn. unfold INT_MAX. lia.
Defined.

(** ** hash_remove against hash_find *)

(** X9.  [hash_remove] returns what [hash_find] finds.  On the same table
    and key both return the same pointer, the stored item or [NULL], with
    [errno] zero; the removal does not call the deletion callback or the
    C library, the item now being the caller's; and [hash_count] goes
    down by one exactly when a node was unlinked. *)
Theorem hash_remove_returns_found (fuel : nat) (h : hash) (w : world)
    (chains : list (list Z)) (free : list Z) (key : Z) :
  shape h w chains free -> enough fuel chains -> key <> NULL ->
  exists v h' w',
    hash_find fuel (Some h) key w = Some (v, set_errno 0 w)
    /\ hash_remove fuel (Some h) key w = Some (v, Some h', w')
    /\ errno w' = 0 /\ trace w' = trace w /\ libc w' = libc w
    /\ ((h' = h /\ w' = set_errno 0 w /\ v = NULL)
        \/ (count h' = count h - 1
            /\ exists p, chain (mem w') (hash_free_list w') (p :: free))).
Proof.
  intros Hshape Hfuel Hkey.
  rewrite (hash_find_spec fuel h w chains free key Hshape Hfuel Hkey).
  destruct (hash_remove_spec fuel h w chains free key Hshape Hfuel Hkey)
    as [(e & t & Hahead & Hk & h' & w' & p & Hrun & Hs' & _ & Hh' & He & Htr & Hlc)
       |[Hgt Hrun]].
  - exists e.2, h', w'. split.
    + rewrite find_spec_ahead, Hahead. destruct e as [k d]. cbn [fst snd] in *.
      rewrite Hk. reflexivity.
    + split; [exact Hrun|]. split; [exact He|]. split; [exact Htr|].
      split; [exact Hlc|]. right. split.
      * apply hash_fields_eq in Hh'. apply Hh'.
      * exists p. exact (shape_free _ _ _ _ Hs').
  - exists NULL, h, (set_errno 0 w). split.
    + rewrite (find_spec_absent _ _ _ Hgt). reflexivity.
    + split; [exact Hrun|]. cbn. auto 10.
Qed.

Lemma hash_remove_returns_found_witness :
  exists v h' w',
    hash_find 10 (Some h_ex) 5 w_ex = Some (v, set_errno 0 w_ex)
    /\ hash_remove 10 (Some h_ex) 5 w_ex = Some (v, Some h', w')
    /\ errno w' = 0 /\ trace w' = trace w_ex /\ libc w' = libc w_ex
    /\ ((h' = h_ex /\ w' = set_errno 0 w_ex /\ v = NULL)
        \/ (count h' = count h_ex - 1
            /\ exists p, chain (mem w') (hash_free_list w') (p :: []))).
Proof.
  apply (hash_remove_returns_found 10 h_ex w_ex chains_ex [] 5).
  - exact shape_ex.
  - exact enough_ex.
  - discriminate.
Defined.





(** ** Other keys are not disturbed *)






Lemma slot_of_fields (h h' : hash) (key : Z) :
  size h' = size h -> key_f h' = key_f h -> slot_of h' key = slot_of h key.
Proof. intros Hs Hk. unfold slot_of. rewrite Hs, Hk. reflexivity. Qed.






(** ** Replacing the item of a key *)




(** ** hash_reset and hash_destroy: the deletion callback *)

Lemma reset_events_del_calls (del : Z) (c : list (Z * Z)) :
  reset_events del c
  = if del =? NULL then [] else EvDel del <$> (snd <$> c).
Proof.
  unfold reset_events, del_events.
  destruct (del =? NULL); induction c as [|[k d] c IH]; try reflexivity.
  - cbn in *. exact IH.
  - cbn in *. rewrite IH. reflexivity.
Qed.

(** X14.  [hash_reset] disposes of every item: with a deletion callback
    it is called exactly once on each stored item, slot by slot and each
    chain in link order, and without one nothing is called; the nodes go
    to the free list of the allocator, the last one visited first, and
    neither [malloc] nor [free] is called. *)
Theorem hash_reset_calls_del_f (fuel : nat) (h : hash) (w : world)
    (chains : list (list Z)) (free : list Z) :
  shape h w chains free -> enough fuel chains ->
  exists h' w',
    hash_reset fuel (Some h) w = Some (Some h', w')
    /\ trace w' = trace w
         ++ (if del_f h =? NULL then []
             else EvDel (del_f h) <$> (snd <$> mjoin (view (mem w) chains)))
    /\ chain (mem w') (hash_free_list w') (reverse (mjoin chains) ++ free)
    /\ libc w' = libc w /\ errno w' = errno w.
Proof.
  intros Hshape Hfuel.
  destruct (hash_reset_spec fuel h w chains free Hshape Hfuel)
    as (h' & w' & Hrun & Hs' & _ & Htr & He & Hl).
  exists h', w'. split; [exact Hrun|].
  rewrite <- reset_events_del_calls.
  split; [exact Htr|]. split; [exact (shape_free _ _ _ _ Hs')|]. auto.
Qed.

Lemma hash_reset_calls_del_f_witness :
  exists h' w',
    hash_reset 10 (Some h_ex) w_ex = Some (Some h', w')
    /\ trace w' = trace w_ex
         ++ (if del_f h_ex =? NULL then []
             else EvDel (del_f h_ex) <$> (snd <$> mjoin (view (mem w_ex) chains_ex)))
    /\ chain (mem w') (hash_free_list w') (reverse (mjoin chains_ex) ++ [])
    /\ libc w' = libc w_ex /\ errno w' = errno w_ex.
Proof.
  exact (hash_reset_calls_del_f 10 h_ex w_ex chains_ex [] shape_ex enough_ex).
Defined.

Lemma destroy_buckets_spec (fuel : nat) (h : hash) (m0 : heap)
    (chains : list (list Z)) :
  forall (k i : nat) (w : world) (free : list Z),
  Forall2 (chain (mem w)) (drop i (table h)) (drop i chains) ->
  chain (mem w) (hash_free_list w) free ->
  NoDup (mjoin (drop i chains) ++ free) ->
  enough fuel chains ->
  (forall a, entry (mem w) a = entry m0 a) ->
  (i + k = length chains)%nat ->
  exists w',
    destroy_buckets fuel k i h w = Some w'
    /\ chain (mem w') (hash_free_list w')
             (reverse (mjoin (drop i chains)) ++ free)
    /\ trace w' = trace w
         ++ reset_events (del_f h) (entry m0 <$> mjoin (drop i chains))
    /\ errno w' = errno w /\ libc w' = libc w.
Proof.
  induction k as [|k IH]; intros i w free Hch Hfree Hnd Hen Hent Hik.
  - exists w. rewrite drop_ge by lia. cbn. rewrite app_nil_r. auto.
  - assert (Hi : (i < length chains)%nat) by lia.
    destruct (lookup_lt_is_Some_2 chains i Hi) as [l Hl].
    rewrite (drop_S _ _ _ Hl) in *.
    apply Forall2_cons_inv_r in Hch.
    destruct Hch as (p & t' & Hpl & Hrest & Ht).
    assert (Hp : table h !! i = Some p).
    { rewrite <- (Nat.add_0_r i), <- lookup_drop, Ht. reflexivity. }
    assert (Ht' : t' = drop (S i) (table h)).
    { rewrite (drop_S _ _ _ Hp) in Ht. congruence. }
    subst t'. cbn [mjoin list_join] in Hnd |- *.
    change (foldr app [] ?x) with (mjoin x) in *.
    rewrite <- app_assoc in Hnd.
    apply NoDup_app in Hnd. destruct Hnd as (Hndl & Hdisj & Hndr).
    apply NoDup_app in Hndr. destruct Hndr as (Hndrest & Hdisj2 & Hndfree).
    destruct (reset_chain_spec h m0 l fuel p w free
                (enough_lookup _ _ _ _ Hen Hl) Hent Hpl Hfree)
      as (w1 & Hrun & Hfree1 & Hent1 & Hframe & Htr1 & He1 & Hl1).
    { apply NoDup_app. split; [exact Hndl|]. split; [|exact Hndfree].
      intros a Ha Hf. apply (Hdisj a Ha). apply elem_of_app. right. exact Hf. }
    destruct (IH (S i) w1 (reverse l ++ free)) as (w' & Hrun' & Hfree' & Htr' & He' & Hl').
    + eapply Forall2_impl; [|intros x y Hxy; exact Hxy].
      apply Forall2_lookup. intros j.
      destruct (drop (S i) chains !! j) as [y|] eqn:Hy.
      * destruct (Forall2_lookup_r _ _ _ _ _ Hrest Hy) as (x & Hx & Hxy).
        rewrite Hx. constructor. unfold chain.
        apply (lseg_frame_eq (mem w)); [|exact Hxy].
        intros a Ha. apply Hframe. intros Hal. apply (Hdisj a Hal).
        apply elem_of_app. left. apply list_elem_of_join. exists y.
        split; [exact Ha|]. apply list_elem_of_lookup_2 with j. exact Hy.
      * pose proof (Forall2_length _ _ _ Hrest) as Hlen.
        apply lookup_ge_None in Hy. rewrite <- Hlen in Hy.
        apply lookup_ge_None in Hy. rewrite Hy. constructor.
    + exact Hfree1.
    + apply NoDup_app. split; [exact Hndrest|]. split.
      * intros a Ha Hin. apply elem_of_app in Hin. destruct Hin as [Hin|Hin].
        -- rewrite elem_of_reverse in Hin. apply (Hdisj a Hin).
           apply elem_of_app. left. exact Ha.
        -- exact (Hdisj2 a Ha Hin).
      * apply NoDup_app. split; [rewrite reverse_Permutation; exact Hndl|].
        split; [|exact Hndfree].
        intros a Ha Hf. rewrite elem_of_reverse in Ha. apply (Hdisj a Ha).
        apply elem_of_app. right. exact Hf.
    + exact Hen.
    + exact Hent1.
    + lia.
    + exists w'. cbn [destroy_buckets].
      rewrite (list_lookup_total_correct _ _ _ Hp), Hrun.
      split; [exact Hrun'|]. split.
      * rewrite reverse_app, <- app_assoc. exact Hfree'.
      * rewrite fmap_app, reset_events_app, app_assoc, <- Htr1.
        split; [exact Htr'|]. split; congruence.
Qed.

(** X15.  [hash_destroy] calls the deletion callback, if there is one,
    exactly once on each stored item, in the order of the slots and of
    each chain; it gives every node back to the allocator, whose free
    list grows by all of them, and not to [free]; and it ends by freeing
    the bucket array and then the table structure, in that order. *)
Theorem hash_destroy_releases_all (fuel : nat) (h : hash) (hp tp : Z)
    (w : world) (chains : list (list Z)) (fl : list Z) :
  shape h w chains fl -> enough fuel chains ->
  exists w',
    hash_destroy fuel (Some h) hp tp w = Some w'
    /\ trace w' = trace w
         ++ (if del_f h =? NULL then []
             else EvDel (del_f h) <$> (snd <$> mjoin (view (mem w) chains)))
         ++ [EvFree tp; EvFree hp]
    /\ chain (mem w') (hash_free_list w') (reverse (mjoin chains) ++ fl)
    /\ libc w' = libc w /\ errno w' = errno w.
Proof.
  intros Hshape Hfuel.
  pose proof (Forall2_length _ _ _ (shape_chains _ _ _ _ Hshape)) as Hlen.
  rewrite (shape_length _ _ _ _ Hshape) in Hlen.
  destruct (destroy_buckets_spec fuel h (mem w) chains (Z.to_nat (size h)) 0 w fl)
    as (w1 & Hrun & Hfree1 & Htr & He & Hl).
  - rewrite !drop_0. exact (shape_chains _ _ _ _ Hshape).
  - exact (shape_free _ _ _ _ Hshape).
  - rewrite drop_0. exact (shape_nodup _ _ _ _ Hshape).
  - exact Hfuel.
  - reflexivity.
  - lia.
  - rewrite drop_0 in *. exists (free hp (free tp w1)).
    unfold hash_destroy. rewrite Hrun. split; [reflexivity|].
    cbn [free log trace mem hash_free_list libc errno].
    rewrite Htr, <- view_mjoin, reset_events_del_calls, <- !app_assoc.
    auto.
Qed.

Lemma hash_destroy_releases_all_witness :
  exists w',
    hash_destroy 10 (Some h_ex) 1000 2000 w_ex = Some w'
    /\ trace w' = trace w_ex
         ++ (if del_f h_ex =? NULL then []
             else EvDel (del_f h_ex) <$> (snd <$> mjoin (view (mem w_ex) chains_ex)))
         ++ [EvFree 2000; EvFree 1000]
    /\ chain (mem w') (hash_free_list w') (reverse (mjoin chains_ex) ++ [])
    /\ libc w' = libc w_ex /\ errno w' = errno w_ex.
Proof.
  exact (hash_destroy_releases_all 10 h_ex 1000 2000 w_ex chains_ex []
           shape_ex enough_ex).
Defined.

(** ** hash_create: the new table and the failures *)

Lemma for_each_buckets_empty (fuel : nat) (arg_f : Z -> Z -> Z -> Z) (arg : Z)
    (h : hash) :
  (forall j, (j < length (table h))%nat -> table h !!! j = NULL) ->
  forall (k i : nat) (w : world) (n : Z),
  (i + k <= length (table h))%nat ->
  for_each_buckets (S fuel) arg_f arg k i h w n = Some (w, n).
Proof.
  intros Hnull. induction k as [|k IH]; intros i w n Hik; [reflexivity|].
  cbn [for_each_buckets for_each_chain]. rewrite Hnull by lia.
  change (NULL =? NULL) with true. cbv iota.
  apply IH. lia.
Qed.

(** X16.  A table fresh from [hash_create] is empty: [hash_count] is
    zero, [hash_is_empty] answers 1, looking up or removing any key finds
    nothing ([NULL] with [errno] zero), and [hash_for_each] returns zero
    without calling the callback. *)
Theorem hash_create_empty_table (sz : Z) (key_f : option (Z -> Z))
    (cmp_f : option (Z -> Z -> Z)) (del_f : Z) (w w' : world) (h : hash) :
  sz <= INT_MAX ->
  hash_create sz key_f cmp_f del_f w = (Some h, w') ->
  hash_count (Some h) w' = (0, w')
  /\ hash_is_empty (Some h) w' = (1, w')
  /\ (forall fuel key, key <> NULL ->
        hash_find (S fuel) (Some h) key w' = Some (NULL, set_errno 0 w')
        /\ hash_remove (S fuel) (Some h) key w'
           = Some (NULL, Some h, set_errno 0 w'))
  /\ (forall fuel arg_f arg,
        hash_for_each (S fuel) (Some h) (Some arg_f) arg w' = Some (0, w')).
Proof.
  intros Hsz Hrun. unfold hash_create in Hrun.
  destruct cmp_f as [cmp|]; [|discriminate].
  destruct key_f as [keyf|]; [|discriminate].
  destruct (malloc sizeof_hash w) as [hp w1].
  destruct (hp =? NULL); [discriminate|].
  set (n := if sz <=? 0 then HASH_DEF_SIZE else sz) in *.
  destruct (calloc n sizeof_ptr w1) as [tp w2].
  destruct (tp =? NULL); [discriminate|].
  injection Hrun as <- <-.
  assert (Hn : 0 < n <= INT_MAX).
  { unfold n. destruct (Z.leb_spec sz 0); unfold HASH_DEF_SIZE, INT_MAX in *; lia. }
  set (h := mk_hash 0 n (replicate (Z.to_nat n) NULL) cmp del_f keyf).
  assert (Hnull : forall j, (j < length (table h))%nat -> table h !!! j = NULL).
  { intros j Hj. cbn [table h] in *. rewrite length_replicate in Hj.
    apply lookup_total_replicate_2. exact Hj. }
  assert (Hslot : forall key, table h !!! slot_of h key = NULL).
  { intros key. apply Hnull. cbn [table h]. rewrite length_replicate.
    apply (slot_of_lt h key). exact Hn. }
  split; [reflexivity|]. split; [reflexivity|]. split.
  - intros fuel key Hkey. apply Z.eqb_neq in Hkey.
    unfold hash_find, hash_remove. rewrite Hkey.
    cbn [find_loop walk deref]. rewrite Hslot.
    change (NULL =? NULL) with true. cbv iota. auto.
  - intros fuel arg_f arg. unfold hash_for_each.
    rewrite (for_each_buckets_empty fuel arg_f arg h Hnull); [reflexivity|].
    cbn [table h size]. rewrite length_replicate. lia.
Qed.

Lemma hash_create_empty_table_witness :
  let r := hash_create 4 (Some key_ex) (Some cmp_ex) NULL w_init in
  exists h w',
    r = (Some h, w')
    /\ hash_count (Some h) w' = (0, w')
    /\ hash_is_empty (Some h) w' = (1, w')
    /\ (forall fuel key, key <> NULL ->
          hash_find (S fuel) (Some h) key w' = Some (NULL, set_errno 0 w')
          /\ hash_remove (S fuel) (Some h) key w'
             = Some (NULL, Some h, set_errno 0 w'))
    /\ (forall fuel arg_f arg,
          hash_for_each (S fuel) (Some h) (Some arg_f) arg w' = Some (0, w')).
Proof.
  eexists _, _. split; [reflexivity|].
  apply (hash_create_empty_table 4 (Some key_ex) (Some cmp_ex) NULL w_init);
    [unfold INT_MAX; lia|reflexivity].
Defined.

(** X17.  [hash_create] fails cleanly.  When it returns [NULL], either a
    callback was missing and it has only set [errno] to [EINVAL], or the
    first allocation failed, or the allocation of the bucket array failed
    and the table structure obtained just before has been freed again;
    in the last two cases [errno] is [ENOMEM].  No memory stays
    allocated. *)
Theorem hash_create_fails_cleanly (sz : Z) (key_f : option (Z -> Z))
    (cmp_f : option (Z -> Z -> Z)) (del_f : Z) (w w' : world) :
  hash_create sz key_f cmp_f del_f w = (None, w') ->
  ((key_f = None \/ cmp_f = None) /\ w' = set_errno EINVAL w)
  \/ (errno w' = ENOMEM
      /\ trace w' = trace w ++ [EvMalloc sizeof_hash NULL])
  \/ (exists hp, hp <> NULL /\ errno w' = ENOMEM
      /\ trace w' = trace w
           ++ [EvMalloc sizeof_hash hp;
               EvCalloc (if sz <=? 0 then HASH_DEF_SIZE else sz) sizeof_ptr NULL;
               EvFree hp]).
Proof.
  unfold hash_create.
  destruct cmp_f as [cmp|]; [|intros [= <-]; left; split; [destruct key_f|]; auto].
  destruct key_f as [keyf|]; [|intros [= <-]; left; auto].
  set (n := if sz <=? 0 then HASH_DEF_SIZE else sz).
  unfold malloc.
  destruct (libc w) as [|hp rest] eqn:Hl.
  { change (NULL =? NULL) with true. cbv iota. intros [= <-].
    right. left. cbn. auto. }
  destruct (Z.eqb_spec hp NULL) as [Hhp|Hhp].
  { intros [= <-]. right. left. subst hp. cbn. auto. }
  unfold calloc. cbn [libc set_libc log].
  destruct rest as [|tp rest].
  { change (NULL =? NULL) with true. cbv iota. intros [= <-].
    right. right. exists hp. split; [exact Hhp|]. cbn.
    rewrite <- !app_assoc. auto. }
  destruct (Z.eqb_spec tp NULL) as [Htp|Htp]; [|discriminate].
  intros [= <-]. right. right. exists hp. split; [exact Hhp|]. subst tp. cbn.
  rewrite <- !app_assoc. auto.
Qed.

Lemma hash_create_fails_cleanly_witness :
  let w := set_libc [4096] w_init in
  let w' := (hash_create 4 (Some key_ex) (Some cmp_ex) NULL w).2 in
  ((Some key_ex = None \/ Some cmp_ex = None) /\ w' = set_errno EINVAL w)
  \/ (errno w' = ENOMEM
      /\ trace w' = trace w ++ [EvMalloc sizeof_hash NULL])
  \/ (exists hp, hp <> NULL /\ errno w' = ENOMEM
      /\ trace w' = trace w
           ++ [EvMalloc sizeof_hash hp;
               EvCalloc (if 4 <=? 0 then HASH_DEF_SIZE else 4) sizeof_ptr NULL;
               EvFree hp]).
Proof.
  exact (hash_create_fails_cleanly 4 (Some key_ex) (Some cmp_ex) NULL
           (set_libc [4096] w_init) _ eq_refl).
Defined.

(** ** hash_delete_if against hash_find *)





(** ** Entries stay in the slot of their key *)

Lemma hash_delete_if_keeps_placed (fuel : nat) (h h' : hash) (w w' : world)
    (chains : list (list Z)) (free : list Z)
    (arg_f : Z -> Z -> Z -> Z) (arg n : Z) :
  shape h w chains free -> enough fuel chains ->
  placed h (view (mem w) chains) ->
  hash_delete_if fuel (Some h) (Some arg_f) arg w = Some (n, Some h', w') ->
  exists chains' free',
    shape h' w' chains' free' /\ placed h' (view (mem w') chains').
Proof.
  intros Hshape Hfuel Hpl Hrun.
  destruct (hash_delete_if_spec fuel h w chains free arg_f arg Hshape Hfuel)
    as (h1 & w1 & chains' & free' & Hrun1 & Hs' & Hv' & Hh' & _).
  rewrite Hrun1 in Hrun. injection Hrun as _ <- <-.
  destruct (hash_fields_eq _ _ _ _ Hh') as (_ & Hsz & _ & _ & Hkf & _).
  exists chains', free'. split; [exact Hs'|].
  rewrite Hv'. intros i c x Hc Hx.
  rewrite list_lookup_fmap in Hc.
  destruct (view (mem w) chains !! i) as [c0|] eqn:Hc0; [|discriminate].
  injection Hc as <-. apply list_elem_of_filter in Hx. destruct Hx as [_ Hx].
  rewrite (slot_of_fields h h1 _ Hsz Hkf). exact (Hpl i c0 x Hc0 Hx).
Qed.

Lemma hash_insert_returns (fuel : nat) (h : hash) (w : world)
    (chains : list (list Z)) (free : list Z) (key item : Z) :
  shape h w chains free -> enough fuel chains ->
  malloc_fresh w (mjoin chains) -> count h < INT_MAX ->
  exists r h' w', hash_insert fuel (Some h) key item w = Some (r, Some h', w').
Proof.
  intros Hshape Hfuel Hfresh Hcount.
  destruct (Z.eq_dec key NULL) as [Hkey|Hkey].
  { subst key. eexists _, _, _. reflexivity. }
  destruct (Z.eq_dec item NULL) as [Hitem|Hitem].
  { subst item. eexists _, _, _. unfold hash_insert.
    change (NULL =? NULL) with true. rewrite orb_true_r. reflexivity. }
  destruct (hash_insert_spec fuel h w chains free key item
              Hshape Hfuel Hkey Hitem Hfresh Hcount)
    as [(e & t & _ & _ & Hrun)
       |(_ & [(w' & Hrun & _)|(h' & w' & p & free' & Hrun & _)])];
    eexists _, _, _; exact Hrun.
Qed.

Lemma hash_remove_returns (fuel : nat) (h : hash) (w : world)
    (chains : list (list Z)) (free : list Z) (key : Z) :
  shape h w chains free -> enough fuel chains ->
  exists r h' w', hash_remove fuel (Some h) key w = Some (r, Some h', w').
Proof.
  intros Hshape Hfuel.
  destruct (Z.eq_dec key NULL) as [Hkey|Hkey].
  { subst key. eexists _, _, _. reflexivity. }
  destruct (hash_remove_spec fuel h w chains free key Hshape Hfuel Hkey)
    as [(e & t & _ & _ & h' & w' & p & Hrun & _)|[_ Hrun]];
    eexists _, _, _; exact Hrun.
Qed.

(** X19.  Every entry is in the chain of the slot that its key hashes to,
    with a key and an item that are not [NULL]: on a well-formed table of
    which this is true, [hash_insert], [hash_remove] and [hash_delete_if]
    return, and it is true of the table they leave, whatever they
    return. *)
Theorem placement_is_kept :
  (forall fuel h w chains free key item,
     shape h w chains free -> enough fuel chains ->
     malloc_fresh w (mjoin chains) -> count h < INT_MAX ->
     placed h (view (mem w) chains) ->
     exists r h' w' chains' free',
       hash_insert fuel (Some h) key item w = Some (r, Some h', w')
       /\ shape h' w' chains' free' /\ placed h' (view (mem w') chains'))
  /\ (forall fuel h w chains free key,
        shape h w chains free -> enough fuel chains ->
        placed h (view (mem w) chains) ->
        exists r h' w' chains' free',
          hash_remove fuel (Some h) key w = Some (r, Some h', w')
          /\ shape h' w' chains' free' /\ placed h' (view (mem w') chains'))
  /\ (forall fuel h w chains free arg_f arg,
        shape h w chains free -> enough fuel chains ->
        placed h (view (mem w) chains) ->
        exists n h' w' chains' free',
          hash_delete_if fuel (Some h) (Some arg_f) arg w
            = Some (n, Some h', w')
          /\ shape h' w' chains' free' /\ placed h' (view (mem w') chains')).
Proof.
  split; [|split].
  - intros fuel h w chains fr key item Hshape Hfuel Hfresh Hcount Hpl.
    destruct (hash_insert_returns fuel h w chains fr key item
                Hshape Hfuel Hfresh Hcount) as (r & h' & w' & Hrun).
    destruct (hash_insert_keeps_placed fuel h h' w w' chains fr key item r
                Hshape Hfuel Hfresh Hcount Hpl Hrun) as (chains' & fr' & H).
    exists r, h', w', chains', fr'. split; [exact Hrun|exact H].
  - intros fuel h w chains fr key Hshape Hfuel Hpl.
    destruct (hash_remove_returns fuel h w chains fr key Hshape Hfuel)
      as (r & h' & w' & Hrun).
    destruct (hash_remove_keeps_placed fuel h h' w w' chains fr key r
                Hshape Hfuel Hpl Hrun) as (chains' & fr' & H).
    exists r, h', w', chains', fr'. split; [exact Hrun|exact H].
  - intros fuel h w chains fr arg_f arg Hshape Hfuel Hpl.
    destruct (hash_delete_if_spec fuel h w chains fr arg_f arg Hshape Hfuel)
      as (h' & w' & _ & _ & Hrun & _).
    destruct (hash_delete_if_keeps_placed fuel h h' w w' chains fr arg_f arg _
                Hshape Hfuel Hpl Hrun) as (chains' & fr' & H).
    eexists _, h', w', chains', fr'. split; [exact Hrun|exact H].
Qed.

Lemma placement_is_kept_witness :
  (exists r h' w' chains' free',
     hash_insert 10 (Some h_ex) 9 90 w_ex = Some (r, Some h', w')
     /\ shape h' w' chains' free' /\ placed h' (view (mem w') chains'))
  /\ (exists r h' w' chains' free',
        hash_remove 10 (Some h_ex) 5 w_ex = Some (r, Some h', w')
        /\ shape h' w' chains' free' /\ placed h' (view (mem w') chains'))
  /\ (exists n h' w' chains' free',
        hash_delete_if 10 (Some h_ex)
          (Some (fun item key arg : Z => item - arg)) 20 w_ex
          = Some (n, Some h', w')
        /\ shape h' w' chains' free' /\ placed h' (view (mem w') chains')).
Proof.
  destruct placement_is_kept as (Hins & Hrem & Hdel).
  split; [|split].
  - apply (Hins 10%nat h_ex w_ex chains_ex [] 9 90).
    + exact shape_ex.
    + exact enough_ex.
    + exact malloc_fresh_ex.
    + cbn. unfold INT_MAX. lia.
    + exact placed_ex.
  - exact (Hrem 10%nat h_ex w_ex chains_ex [] 5 shape_ex enough_ex placed_ex).
  - exact (Hdel 10%nat h_ex w_ex chains_ex []
             (fun item key arg : Z => item - arg) 20
             shape_ex enough_ex placed_ex).
Defined.

(** ** hash_count against a traversal *)

Lemma filter_all {A : Type} (P : A -> Prop) `{!forall a, Decision (P a)}
    (l : list A) :
  (forall a, a ∈ l -> P a) -> filter P l = l.
Proof.
  induction l as [|a l IH]; intros Hall; [reflexivity|].
  rewrite filter_cons, decide_True by (apply Hall; left).
  rewrite IH; [reflexivity|]. intros b Hb. apply Hall. right. exact Hb.
Qed.

(** X20.  The count that the table keeps is the number of entries that a
    traversal meets: on a table with the structural invariants,
    [hash_for_each] with a callback that returns greater-than-zero on
    every entry returns what [hash_count] returns, and [hash_is_empty]
    answers 1 exactly when the callback is never called. *)
Theorem hash_for_each_counts_all (fuel : nat) (h : hash) (w : world)
    (chains : list (list Z)) (free : list Z)
    (arg_f : Z -> Z -> Z -> Z) (arg : Z) :
  table_ok h w chains free -> enough fuel chains ->
  (forall e, e ∈ mjoin (view (mem w) chains) -> 0 < arg_f e.2 e.1 arg) ->
  exists n w',
    hash_for_each fuel (Some h) (Some arg_f) arg w = Some (n, w')
    /\ hash_count (Some h) w = (n, w)
    /\ (hash_is_empty (Some h) w = (1, w) <-> trace w' = trace w).
Proof.
  intros [Hshape (Hcount & _)] Hfuel Hall.
  rewrite (hash_for_each_spec fuel h w chains free arg_f arg Hshape Hfuel).
  rewrite (filter_all (doomed arg_f arg)) by exact Hall.
  eexists _, _. split; [reflexivity|].
  unfold hash_count, hash_is_empty, count_inv in *. rewrite Hcount.
  split; [reflexivity|]. cbn [trace logged].
  destruct (mjoin (view (mem w) chains)) as [|e c].
  - cbn. rewrite app_nil_r. tauto.
  - cbn [length for_each_events fmap list_fmap].
    destruct (Z.eqb_spec (Z.of_nat (S (length c))) 0) as [H0|H0]; [lia|].
    split; [intros [=]|].
    intros Heq. apply (f_equal length) in Heq.
    rewrite length_app in Heq. cbn in Heq. lia.
Qed.

Lemma hash_for_each_counts_all_witness :
  exists n w',
    hash_for_each 10 (Some h_ex) (Some (fun item key arg : Z => 1)) 0 w_ex
      = Some (n, w')
    /\ hash_count (Some h_ex) w_ex = (n, w_ex)
    /\ (hash_is_empty (Some h_ex) w_ex = (1, w_ex) <-> trace w' = trace w_ex).
Proof.
  apply (hash_for_each_counts_all 10 h_ex w_ex chains_ex []
           (fun item key arg : Z => 1) 0 table_ok_ex enough_ex).
  intros e _. lia.
Defined.
